(** * Dunn post-hoc analysis and compact letter display

    Shallow embedding of [AuxFunctions] from
    [notebooks/src/auxiliar_functions.py]: [holm_adjust], [dunn_posthoc],
    [cld_letters] and the loop of [compute_letters_per_enzyme], from the
    dict [groups] of each enzyme to the list [rows]; the data frames
    around that loop are left out.

    Conventions of the embedding.
    - A Python [float] is a value of [float]: a finite value is carried by
      the rational it denotes, next to the three IEEE special values.
      Arithmetic on finite values is exact (no rounding, no overflow, one
      zero).  Observations and group means are finite; p-values and
      [alpha] are any floats.
    - Lengths, indices and Python integers are unbounded ([nat], [Z]);
      arithmetic on a numpy [int64] array wraps around ([int64]).
    - A Python [dict] is an association list in insertion order whose keys
      are pairwise distinct; a dict that is only read through [get] or
      written by key is a [gmap].
    - A Python exception is the [Raise] outcome of [result]; statements run
      in the order of the source, so the first exception wins.
    - A one-character Python string is its code point; a string is the list
      of its code points. *)

From Stdlib Require Import QArith Qcanon Qminmax Qabs Lqa Permutation.
From Stdlib Require Import SetoidList SetoidPermutation.
From stdpp Require Import gmap list strings sorting.

Local Open Scope Q_scope.

(** ** Floating point values *)

Inductive float : Type :=
| NaN
| NInf
| Fin (q : Q)
| PInf.

Definition Qltb (a b : Q) : bool := negb (Qle_bool b a).

(** IEEE [a < b]: false as soon as one side is NaN. *)
Definition flt (a b : float) : bool :=
  match a, b with
  | NaN, _ | _, NaN => false
  | NInf, NInf => false
  | NInf, _ => true
  | Fin _, NInf => false
  | Fin x, Fin y => Qltb x y
  | Fin _, PInf => true
  | PInf, _ => false
  end.

(** IEEE [a >= b]. *)
Definition fge (a b : float) : bool :=
  match a, b with
  | NaN, _ | _, NaN => false
  | _, NInf => true
  | NInf, _ => false
  | PInf, _ => true
  | Fin _, PInf => false
  | Fin x, Fin y => Qle_bool y x
  end.

(** The order numpy sorts by: IEEE [<] with NaN after everything else. *)
Definition np_lt (a b : float) : bool :=
  match a, b with
  | NaN, _ => false
  | _, NaN => true
  | _, _ => flt a b
  end.

(** [k * p] for a Python number [k] and a float [p]. *)
Definition fmul (k : Q) (p : float) : float :=
  match p with
  | NaN => NaN
  | Fin q => Fin (k * q)
  | PInf => if Qltb 0 k then PInf else if Qltb k 0 then NInf else NaN
  | NInf => if Qltb 0 k then NInf else if Qltb k 0 then PInf else NaN
  end.

(** [np.maximum]: the larger one, NaN if either is. *)
Definition np_maximum (a b : float) : float :=
  match a, b with
  | NaN, _ | _, NaN => NaN
  | _, _ => if flt a b then b else a
  end.

(** [np.minimum]. *)
Definition np_minimum (a b : float) : float :=
  match a, b with
  | NaN, _ | _, NaN => NaN
  | _, _ => if flt b a then b else a
  end.

(** [np.clip(x, 0, 1)], which is [minimum(maximum(x, 0), 1)]. *)
Definition np_clip01 (x : float) : float :=
  np_minimum (np_maximum x (Fin 0)) (Fin 1).

(** [abs]. *)
Definition fabs (x : float) : float :=
  match x with
  | NaN => NaN
  | NInf | PInf => PInf
  | Fin q => Fin (Qabs q)
  end.

(** [a / b] of two finite numpy floats: no exception, a zero divisor gives
    an infinity or, for [0 / 0], NaN. *)
Definition fdiv (a b : Q) : float :=
  if Qeq_bool b 0 then
    if Qeq_bool a 0 then NaN else if Qltb 0 a then PInf else NInf
  else Fin (a / b).

(** [a - b]. *)
Definition fsub (a b : float) : float :=
  match a, b with
  | NaN, _ | _, NaN => NaN
  | PInf, PInf | NInf, NInf => NaN
  | PInf, _ | _, NInf => PInf
  | NInf, _ | _, PInf => NInf
  | Fin x, Fin y => Fin (x - y)
  end.

(** [a / s] for a finite [a] and any float [s]. *)
Definition fdiv_by (a : Q) (s : float) : float :=
  match s with
  | NaN => NaN
  | Fin b => fdiv a b
  | PInf | NInf => Fin 0
  end.

#[global] Instance float_inhabited : Inhabited float := populate NaN.

(** ** Exceptions *)

Inductive exn : Type :=
| ValueError_float      (* float(z): could not convert to float *)
| ValueError_concat     (* np.concatenate: need at least one array *)
| ValueError_p_adjust.  (* "p_adjust must be 'holm' or 'bonferroni'" *)

Inductive result (A : Type) : Type :=
| Ok (a : A)
| Raise (e : exn).
Arguments Ok {A} a.
Arguments Raise {A} e.

#[global] Instance result_ret : MRet result := @Ok.
#[global] Instance result_bind : MBind result := λ A B f m,
  match m with
  | Ok a => f a
  | Raise e => Raise e
  end.

Definition of_option {A} (e : exn) (o : option A) : result A :=
  match o with
  | Some a => Ok a
  | None => Raise e
  end.

(** ** Group identifiers

    A group identifier is any hashable Python value.  The code only ever
    compares identifiers for equality and passes them to [float(z)], which
    either gives a float or raises. *)

Class PyFloat (K : Type) := py_float : K → option float.

(** ** Strings of letters *)

Abbreviation letter := nat (only parsing).
Abbreviation pystr := (list nat) (only parsing).

Definition ord_a : nat := 97.
Definition chr (n : nat) : letter := n.

(** ** Python dicts with insertion order *)

Definition dict_keys {K V} (d : list (K * V)) : list K := d.*1.

Fixpoint dict_get {K V} `{EqDecision K} (d : list (K * V)) (k : K) : option V :=
  match d with
  | [] => None
  | (k', v) :: d' => if decide (k' = k) then Some v else dict_get d' k
  end.

(** ** [sorted(groups, key=..., reverse=True)]

    A stable sort into descending key order: equal keys keep the order
    they had. *)

Fixpoint insert_desc {A} (key : A → Q) (x : A) (l : list A) : list A :=
  match l with
  | [] => [x]
  | y :: l' => if Qltb (key x) (key y) then y :: insert_desc key x l'
               else x :: y :: l'
  end.

Definition sorted_desc {A} (key : A → Q) (l : list A) : list A :=
  foldr (insert_desc key) [] l.

Section cld.
Context {GroupId : Type} `{Countable GroupId} `{PyFloat GroupId}.

(** [tuple(sorted((g, h), key=lambda z: float(z)))] *)
Definition pair_key (g h : GroupId) : result (GroupId * GroupId) :=
  fg ← of_option ValueError_float (py_float g);
  fh ← of_option ValueError_float (py_float h);
  mret (if flt fh fg then (h, g) else (g, h)).

(** [pvals.get(key, 1.0)] *)
Definition pvals_get (pvals : gmap (GroupId * GroupId) float)
    (key : GroupId * GroupId) : float :=
  default (Fin 1) (pvals !! key).

(** The closure [nonsig] of [cld_letters]. *)
Definition nonsig (pvals : gmap (GroupId * GroupId) float) (alpha : float)
    (g h : GroupId) : result bool :=
  key ← pair_key g h;
  mret (fge (pvals_get pvals key) alpha).

(** [all(nonsig(g, h) for h in members)]: stops at the first [False]. *)
Fixpoint all_nonsig (pvals : gmap (GroupId * GroupId) float) (alpha : float)
    (g : GroupId) (members : list GroupId) : result bool :=
  match members with
  | [] => mret true
  | h :: members' =>
      b ← nonsig pvals alpha g h;
      if b : bool then all_nonsig pvals alpha g members' else mret false
  end.

(** [letters[h]] *)
Definition letters_of (letters : gmap GroupId pystr) (h : GroupId) : pystr :=
  default [] (letters !! h).

(** [L in letters[h]] *)
Definition has_letter (letters : gmap GroupId pystr) (L : letter)
    (h : GroupId) : bool :=
  bool_decide (L ∈ letters_of letters h).

(** [letters[g] += L] *)
Definition add_letter (letters : gmap GroupId pystr) (g : GroupId)
    (L : letter) : gmap GroupId pystr :=
  <[g := letters_of letters g ++ [L]]> letters.

(** The loop [for li, L in enumerate(letter_list)] of one group [g],
    threading [letters] and [placed]. *)
Fixpoint join_letters (pvals : gmap (GroupId * GroupId) float) (alpha : float)
    (groups : list GroupId) (g : GroupId) (letter_list : list letter)
    (letters : gmap GroupId pystr) (placed : bool)
    : result (gmap GroupId pystr * bool) :=
  match letter_list with
  | [] => mret (letters, placed)
  | L :: rest =>
      let members := filter (λ h, has_letter letters L h = true) groups in
      ok ← all_nonsig pvals alpha g members;
      if ok : bool
      then join_letters pvals alpha groups g rest (add_letter letters g L) true
      else join_letters pvals alpha groups g rest letters placed
  end.

(** The clean-up loop [for L in list(letters[g])]: it computes [members],
    evaluates the condition and goes on to the next letter either way. *)
Fixpoint cleanup_pass (pvals : gmap (GroupId * GroupId) float) (alpha : float)
    (groups : list GroupId) (g : GroupId) (letters : gmap GroupId pystr)
    (ls : pystr) : result unit :=
  match ls with
  | [] => mret tt
  | L :: rest =>
      let members :=
        filter (λ h, h ≠ g ∧ has_letter letters L h = true) groups in
      _ ← match members with
          | [] => mret false
          | _ => all_nonsig pvals alpha g members
          end;
      cleanup_pass pvals alpha groups g letters rest
  end.

(** The assignment part of the body of [for g in groups]. *)
Definition place_group (pvals : gmap (GroupId * GroupId) float) (alpha : float)
    (groups : list GroupId) (g : GroupId)
    (st : gmap GroupId pystr * list letter)
    : result (gmap GroupId pystr * list letter) :=
  '(letters, placed) ← join_letters pvals alpha groups g st.2 st.1 false;
  if placed : bool then mret (letters, st.2)
  else
    let new_letter := chr (ord_a + length st.2) in
    mret (add_letter letters g new_letter, st.2 ++ [new_letter]).

(** The whole body of [for g in groups]. *)
Definition cld_step (pvals : gmap (GroupId * GroupId) float) (alpha : float)
    (groups : list GroupId) (g : GroupId)
    (st : gmap GroupId pystr * list letter)
    : result (gmap GroupId pystr * list letter) :=
  st' ← place_group pvals alpha groups g st;
  _ ← cleanup_pass pvals alpha groups g st'.1 (letters_of st'.1 g);
  mret st'.

(** A [for] loop over [todo] whose body may raise. *)
Fixpoint for_each {A S} (body : A → S → result S) (todo : list A) (st : S)
    : result S :=
  match todo with
  | [] => mret st
  | x :: todo' => st' ← body x st; for_each body todo' st'
  end.

(** [{g: "" for g in groups}] *)
Definition init_letters (groups : list GroupId) : gmap GroupId pystr :=
  list_to_map ((λ g, (g, [])) <$> groups).

Definition cld_letters (group_means : list (GroupId * Q))
    (pvals : gmap (GroupId * GroupId) float) (alpha : float)
    : result (gmap GroupId pystr) :=
  let groups := dict_keys group_means in
  let groups :=
    sorted_desc (λ g, default 0 (dict_get group_means g)) groups in
  st ← for_each (cld_step pvals alpha groups) groups (init_letters groups, []);
  mret st.1.

(** The plain greedy assignment: [cld_letters] with the clean-up loop
    taken out of the body. *)
Definition cld_letters_greedy (group_means : list (GroupId * Q))
    (pvals : gmap (GroupId * GroupId) float) (alpha : float)
    : result (gmap GroupId pystr) :=
  let groups := dict_keys group_means in
  let groups :=
    sorted_desc (λ g, default 0 (dict_get group_means g)) groups in
  st ← for_each (place_group pvals alpha groups) groups (init_letters groups, []);
  mret st.1.

(** The loop invariant of [cld_letters].

    After the groups [done] have been processed: every letter of
    [letter_list] lies below the next one to be created, only letters of
    [letter_list] are held and only by processed groups, each processed
    group holds at least one, every group still has its entry, and two
    groups holding a common letter passed the test. *)
Definition cld_inv (pvals : gmap (GroupId * GroupId) float) (alpha : float)
    (groups done : list GroupId)
    (st : gmap GroupId pystr * list letter) : Prop :=
  (∀ L, L ∈ st.2 → L < ord_a + length st.2)%nat ∧
  (∀ h L, L ∈ letters_of st.1 h → L ∈ st.2 ∧ h ∈ done) ∧
  (∀ g, g ∈ done → g ∈ groups ∧ letters_of st.1 g ≠ []) ∧
  (∀ g, g ∈ groups → is_Some (st.1 !! g)) ∧
  (∀ g h L, g ≠ h → L ∈ letters_of st.1 g → L ∈ letters_of st.1 h →
     nonsig pvals alpha g h = Ok true ∨ nonsig pvals alpha h g = Ok true).

End cld.

(** ** Pairs of identifiers *)

Section pairs.
Context {GroupId : Type} `{Countable GroupId} `{PyFloat GroupId}.

(** [float] takes the two identifiers to two different numbers. *)
Definition float_apart (g h : GroupId) : Prop :=
  ∃ fg fh, py_float g = Some fg ∧ py_float h = Some fh ∧
           (flt fg fh = true ∨ flt fh fg = true).


End pairs.

(** ** [holm_adjust] *)

(** [np.argsort(pvals)]: the indices by ascending value, NaN last.  numpy
    leaves the order of equal values open; here they keep their input
    order. *)
Fixpoint insert_index (pvals : list float) (i : nat) (l : list nat) : list nat :=
  match l with
  | [] => [i]
  | j :: l' =>
      if np_lt (pvals !!! j) (pvals !!! i) then j :: insert_index pvals i l'
      else i :: j :: l'
  end.

Definition argsort (pvals : list float) : list nat :=
  foldr (insert_index pvals) [] (seq 0 (length pvals)).

(** [pvals[order]] *)
Definition take_at (pvals : list float) (order : list nat) : list float :=
  (λ i, pvals !!! i) <$> order.

(** [np.maximum.accumulate] *)
Fixpoint accumulate_from (acc : float) (l : list float) : list float :=
  match l with
  | [] => []
  | x :: l' => let acc' := np_maximum acc x in acc' :: accumulate_from acc' l'
  end.

Definition maximum_accumulate (l : list float) : list float :=
  match l with
  | [] => []
  | x :: l' => x :: accumulate_from x l'
  end.

(** [np.empty(m)]: [m] cells of no particular content. *)
Definition np_empty (m : nat) : list float := replicate m (Fin 0).

(** [out[order] = adjusted]: the assignments [out[order[i]] = adjusted[i]]
    one after the other. *)
Definition put_at (out : list float) (order : list nat) (vals : list float)
    : list float :=
  foldl (λ out iv, <[iv.1 := iv.2]> out) out (zip order vals).

Definition holm_adjust (pvals : list float) : list float :=
  let m := length pvals in
  let order := argsort pvals in
  let ranked := take_at pvals order in
  let adjusted := imap (λ i p, fmul (inject_Z (Z.of_nat m - Z.of_nat i)) p) ranked in
  let adjusted := maximum_accumulate adjusted in
  let adjusted := np_clip01 <$> adjusted in
  put_at (np_empty m) order adjusted.

(** *** The Holm step-down adjustment, as the specification words it

    Indices are sorted by ascending p-value; the i-th smallest p-value [p]
    gives the candidate [(m - i) * p]; the running maximum is taken over the
    sorted order; every value is clipped to [0, 1] and put back at the
    position its p-value had in the input. *)

Fixpoint running_max (cand : nat → float) (i : nat) : float :=
  match i with
  | O => cand O
  | S i' => np_maximum (running_max cand i') (cand (S i'))
  end.

(** [a] may come before [b] in an ascending arrangement of [pvals]. *)
Definition not_after (pvals : list float) (a b : nat) : Prop :=
  np_lt (pvals !!! b) (pvals !!! a) = false.

Definition ascending_order (pvals : list float) (order : list nat) : Prop :=
  order ≡ₚ seq 0 (length pvals) ∧
  ∀ i j a b, (i < j)%nat → order !! i = Some a → order !! j = Some b →
    np_lt (pvals !!! b) (pvals !!! a) = false.

Definition holm_step_down (pvals out : list float) : Prop :=
  length out = length pvals ∧
  ∃ order, ascending_order pvals order ∧
    ∀ i a, order !! i = Some a →
      out !! a = Some (np_clip01 (running_max
        (λ k, fmul (inject_Z (Z.of_nat (length pvals) - Z.of_nat k))
                (pvals !!! (order !!! k))) i)).

(** ** [dunn_posthoc] *)

(** [sum(1 for y in l if f(y))] *)
Definition count_if {A} (f : A → bool) (l : list A) : nat :=
  length (List.filter f l).

Definition Qsum (l : list Q) : Q := foldr Qplus 0 l.
Definition Zsum (l : list Z) : Z := foldr Z.add 0%Z l.

(** [scipy.stats.rankdata(x)]: ranks from 1, tied values share the mean of
    the ranks they cover. *)
Definition rankdata (x : list Q) : list Q :=
  (λ v, inject_Z (Z.of_nat (count_if (λ y, Qltb y v) x))
        + (inject_Z (Z.of_nat (count_if (λ y, Qeq_bool y v) x)) + 1) / 2) <$> x.

(** [np.unique(x, return_counts=True)]: the distinct values in ascending
    order and how often each occurs. *)
Fixpoint insert_unique (v : Q) (l : list Q) : list Q :=
  match l with
  | [] => [v]
  | y :: l' => if Qltb v y then v :: y :: l'
               else if Qeq_bool v y then y :: l'
               else y :: insert_unique v l'
  end.

Definition np_unique (x : list Q) : list Q := foldr insert_unique [] x.

Definition unique_counts (x : list Q) : list Z :=
  (λ v, Z.of_nat (count_if (λ y, Qeq_bool y v) x)) <$> np_unique x.

(** The result of an operation on numpy [int64] values: what is outside
    the range from -2^63 to 2^63 - 1 wraps around, without a warning. *)
Definition int64 (z : Z) : Z := ((z + 2 ^ 63) mod 2 ^ 64 - 2 ^ 63)%Z.

(** [np.sum(counts**3 - counts)]: [counts] is an [int64] array, so the
    cubes, the differences and the sum are taken in [int64]. *)
Definition tie_term (x : list Q) : Z :=
  foldr (λ t acc, int64 (t + acc)) 0%Z
    ((λ c, int64 (int64 (c ^ 3) - c)) <$> unique_counts x).

(** [1.0 - tie_term / (N**3 - N) if N > 1 else 1.0].  [N] is a Python
    integer, so [N**3 - N] does not wrap; the quotient is the quotient of
    the two numbers. *)
Definition tie_correction (x : list Q) : float :=
  let N := Z.of_nat (length x) in
  if (1 <? N)%Z
  then fsub (Fin 1) (fdiv (inject_Z (tie_term x)) (inject_Z (N ^ 3 - N)))
  else Fin 1.

(** *** The tie correction as the specification words it

    [C = 1 − (Σ(t_k³ − t_k)) / (N³ − N)], where [t_k] ranges over the
    multiplicities of each distinct value in the pooled data and [N] is
    the total count; [C = 1] when [N ≤ 1]. *)

(** [U] lists the distinct values of [x], each of them once. *)
Definition distinct_values (x U : list Q) : Prop :=
  NoDupA Qeq U ∧ ∀ v, InA Qeq v U ↔ InA Qeq v x.

(** How often the value [v] occurs in [x]. *)
Definition multiplicity (x : list Q) (v : Q) : Z :=
  Z.of_nat (count_if (λ y, Qeq_bool y v) x).

Definition spec_tie_sum (x U : list Q) : Z :=
  Zsum ((λ v, multiplicity x v ^ 3 - multiplicity x v)%Z <$> U).

Definition spec_tie_correction (x U : list Q) : Q :=
  let N := Z.of_nat (length x) in
  if (N <=? 1)%Z then 1
  else 1 - inject_Z (spec_tie_sum x U) / inject_Z (N ^ 3 - N).

(** [str.lower] on the ASCII letters. *)
Definition lower_ascii (c : Ascii.ascii) : Ascii.ascii :=
  let n := Ascii.nat_of_ascii c in
  if bool_decide (65 ≤ n ∧ n ≤ 90)%nat then Ascii.ascii_of_nat (n + 32) else c.

Fixpoint py_lower (s : string) : string :=
  match s with
  | EmptyString => EmptyString
  | String c s' => String (lower_ascii c) (py_lower s')
  end.

(** The pairs [(keys[i], keys[j])], [i < j], in the order of the two
    nested [range] loops. *)
Fixpoint index_pairs {A} (keys : list A) : list (A * A) :=
  match keys with
  | [] => []
  | g1 :: rest => ((λ g2, (g1, g2)) <$> rest) ++ index_pairs rest
  end.

(** Whether [p_adjust.lower()] selects one of the two adjustments. *)
Definition supported (p_adjust : string) : bool :=
  String.eqb (py_lower p_adjust) "holm"
  || String.eqb (py_lower p_adjust) "bonferroni".

(** The identifiers of the groups that have observations. *)
Definition nonempty_keys {K} (groups : list (K * list Q)) : list K :=
  (List.filter (λ gv, negb (Nat.eqb (length gv.2) 0)) groups).*1.

(** No two entries of [x] are equal as numbers. *)
Definition no_ties (x : list Q) : Prop :=
  ∀ i j a b, i ≠ j → x !! i = Some a → x !! j = Some b → ¬ a == b.

Section dunn.
Context {GroupId : Type} `{Countable GroupId} `{PyFloat GroupId}.

(** [np.sqrt] and [scipy.stats.norm.sf] on finite arguments: the two
    library functions the test statistic goes through. *)
Variables (np_sqrt norm_sf : Q → Q).

Definition f_sqrt (x : float) : float :=
  match x with
  | NaN | NInf => NaN
  | PInf => PInf
  | Fin q => if Qltb q 0 then NaN else Fin (np_sqrt q)
  end.

Definition f_sf (x : float) : float :=
  match x with
  | NaN => NaN
  | NInf => Fin 1
  | PInf => Fin 0
  | Fin q => Fin (norm_sf q)
  end.

(** [np.concatenate(values)] *)
Definition concatenate (values : list (list Q)) : result (list Q) :=
  match values with
  | [] => Raise ValueError_concat
  | _ => Ok (concat values)
  end.

(** The list [labels] after the flattening loop. *)
Definition labels_of (groups : list (GroupId * list Q)) : list GroupId :=
  concat ((λ gv, replicate (length gv.2) gv.1) <$> groups).

(** [np.sum(labels == g)] *)
Definition group_size (labels : list GroupId) (g : GroupId) : nat :=
  count_if (λ l, bool_decide (l = g)) labels.

(** [np.sum(r[labels == g])] *)
Definition rank_sum (r : list Q) (labels : list GroupId) (g : GroupId) : Q :=
  Qsum (List.filter (λ rl, bool_decide (rl.2 = g)) (zip r labels)).*1.

(** The raw p-value of one pair that passed the size check. *)
Definition raw_p_of (var : float) (r : list Q) (labels : list GroupId)
    (pair : GroupId * GroupId) : float :=
  let n1 := inject_Z (Z.of_nat (group_size labels pair.1)) in
  let n2 := inject_Z (Z.of_nat (group_size labels pair.2)) in
  let mean_r1 := rank_sum r labels pair.1 / n1 in
  let mean_r2 := rank_sum r labels pair.2 / n2 in
  let z := fdiv_by (mean_r1 - mean_r2) (f_sqrt (fmul (1 / n1 + 1 / n2) var)) in
  fmul 2 (f_sf (fabs z)).

(** The branch on [p_adjust.lower()]. *)
Definition adjust (p_adjust : string) (raw_p : list float)
    : result (list float) :=
  if String.eqb (py_lower p_adjust) "holm" then mret (holm_adjust raw_p)
  else if String.eqb (py_lower p_adjust) "bonferroni"
  then mret ((λ p, np_clip01 (fmul (inject_Z (Z.of_nat (length raw_p))) p))
              <$> raw_p)
  else Raise ValueError_p_adjust.

(** One round of the loop that fills [out]. *)
Definition store_pair (kp : (GroupId * GroupId) * float)
    (out : gmap (GroupId * GroupId) float)
    : result (gmap (GroupId * GroupId) float) :=
  key ← pair_key kp.1.1 kp.1.2;
  mret (<[key := kp.2]> out).

Definition dunn_posthoc (groups : list (GroupId * list Q)) (p_adjust : string)
    : result (gmap (GroupId * GroupId) float) :=
  let group_keys := dict_keys groups in
  let values := groups.*2 in
  let labels := labels_of groups in
  x ← concatenate values;
  let r := rankdata x in
  let N := inject_Z (Z.of_nat (length x)) in
  let var := fmul (N * (N + 1) / 12) (tie_correction x) in
  let pairs :=
    List.filter (λ pr, negb (Nat.eqb (group_size labels pr.1) 0
                             || Nat.eqb (group_size labels pr.2) 0))
      (index_pairs group_keys) in
  let raw_p := raw_p_of var r labels <$> pairs in
  adj_p ← adjust p_adjust raw_p;
  for_each store_pair (zip pairs adj_p) ∅.

End dunn.

(** ** A concrete identifier type: integers and strings *)

Inductive pykey : Type :=
| KNum (z : Z)
| KStr (s : string).

#[global] Instance pykey_eq_dec : EqDecision pykey.
Proof. solve_decision. Defined.

#[global] Instance pykey_countable : Countable pykey :=
  inj_countable'
    (λ k, match k with KNum z => inl z | KStr s => inr s end)
    (λ x, match x with inl z => KNum z | inr s => KStr s end)
    (λ k, match k with KNum _ => eq_refl | KStr _ => eq_refl end).

Definition digit_of (c : Ascii.ascii) : option Z :=
  let n := Z.of_nat (Ascii.nat_of_ascii c) in
  if bool_decide (48 ≤ n ∧ n ≤ 57)%Z then Some (n - 48)%Z else None.

Fixpoint digits_value (acc : Z) (s : string) : option Z :=
  match s with
  | EmptyString => Some acc
  | String c s' => d ← digit_of c; digits_value (10 * acc + d)%Z s'
  end.

(** [float(s)] for a string made of decimal digits; any other string is
    taken to raise, which is right for a string of letters.  (Python also
    reads signs, fractions, exponents and surrounding blanks.)  An integer
    is converted exactly, as Python does up to 2^53.  The instance serves
    the examples, on inputs where it agrees with Python; the general
    statements are about any [py_float]. *)
Definition float_of_string (s : string) : option float :=
  match s with
  | EmptyString => None
  | _ => z ← digits_value 0 s; Some (Fin (inject_Z z))
  end.

#[global] Instance pykey_float : PyFloat pykey := λ k,
  match k with
  | KNum z => Some (Fin (inject_Z z))
  | KStr s => float_of_string s
  end.

(** Two rational functions to run [dunn_posthoc] on examples: the harmonic
    mean of 1 and [q], which is 0 at 0 and positive with [q], and a
    decreasing function with value 1/2 at 0.  The general statements below
    are about arbitrary [np_sqrt] and [norm_sf]. *)
Definition sample_sqrt (q : Q) : Q := 2 * q / (1 + q).
Definition sample_sf (z : Q) : Q := 1 / (2 * ((1 + z) * (1 + z))).

(** The string whose code points are given, for display. *)
Definition str (s : string) : pystr :=
  (λ c, Ascii.nat_of_ascii c) <$> String.list_ascii_of_string s.

(** ** [compute_letters_per_enzyme] *)

(** [np.mean(v)] of an array with at least one entry. *)
Definition np_mean (v : list Q) : Q :=
  Qsum v / inject_Z (Z.of_nat (length v)).

(** The keys of the dict [groups] are the floats [float(t)].  A finite one
    is a rational number in lowest terms, so that two keys are the same
    dict key exactly when they are the same number, and [float] gives the
    number back. *)
#[global] Instance treatment_float : PyFloat Qc := λ t, Some (Fin (this t)).

(** [{t: v for t, v in groups.items() if len(v)}] *)
Definition drop_empty {K} (groups : list (K * list Q)) : list (K * list Q) :=
  List.filter (λ gv, negb (Nat.eqb (length gv.2) 0)) groups.

(** The dict [means] restricted to the groups that are kept: the mean of a
    group without observations, NaN, goes away with the group. *)
Definition means_of {K} (groups : list (K * list Q)) : list (K * Q) :=
  (λ gv, (gv.1, np_mean gv.2)) <$> groups.

Section compute_letters.
Context {Enzyme : Type}.
Variables (np_sqrt norm_sf : Q → Q).

(** The body of the loop over the enzymes, from the finished dict [groups]
    on.  The statement that builds the dict, with its calls of [float(t)]
    and its data frame accesses, which may raise, is not part of it: a
    round is given its dict.  The rows come in the order of
    [letters.items()], the order in which [cld_letters] made its keys. *)
Definition enzyme_letters (alpha : float) (adjust : string)
    (part : Enzyme * list (Qc * list Q))
    (rows : list (Enzyme * Qc * pystr))
    : result (list (Enzyme * Qc * pystr)) :=
  let enz := part.1 in
  let groups := part.2 in
  if (count_if (λ gv, negb (Nat.eqb (length gv.2) 0)) groups <? 2)%nat
  then mret rows
  else
    let groups := drop_empty groups in
    let means := means_of groups in
    pvals ← dunn_posthoc np_sqrt norm_sf groups adjust;
    letters ← cld_letters means pvals alpha;
    let items :=
      (λ t, (enz, t, letters_of letters t))
        <$> sorted_desc (λ g, default 0 (dict_get means g)) (dict_keys means) in
    mret (rows ++ items).

(** The list [rows] at the end of the loop over [df.groupby("Enzyme")],
    given each enzyme with its finished dict [groups]. *)
Definition compute_letters_per_enzyme (alpha : float) (adjust : string)
    (parts : list (Enzyme * list (Qc * list Q)))
    : result (list (Enzyme * Qc * pystr)) :=
  for_each (enzyme_letters alpha adjust) parts [].

End compute_letters.

(** ** Vocabulary of the further properties *)

(** IEEE [a <= b]. *)
Definition fle (a b : float) : bool := fge b a.

(** A float in the interval [0, 1]. *)
Definition in01 (x : float) : Prop :=
  match x with
  | Fin q => 0 <= q ∧ q <= 1
  | _ => False
  end.

(** The value [adjusted[k]] right after the [enumerate] loop of
    [holm_adjust]: [(m - k) * ranked[k]]. *)
Definition holm_candidate (pvals : list float) (k : nat) : float :=
  fmul (inject_Z (Z.of_nat (length pvals) - Z.of_nat k))
       (pvals !!! (argsort pvals !!! k)).

(** The first [n] letters from "a" on, in order. *)
Definition first_letters (n : nat) : list letter :=
  (λ i, chr (ord_a + i)) <$> seq 0 n.

(** ** Sample inputs *)

(** Three groups with p(A,B) = 0.9, p(B,C) = 0.9 and p(A,C) = 0.01. *)
Definition gA : pykey := KNum 1.
Definition gB : pykey := KNum 2.
Definition gC : pykey := KNum 3.

Definition abc_pvals : gmap (pykey * pykey) float :=
  {[ (gA, gB) := Fin (9#10); (gB, gC) := Fin (9#10); (gA, gC) := Fin (1#100) ]}.

Definition abc_means : list (pykey * Q) := [(gA, 3); (gB, 2); (gC, 1)].



Definition named_means : list (pykey * Q) := [(KStr "A", 3); (KStr "B", 2)].

Definition twin_groups : list (pykey * list Q) :=
  [(KNum 1, [1; 2; 3]); (KNum 2, [1; 2; 3])].

Definition named_twin_groups : list (pykey * list Q) :=
  [(KStr "A", [1; 2; 3]); (KStr "B", [1; 2; 3])].

Definition four_groups : list (pykey * list Q) :=
  [(KNum 10, [1; 4]); (KNum 5, [2; 3]); (KNum 7, []); (KNum 3, [9])].

Definition constant_twin_groups : list (pykey * list Q) :=
  [(KNum 1, [1; 1]); (KNum 2, [1; 1])].

Definition one_full_group : list (pykey * list Q) :=
  [(KNum 1, [1; 2]); (KNum 2, [])].

(** The treatments 0, 0.5 and 10 of one enzyme, the second without
    observations. *)
Definition sample_groups : list (Qc * list Q) :=
  [(Q2Qc 0, [1; 2; 3]); (Q2Qc (1#2), []); (Q2Qc 10, [7; 8; 9])].

(** Two enzymes: one with two treatments that have observations and one
    without, the other with a single treatment that has observations. *)
Definition sample_parts : list (string * list (Qc * list Q)) :=
  [("E1", [(Q2Qc 0, [1; 2; 3]); (Q2Qc (1#2), []); (Q2Qc 10, [7; 8; 9])]);
   ("E2", [(Q2Qc 0, [4; 5]); (Q2Qc 10, [])])]%string.

Definition sample_rows : list (string * Qc * pystr) :=
  [("E1", Q2Qc 10, [97]); ("E1", Q2Qc 0, [97])]%string%nat.

(** Two identifiers of the same float value, the number 1 and the string
    "1", with a p-value below 0.05 stored under the pair (1, "1"). *)
Definition tied_means : list (pykey * Q) := [(KNum 1, 2); (KStr "1", 1)].

Definition tied_pvals : gmap (pykey * pykey) float :=
  {[ (KNum 1, KStr "1") := Fin (1#100) ]}.



(** * Properties *)

(** ** The error monad *)

Lemma bind_Ok {A B} (m : result A) (f : A → result B) (b : B) :
  m ≫= f = Ok b ↔ ∃ a, m = Ok a ∧ f a = Ok b.
Proof.
  destruct m as [a|e]; simpl.
  - split; [eauto|]. by intros (a' & [= ->] & ?).
  - split; [done|]. by intros (a' & ? & ?).
Qed.

Lemma for_each_app {A S} (body : A → S → result S) (l1 l2 : list A) (st : S) :
  for_each body (l1 ++ l2) st = for_each body l1 st ≫= for_each body l2.
Proof.
  revert st. induction l1 as [|x l1 IH]; intros st; simpl; [done|].
  destruct (body x st) as [st'|e]; simpl; [apply IH|done].
Qed.

(** ** Sorting by mean *)

Lemma insert_desc_perm {A} (key : A → Q) (x : A) (l : list A) :
  insert_desc key x l ≡ₚ x :: l.
Proof.
  induction l as [|y l IH]; simpl; [done|].
  destruct (Qltb (key x) (key y)); [|done].
  rewrite IH. apply Permutation_swap.
Qed.

Lemma sorted_desc_perm {A} (key : A → Q) (l : list A) :
  sorted_desc key l ≡ₚ l.
Proof.
  induction l as [|x l IH]; simpl; [done|].
  by rewrite insert_desc_perm, IH.
Qed.

Section cld_properties.
Context {GroupId : Type} `{Countable GroupId} `{PyFloat GroupId}.
Implicit Types (pvals : gmap (GroupId * GroupId) float) (alpha : float).
Implicit Types (letters : gmap GroupId pystr) (groups : list GroupId).
Implicit Types (g h : GroupId) (L : letter).

(** *** The significance test *)

Lemma pair_key_total g h :
  is_Some (py_float g) → is_Some (py_float h) → ∃ key, pair_key g h = Ok key.
Proof. intros [fg Hg] [fh Hh]. unfold pair_key. rewrite Hg, Hh. simpl. eauto. Qed.

Lemma nonsig_total pvals alpha g h :
  is_Some (py_float g) → is_Some (py_float h) →
  ∃ b, nonsig pvals alpha g h = Ok b.
Proof.
  intros Hg Hh. destruct (pair_key_total g h Hg Hh) as [key Hkey].
  unfold nonsig. rewrite Hkey. simpl. eauto.
Qed.

Lemma all_nonsig_true pvals alpha g members :
  all_nonsig pvals alpha g members = Ok true ↔
  Forall (λ h, nonsig pvals alpha g h = Ok true) members.
Proof.
  induction members as [|h ms IH]; simpl.
  - split; [constructor|done].
  - rewrite Forall_cons, <- IH. destruct (nonsig pvals alpha g h) as [[]|e]; simpl;
      split; try done; try tauto; by intros [? ?].
Qed.

Lemma all_nonsig_total pvals alpha g members :
  is_Some (py_float g) → Forall (λ h, is_Some (py_float h)) members →
  ∃ b, all_nonsig pvals alpha g members = Ok b.
Proof.
  intros Hg. induction 1 as [|h ms Hh _ IH]; simpl; [eauto|].
  destruct (nonsig_total pvals alpha g h Hg Hh) as [[] ->]; simpl; eauto.
Qed.

(** *** Reading and extending letter strings *)

Lemma letters_of_add_letter letters g L :
  letters_of (add_letter letters g L) g = letters_of letters g ++ [L].
Proof. unfold letters_of at 1, add_letter. by rewrite lookup_insert_eq. Qed.

Lemma letters_of_add_letter_ne letters g h L :
  h ≠ g → letters_of (add_letter letters g L) h = letters_of letters h.
Proof. intros ?. unfold letters_of, add_letter. by rewrite lookup_insert_ne. Qed.

Lemma has_letter_true letters L h :
  has_letter letters L h = true ↔ L ∈ letters_of letters h.
Proof. unfold has_letter. apply bool_decide_eq_true. Qed.

(** What one group's pass over [letter_list] does: it leaves every other
    group alone and appends to [letters[g]] those letters all of whose
    holders passed the test against [g]. *)
Lemma join_letters_spec pvals alpha groups g letter_list letters placed
    letters' placed' :
  join_letters pvals alpha groups g letter_list letters placed
    = Ok (letters', placed') →
  ∃ joined,
    letters_of letters' g = letters_of letters g ++ joined ∧
    (∀ h, h ≠ g → letters' !! h = letters !! h) ∧
    (is_Some (letters !! g) → is_Some (letters' !! g)) ∧
    joined ⊆ letter_list ∧
    (placed' = true ↔ placed = true ∨ joined ≠ []) ∧
    (∀ L h, L ∈ joined → h ∈ groups → h ≠ g →
       L ∈ letters_of letters h → nonsig pvals alpha g h = Ok true).
Proof.
  revert letters placed.
  induction letter_list as [|L rest IH]; intros letters placed; simpl.
  - intros [= <- <-]. exists []. rewrite app_nil_r.
    repeat split; try done; try tauto. by intros L h ?%elem_of_nil.
  - intros (ok & Hall & Hrest)%bind_Ok. destruct ok.
    + apply IH in Hrest as (joined & Hg & Hoth & Hdom & Hsub & Hpl & Hns).
      exists (L :: joined).
      rewrite letters_of_add_letter, <- app_assoc in Hg.
      apply all_nonsig_true in Hall. rewrite Forall_forall in Hall.
      split; [done|]. split.
      { intros h Hh. rewrite Hoth by done. unfold add_letter.
        by rewrite lookup_insert_ne. }
      split.
      { intros _. apply Hdom. unfold add_letter. rewrite lookup_insert_eq. eauto. }
      split.
      { intros x [-> |Hx]%elem_of_cons; [left|right; by apply Hsub]. }
      split.
      { split; [intros _; by right|intros _; apply Hpl; by left]. }
      intros L' h [-> |HL']%elem_of_cons Hh Hne Hin.
      * apply Hall, list_elem_of_filter. by rewrite has_letter_true.
      * apply (Hns L' h); try done. by rewrite letters_of_add_letter_ne.
    + apply IH in Hrest as (joined & Hg & Hoth & Hdom & Hsub & Hpl & Hns).
      exists joined. repeat split; try done; try tauto.
      intros x Hx. right. by apply Hsub.
Qed.

Lemma join_letters_total pvals alpha groups g letter_list letters placed :
  is_Some (py_float g) → Forall (λ h, is_Some (py_float h)) groups →
  ∃ res, join_letters pvals alpha groups g letter_list letters placed = Ok res.
Proof.
  intros Hg Hgroups. revert letters placed.
  induction letter_list as [|L rest IH]; intros letters placed; simpl; [eauto|].
  destruct (all_nonsig_total pvals alpha g
    (filter (λ h, has_letter letters L h = true) groups)) as [b ->]; [done| |].
  { rewrite Forall_forall in *. intros h [_ ?]%list_elem_of_filter. auto. }
  simpl. destruct b; apply IH.
Qed.

(** The clean-up loop finishes without raising when every holder of a
    letter of [g] has already passed the test against [g]; it has nothing
    to return. *)
Lemma cleanup_pass_ok pvals alpha groups g letters ls :
  (∀ L h, L ∈ ls → h ∈ groups → h ≠ g → L ∈ letters_of letters h →
     nonsig pvals alpha g h = Ok true) →
  cleanup_pass pvals alpha groups g letters ls = Ok tt.
Proof.
  induction ls as [|L rest IH]; intros Hns; simpl; [done|].
  rewrite IH; [|intros L' h ?; apply Hns; by right].
  assert (all_nonsig pvals alpha g
    (filter (λ h, h ≠ g ∧ has_letter letters L h = true) groups) = Ok true)
    as Hall.
  { apply all_nonsig_true, Forall_forall.
    intros h [[Hne Hl] Hin]%list_elem_of_filter.
    apply (Hns L h); [by left|done|done|by apply has_letter_true]. }
  destruct (filter _ groups) as [|h0 ms]; [done|]. by rewrite Hall.
Qed.

Lemma init_letters_lookup groups g :
  init_letters groups !! g = if decide (g ∈ groups) then Some [] else None.
Proof.
  induction groups as [|x l IH].
  - unfold init_letters. simpl. rewrite lookup_empty.
    destruct (decide (g ∈ [])) as [?%elem_of_nil|]; done.
  - change (init_letters (x :: l)) with (<[x := []]> (init_letters l)).
    destruct (decide (x = g)) as [-> |Hne].
    + rewrite lookup_insert_eq. destruct (decide (g ∈ g :: l)) as [|Hn]; [done|].
      destruct Hn. by left.
    + rewrite lookup_insert_ne by done. rewrite IH.
      destruct (decide (g ∈ l)), (decide (g ∈ x :: l)) as [Hi|Hn]; try done.
      * destruct Hn. by right.
      * apply elem_of_cons in Hi as [-> |?]; done.
Qed.

Lemma cld_inv_init pvals alpha groups :
  cld_inv pvals alpha groups [] (init_letters groups, []).
Proof.
  assert (∀ h, letters_of (init_letters groups) h = []) as Hnil.
  { intros h. unfold letters_of. rewrite init_letters_lookup.
    by destruct (decide _). }
  unfold cld_inv; simpl. split; [by intros L ?%elem_of_nil|].
  split; [intros h L; rewrite Hnil; by intros ?%elem_of_nil|].
  split; [by intros g ?%elem_of_nil|].
  split.
  - intros g Hg. rewrite init_letters_lookup. destruct (decide (g ∈ groups)); [eauto|done].
  - intros g h L _. rewrite Hnil. by intros ?%elem_of_nil.
Qed.

(** The assignment for a group [g] that holds no letter yet, in a state
    where every letter in use is in [letter_list]. *)
Lemma place_group_spec pvals alpha groups g letters ll st' :
  letters_of letters g = [] →
  (∀ L, L ∈ ll → L < ord_a + length ll)%nat →
  (∀ h L, L ∈ letters_of letters h → L ∈ ll) →
  place_group pvals alpha groups g (letters, ll) = Ok st' →
  letters_of st'.1 g ≠ [] ∧
  (∀ h, h ≠ g → letters_of st'.1 h = letters_of letters h) ∧
  (∀ h, is_Some (letters !! h) → is_Some (st'.1 !! h)) ∧
  (∀ L, L ∈ letters_of st'.1 g → L ∈ st'.2) ∧
  (∀ L, L ∈ ll → L ∈ st'.2) ∧
  (∀ L, L ∈ st'.2 → L < ord_a + length st'.2)%nat ∧
  (∀ L h, L ∈ letters_of st'.1 g → h ∈ groups → h ≠ g →
     L ∈ letters_of letters h → nonsig pvals alpha g h = Ok true).
Proof.
  intros Hg0 Hnum Hheld. unfold place_group; simpl.
  intros ([letters1 placed] & Hjoin & Hplace)%bind_Ok.
  apply join_letters_spec in Hjoin
    as (joined & Hg & Hoth & Hdg & Hsub & Hpl & Hns).
  rewrite Hg0 in Hg; simpl in Hg.
  assert (∀ h, h ≠ g → letters_of letters1 h = letters_of letters h) as Hoth'.
  { intros h ?. unfold letters_of. by rewrite Hoth. }
  assert (∀ h, is_Some (letters !! h) → is_Some (letters1 !! h)) as Hdom.
  { intros h ?. destruct (decide (h = g)) as [-> |?]; [by apply Hdg|].
    by rewrite Hoth. }
  destruct placed.
  - injection Hplace as <-. simpl.
    assert (joined ≠ []) as Hj by (destruct Hpl as [[?|?] _]; done).
    rewrite Hg. repeat split; try done; intros L HL; by apply Hsub.
  - assert (joined = []) as ->.
    { destruct joined as [|x j]; [done|]. destruct Hpl as [_ Hp].
      discriminate Hp. by right. }
    injection Hplace as <-. simpl.
    rewrite letters_of_add_letter, Hg. simpl.
    split; [done|]. split.
    { intros h ?. rewrite letters_of_add_letter_ne by done. by apply Hoth'. }
    split.
    { intros h Hh. unfold add_letter. destruct (decide (h = g)) as [-> |?].
      - rewrite lookup_insert_eq. eauto.
      - rewrite lookup_insert_ne by done. by apply Hdom. }
    split.
    { intros L ->%list_elem_of_singleton. apply elem_of_app. right. by left. }
    split.
    { intros L ?. apply elem_of_app. by left. }
    split.
    { intros L [HL| ->%list_elem_of_singleton]%elem_of_app.
      - apply Hnum in HL. rewrite length_app. unfold ord_a in *. simpl in *. lia.
      - rewrite length_app. unfold chr, ord_a. simpl. lia. }
    intros L h ->%list_elem_of_singleton _ _ Hh.
    apply Hheld, Hnum in Hh. unfold chr, ord_a in Hh. simpl in Hh. lia.
Qed.

Lemma place_group_total pvals alpha groups g st :
  is_Some (py_float g) → Forall (λ h, is_Some (py_float h)) groups →
  ∃ st', place_group pvals alpha groups g st = Ok st'.
Proof.
  intros Hg Hgroups. unfold place_group.
  destruct (join_letters_total pvals alpha groups g st.2 st.1 false Hg Hgroups)
    as [[letters placed] ->].
  simpl. destruct placed; eauto.
Qed.

(** One group: the assignment keeps the invariant, and the clean-up loop
    that follows it returns normally. *)
Lemma place_group_inv pvals alpha groups done g st st' :
  cld_inv pvals alpha groups done st →
  g ∉ done → g ∈ groups →
  place_group pvals alpha groups g st = Ok st' →
  cld_inv pvals alpha groups (done ++ [g]) st' ∧
  cleanup_pass pvals alpha groups g st'.1 (letters_of st'.1 g) = Ok tt.
Proof.
  destruct st as [letters ll].
  intros (Hnum & Hheld & Hne & Hdom & Hpair) Hfresh Hin Hplace; simpl in *.
  assert (letters_of letters g = []) as Hg0.
  { destruct (letters_of letters g) as [|L ?] eqn:E; [done|].
    destruct (Hheld g L) as [_ ?]; [rewrite E; by left|done]. }
  apply place_group_spec in Hplace
    as (Hg & Hoth & Hdom' & Hgl & Hll & Hnum' & Hns);
    [|done|done|intros h L HL; by apply (Hheld h L)].
  assert (∀ L h, L ∈ letters_of st'.1 g → h ≠ g →
            L ∈ letters_of st'.1 h → nonsig pvals alpha g h = Ok true) as Hns'.
  { intros L h HL Hhg Hh. rewrite Hoth in Hh by done.
    apply (Hns L h); try done. by apply Hne, (Hheld h L). }
  split; [|apply cleanup_pass_ok; intros L h ? _ ? ?; by apply (Hns' L h)].
  unfold cld_inv. split; [done|]. split.
  { intros h L HL. destruct (decide (h = g)) as [-> |?].
    - split; [by apply Hgl|]. apply elem_of_app. right. by left.
    - rewrite Hoth in HL by done. destruct (Hheld h L HL).
      split; [by apply Hll|]. apply elem_of_app. by left. }
  split.
  { intros g' [Hg'| ->%list_elem_of_singleton]%elem_of_app; [|done].
    assert (g' ≠ g) by (intros ->; done). rewrite Hoth by done. by apply Hne. }
  split; [intros g' ?; by apply Hdom', Hdom|].
  intros g' h L Hgh Hg' Hh.
  destruct (decide (g' = g)) as [-> |Hg'g], (decide (h = g)) as [-> |Hhg];
    try done.
  - left. by apply (Hns' L h).
  - right. by apply (Hns' L g').
  - rewrite !Hoth in * by done. by apply (Hpair g' h L).
Qed.

(** The loop over the groups still to do. *)
Lemma cld_loop_inv pvals alpha groups todo done st :
  cld_inv pvals alpha groups done st →
  NoDup (done ++ todo) → (∀ g, g ∈ todo → g ∈ groups) →
  for_each (cld_step pvals alpha groups) todo st
    = for_each (place_group pvals alpha groups) todo st ∧
  ∀ st', for_each (place_group pvals alpha groups) todo st = Ok st' →
         cld_inv pvals alpha groups (done ++ todo) st'.
Proof.
  revert done st. induction todo as [|g todo IH]; intros done st Hinv Hnd Hsub.
  - simpl. split; [done|]. intros st' [= <-]. by rewrite app_nil_r.
  - cbn [for_each].
    change (cld_step pvals alpha groups g st) with
      (place_group pvals alpha groups g st ≫= λ st',
         cleanup_pass pvals alpha groups g st'.1 (letters_of st'.1 g) ≫= λ _,
         mret st').
    assert (g ∉ done) as Hfresh.
    { apply NoDup_app in Hnd as (_ & Hdis & _). intros ?.
      apply (Hdis g); [done|by left]. }
    destruct (place_group pvals alpha groups g st) as [st1|e] eqn:Hplace;
      simpl; [|split; [done|by intros st' [=]]].
    destruct (place_group_inv pvals alpha groups done g st st1)
      as [Hinv1 Hclean]; [done|done|apply Hsub; by left|done|].
    rewrite Hclean. simpl.
    replace (done ++ g :: todo) with ((done ++ [g]) ++ todo) in *
      by (by rewrite <- app_assoc).
    apply IH; [done|done|]. intros g' ?. apply Hsub. by right.
Qed.

Lemma for_each_place_total pvals alpha groups todo st :
  Forall (λ h, is_Some (py_float h)) groups → (∀ g, g ∈ todo → g ∈ groups) →
  ∃ st', for_each (place_group pvals alpha groups) todo st = Ok st'.
Proof.
  intros Hgroups. revert st. induction todo as [|g todo IH]; intros st Hsub;
    simpl; [eauto|].
  destruct (place_group_total pvals alpha groups g st) as [st1 ->];
    [|done|].
  { rewrite Forall_forall in Hgroups. apply Hgroups, Hsub. by left. }
  simpl. apply IH. intros g' ?. apply Hsub. by right.
Qed.

(** *** The whole function *)

Lemma cld_groups_NoDup (group_means : list (GroupId * Q)) :
  NoDup (dict_keys group_means) →
  NoDup (sorted_desc (λ g, default 0 (dict_get group_means g))
           (dict_keys group_means)).
Proof. intros Hnd. by rewrite sorted_desc_perm. Qed.

Lemma cld_letters_run (group_means : list (GroupId * Q)) pvals alpha :
  NoDup (dict_keys group_means) →
  cld_letters group_means pvals alpha
    = cld_letters_greedy group_means pvals alpha ∧
  ∀ letters, cld_letters_greedy group_means pvals alpha = Ok letters →
    ∃ ll, cld_inv pvals alpha
            (sorted_desc (λ g, default 0 (dict_get group_means g))
               (dict_keys group_means))
            (sorted_desc (λ g, default 0 (dict_get group_means g))
               (dict_keys group_means))
            (letters, ll).
Proof.
  intros Hnd. unfold cld_letters, cld_letters_greedy.
  set (groups := sorted_desc _ _).
  destruct (cld_loop_inv pvals alpha groups groups [] (init_letters groups, []))
    as [Heq Hinv].
  { apply cld_inv_init. }
  { by apply cld_groups_NoDup. }
  { done. }
  rewrite Heq. split; [done|].
  intros letters ([letters' ll] & Hrun & [= <-])%bind_Ok.
  exists ll. by apply Hinv.
Qed.

Lemma cld_letters_total (group_means : list (GroupId * Q)) pvals alpha :
  Forall (λ g, is_Some (py_float g)) (dict_keys group_means) →
  ∃ letters, cld_letters_greedy group_means pvals alpha = Ok letters.
Proof.
  intros Hnum. unfold cld_letters_greedy.
  set (groups := sorted_desc _ _).
  destruct (for_each_place_total pvals alpha groups groups
              (init_letters groups, [])) as [st Hst]; [|done|].
  { unfold groups. by rewrite sorted_desc_perm. }
  rewrite Hst. simpl. eauto.
Qed.

(** C10.  The clean-up loop at the end of each iteration changes nothing:
    [cld_letters] gives the same outcome, mapping or exception, as the
    greedy assignment without that loop. *)
Theorem cld_letters_cleanup_noop (group_means : list (GroupId * Q)) pvals alpha :
  NoDup (dict_keys group_means) →
  cld_letters group_means pvals alpha
    = cld_letters_greedy group_means pvals alpha.
Proof. intros Hnd. by apply cld_letters_run. Qed.

(** C9, as the code has it.  When every identifier converts with [float],
    [cld_letters] returns a mapping in which every key of [group_means] has
    a non-empty letter string. *)
Theorem cld_letters_covers_keys (group_means : list (GroupId * Q)) pvals alpha :
  NoDup (dict_keys group_means) →
  Forall (λ g, is_Some (py_float g)) (dict_keys group_means) →
  ∃ letters, cld_letters group_means pvals alpha = Ok letters ∧
    ∀ g, g ∈ dict_keys group_means →
      ∃ s, letters !! g = Some s ∧ s ≠ [].
Proof.
  intros Hnd Hnum. destruct (cld_letters_run group_means pvals alpha Hnd)
    as [Heq Hinv].
  destruct (cld_letters_total group_means pvals alpha Hnum) as [letters Hrun].
  exists letters. rewrite Heq. split; [done|].
  destruct (Hinv letters Hrun) as (ll & _ & _ & Hne & Hdom & _).
  intros g Hg.
  assert (g ∈ sorted_desc (λ g, default 0 (dict_get group_means g))
                (dict_keys group_means)) as Hg'
    by (by rewrite sorted_desc_perm).
  destruct (Hdom g Hg') as [s Hs]. exists s. split; [done|].
  destruct (Hne g Hg') as [_ Hnonempty]. unfold letters_of in Hnonempty.
  simpl in *. by rewrite Hs in Hnonempty.
Qed.

End cld_properties.

(** ** Floats *)

Lemma Qltb_lt (a b : Q) : Qltb a b = true ↔ a < b.
Proof.
  unfold Qltb. rewrite negb_true_iff, <- not_true_iff_false, Qle_bool_iff.
  split; [apply Qnot_le_lt|apply Qlt_not_le].
Qed.

Lemma Qltb_ge (a b : Q) : Qltb a b = false ↔ b <= a.
Proof.
  unfold Qltb. rewrite negb_false_iff, Qle_bool_iff. done.
Qed.

Lemma Qltb_asym (a b : Q) : Qltb a b = true → Qltb b a = false.
Proof. rewrite Qltb_lt, Qltb_ge. apply Qlt_le_weak. Qed.

Lemma Qltb_cotrans (a b c : Q) :
  Qltb a c = true → Qltb a b = true ∨ Qltb b c = true.
Proof.
  rewrite !Qltb_lt. intros Hac. destruct (Qlt_le_dec a b) as [?|Hba]; [by left|].
  right. by apply Qle_lt_trans with a.
Qed.

(** numpy's sorting order is a strict weak order. *)
Lemma np_lt_asym (a b : float) : np_lt a b = true → np_lt b a = false.
Proof. destruct a, b; simpl; try done. apply Qltb_asym. Qed.

Lemma np_lt_cotrans (a b c : float) :
  np_lt a c = true → np_lt a b = true ∨ np_lt b c = true.
Proof.
  destruct a, b, c; simpl; try done; try (by left); try (by right).
  apply Qltb_cotrans.
Qed.

(** ** [holm_adjust] *)

Section holm_properties.
Implicit Types (pvals out vals : list float) (order : list nat).

(** *** Sorting the indices *)

Lemma not_after_trans pvals a b c :
  not_after pvals a b → not_after pvals b c → not_after pvals a c.
Proof.
  unfold not_after. intros Hab Hbc.
  destruct (np_lt (pvals !!! c) (pvals !!! a)) eqn:Hca; [|done].
  destruct (np_lt_cotrans _ (pvals !!! b) _ Hca); congruence.
Qed.

Lemma insert_index_perm pvals i l : insert_index pvals i l ≡ₚ i :: l.
Proof.
  induction l as [|j l IH]; simpl; [done|].
  destruct (np_lt _ _); [|done]. rewrite IH. apply Permutation_swap.
Qed.

Lemma insert_index_sorted pvals i l :
  StronglySorted (not_after pvals) l →
  StronglySorted (not_after pvals) (insert_index pvals i l).
Proof.
  induction 1 as [|j l Hl IH Hj]; simpl.
  - repeat constructor.
  - destruct (np_lt (pvals !!! j) (pvals !!! i)) eqn:Hji.
    + constructor; [done|].
      rewrite insert_index_perm. constructor; [|done].
      by apply np_lt_asym.
    + constructor; [by constructor|]. constructor; [done|].
      eapply Forall_impl; [exact Hj|]. intros c Hc.
      by apply not_after_trans with j.
Qed.

Lemma argsort_perm pvals : argsort pvals ≡ₚ seq 0 (length pvals).
Proof.
  unfold argsort. induction (seq 0 (length pvals)) as [|i l IH]; simpl; [done|].
  by rewrite insert_index_perm, IH.
Qed.

Lemma argsort_sorted pvals : StronglySorted (not_after pvals) (argsort pvals).
Proof.
  unfold argsort. induction (seq 0 (length pvals)) as [|i l IH]; simpl.
  - constructor.
  - by apply insert_index_sorted.
Qed.

Lemma StronglySorted_lookup {A} (R : A → A → Prop) (l : list A) i j a b :
  StronglySorted R l → (i < j)%nat → l !! i = Some a → l !! j = Some b → R a b.
Proof.
  intros Hs. revert i j. induction Hs as [|x l Hl IH Hx]; intros i j Hij Hi Hj.
  - by rewrite lookup_nil in Hi.
  - destruct j as [|j]; [lia|]. destruct i as [|i]; simpl in *.
    + injection Hi as <-. rewrite Forall_forall in Hx.
      apply Hx. by apply list_elem_of_lookup_2 with j.
    + apply (IH i j); [lia|done|done].
Qed.

Lemma argsort_ascending pvals : ascending_order pvals (argsort pvals).
Proof.
  split; [apply argsort_perm|]. intros i j a b Hij Hi Hj.
  apply (StronglySorted_lookup (not_after pvals) (argsort pvals) i j a b);
    [apply argsort_sorted|done..].
Qed.

(** *** The running maximum *)

Lemma running_max_ext (cand cand' : nat → float) i :
  (∀ k, (k ≤ i)%nat → cand k = cand' k) →
  running_max cand i = running_max cand' i.
Proof.
  induction i as [|i IH]; intros Heq; simpl.
  - by apply Heq.
  - rewrite IH, (Heq (S i)); [done|lia|]. intros k ?. apply Heq. lia.
Qed.

Lemma running_max_shift (x : float) (l : list float) i :
  running_max (λ k, (x :: l) !!! k) (S i)
  = running_max (λ k, (np_maximum x (l !!! 0%nat) :: tail l) !!! k) i.
Proof.
  induction i as [|i IH].
  - done.
  - cbn [running_max]. rewrite <- IH. cbn [running_max].
    f_equal. destruct l; done.
Qed.

Lemma accumulate_from_lookup (acc : float) (l : list float) i :
  (i < length l)%nat →
  accumulate_from acc l !! i = Some (running_max (λ k, (acc :: l) !!! k) (S i)).
Proof.
  revert acc i. induction l as [|y l IH]; intros acc i Hi; simpl in Hi; [lia|].
  destruct i as [|i]; [done|].
  cbn [accumulate_from]. cbn [lookup list_lookup]. rewrite IH by lia.
  f_equal. symmetry. apply (running_max_shift acc (y :: l) (S i)).
Qed.

Lemma maximum_accumulate_lookup (l : list float) i :
  (i < length l)%nat →
  maximum_accumulate l !! i = Some (running_max (λ k, l !!! k) i).
Proof.
  destruct l as [|x l]; simpl; [lia|]. intros Hi.
  destruct i as [|i]; [done|].
  cbn [lookup list_lookup]. apply accumulate_from_lookup. lia.
Qed.

(** *** Writing back through the index array *)

Lemma length_put_at out order vals : length (put_at out order vals) = length out.
Proof.
  unfold put_at. revert out vals.
  induction order as [|a order IH]; intros out [|v vals]; simpl; try done.
  rewrite IH. apply length_insert.
Qed.

Lemma put_at_untouched out order vals a :
  a ∉ order → put_at out order vals !! a = out !! a.
Proof.
  unfold put_at. revert out vals.
  induction order as [|b order IH]; intros out [|v vals] Ha; simpl; try done.
  rewrite IH; [|intros ?; apply Ha; by right].
  apply list_lookup_insert_ne. intros ->. apply Ha. by left.
Qed.

Lemma put_at_lookup out order vals i a :
  NoDup order → length vals = length order →
  (∀ b, b ∈ order → (b < length out)%nat) →
  order !! i = Some a →
  put_at out order vals !! a = vals !! i.
Proof.
  revert out vals i.
  induction order as [|b order IH]; intros out vals i Hnd Hlen Hbound Hi.
  - by rewrite lookup_nil in Hi.
  - destruct vals as [|v vals]; [done|].
    apply NoDup_cons in Hnd as [Hb Hnd].
    change (put_at out (b :: order) (v :: vals))
      with (put_at (<[b:=v]> out) order vals).
    destruct i as [|i]; simpl in Hi.
    + simplify_eq. rewrite put_at_untouched by done.
      apply list_lookup_insert_eq. apply Hbound. by left.
    + apply (IH (<[b:=v]> out) vals i); [done|by injection Hlen| |done].
      intros c Hc. rewrite length_insert. apply Hbound. by right.
Qed.

(** *** Length *)

Lemma length_maximum_accumulate (l : list float) :
  length (maximum_accumulate l) = length l.
Proof.
  destruct l as [|x l]; [done|]. simpl. f_equal.
  generalize x. induction l as [|y l IH]; intros acc; simpl; [done|].
  by rewrite IH.
Qed.

Lemma length_holm_adjust pvals : length (holm_adjust pvals) = length pvals.
Proof. unfold holm_adjust. rewrite length_put_at. apply length_replicate. Qed.

(** C2.  [holm_adjust] returns the Holm step-down adjustment of its input:
    the indices sorted by ascending p-value, the candidate [(m - i) * p] for
    the i-th smallest, the running maximum along the sorted order, every
    value clipped to [0, 1] and written back at the input position of its
    p-value; and [holm_adjust([0.01, 0.01, 0.01])] is [[0.03, 0.03, 0.03]]. *)
Theorem holm_adjust_step_down :
  (∀ pvals, holm_step_down pvals (holm_adjust pvals)) ∧
  holm_adjust [Fin (1#100); Fin (1#100); Fin (1#100)]
    = [Fin (3#100); Fin (3#100); Fin (3#100)].
Proof.
  split; [|reflexivity].
  intros pvals. split; [apply length_holm_adjust|].
  exists (argsort pvals). split; [apply argsort_ascending|].
  intros i a Hi.
  pose proof (argsort_perm pvals) as Hperm.
  assert (length (argsort pvals) = length pvals) as Hlen
    by (by rewrite Hperm, length_seq).
  assert (i < length pvals)%nat as Hlt
    by (rewrite <- Hlen; by apply lookup_lt_Some with a).
  assert (length (take_at pvals (argsort pvals)) = length pvals) as Hlen'
    by (unfold take_at; by rewrite length_fmap).
  unfold holm_adjust.
  erewrite put_at_lookup; [| | | |exact Hi].
  - rewrite list_lookup_fmap, maximum_accumulate_lookup
      by (by rewrite length_imap, Hlen').
    simpl. do 2 f_equal. apply running_max_ext. intros k Hk.
    destruct (lookup_lt_is_Some_2 (argsort pvals) k) as [b Hb]; [lia|].
    rewrite (list_lookup_total_correct (argsort pvals) k b Hb).
    apply list_lookup_total_correct.
    rewrite list_lookup_imap. unfold take_at. by rewrite list_lookup_fmap, Hb.
  - rewrite Hperm. apply NoDup_seq.
  - by rewrite length_fmap, length_maximum_accumulate, length_imap, Hlen'.
  - intros b Hb. rewrite Hperm in Hb. apply elem_of_seq in Hb.
    unfold np_empty. rewrite length_replicate. lia.
Qed.

End holm_properties.

(** ** The tie correction *)

Lemma count_if_cons {A} (f : A → bool) (a : A) (l : list A) :
  count_if f (a :: l) = ((if f a then 1 else 0) + count_if f l)%nat.
Proof. unfold count_if. simpl. by destruct (f a). Qed.

Lemma count_if_zero {A} (f : A → bool) (l : list A) :
  count_if f l = 0%nat ↔ ∀ y, y ∈ l → f y = false.
Proof.
  induction l as [|a l IH]; [by split; [intros _ y ?%elem_of_nil|]|].
  rewrite count_if_cons. split.
  - intros H0 y [->|Hy]%elem_of_cons.
    + destruct (f a); [lia|done].
    + apply IH; [lia|done].
  - intros Hall. rewrite (Hall a) by (by left).
    apply IH. intros y ?. apply Hall. by right.
Qed.

Lemma count_if_pos {A} (f : A → bool) (l : list A) (y : A) :
  y ∈ l → f y = true → (0 < count_if f l)%nat.
Proof.
  intros Hy Hf. destruct (count_if f l) eqn:E; [|lia].
  rewrite count_if_zero in E. rewrite (E y Hy) in Hf. done.
Qed.

Lemma no_ties_cons (a : Q) (x : list Q) :
  no_ties (a :: x) → no_ties x ∧ ∀ b, b ∈ x → ¬ a == b.
Proof.
  intros Hnt. split.
  - intros i j c d Hij Hi Hj. by apply (Hnt (S i) (S j)); [lia|..].
  - intros b [j Hj]%list_elem_of_lookup. by apply (Hnt 0%nat (S j)).
Qed.

Lemma no_ties_count (x : list Q) (v : Q) :
  no_ties x → (count_if (λ y, Qeq_bool y v) x ≤ 1)%nat.
Proof.
  induction x as [|a x IH]; intros Hnt; [unfold count_if; simpl; lia|].
  apply no_ties_cons in Hnt as [Hnt Ha]. rewrite count_if_cons.
  destruct (Qeq_bool a v) eqn:Hav; [|by apply IH].
  assert (count_if (λ y, Qeq_bool y v) x = 0%nat) as ->; [|lia].
  apply count_if_zero. intros y Hy.
  destruct (Qeq_bool y v) eqn:Hyv; [|done].
  apply Qeq_bool_iff in Hav, Hyv. destruct (Ha y Hy). by rewrite Hav, Hyv.
Qed.

Lemma insert_unique_elem (v : Q) (l : list Q) (y : Q) :
  y ∈ insert_unique v l → y = v ∨ y ∈ l.
Proof.
  induction l as [|a l IH]; simpl.
  - intros ->%list_elem_of_singleton. by left.
  - destruct (Qltb v a); [by intros [->|?]%elem_of_cons; [left|right]|].
    destruct (Qeq_bool v a); [by right|].
    intros [->|Hy]%elem_of_cons; [right; by left|].
    destruct (IH Hy) as [->|?]; [by left|right; by right].
Qed.

Lemma np_unique_elem (x : list Q) (y : Q) : y ∈ np_unique x → y ∈ x.
Proof.
  induction x as [|a x IH]; simpl; [done|].
  intros [->|?]%insert_unique_elem; [by left|right; by apply IH].
Qed.

Lemma Zsum_zero (l : list Z) : (∀ c, c ∈ l → c = 0%Z) → Zsum l = 0%Z.
Proof.
  induction l as [|c l IH]; intros Hall; simpl; [done|].
  rewrite (Hall c) by (by left). rewrite IH; [done|].
  intros d ?. apply Hall. by right.
Qed.

(** *** Arithmetic in [int64] *)

Lemma int64_small (z : Z) : (- 2 ^ 63 ≤ z < 2 ^ 63)%Z → int64 z = z.
Proof. intros Hz. unfold int64. rewrite Z.mod_small; lia. Qed.

Lemma int64_add_r (a b : Z) : int64 (a + int64 b) = int64 (a + b).
Proof.
  unfold int64.
  replace (a + ((b + 2 ^ 63) mod 2 ^ 64 - 2 ^ 63) + 2 ^ 63)%Z
    with (a + (b + 2 ^ 63) mod 2 ^ 64)%Z by lia.
  rewrite Zplus_mod_idemp_r. f_equal. f_equal. lia.
Qed.

Lemma int64_sub_l (a b : Z) : int64 (int64 a - b) = int64 (a - b).
Proof.
  unfold int64.
  replace ((a + 2 ^ 63) mod 2 ^ 64 - 2 ^ 63 - b + 2 ^ 63)%Z
    with ((a + 2 ^ 63) mod 2 ^ 64 + - b)%Z by lia.
  rewrite Zplus_mod_idemp_l. f_equal. f_equal. lia.
Qed.

Lemma int64_le (z : Z) : (0 ≤ z)%Z → (int64 z ≤ z)%Z.
Proof.
  intros Hz. unfold int64.
  pose proof (Z.mod_le (z + 2 ^ 63) (2 ^ 64) ltac:(lia) ltac:(lia)). lia.
Qed.

(** Wrapping at every step comes to wrapping the exact sum once. *)
Lemma int64_wrapped_sum (l : list Z) :
  foldr (λ t acc, int64 (t + acc)) 0%Z
    ((λ c, int64 (int64 (c ^ 3) - c)) <$> l)
  = int64 (Zsum ((λ c, c ^ 3 - c)%Z <$> l)).
Proof.
  induction l as [|c l IH]; [done|].
  cbn [fmap list_fmap foldr Zsum] in *. unfold Zsum in *. rewrite IH.
  rewrite int64_add_r, int64_sub_l.
  rewrite (Z.add_comm (int64 _)), int64_add_r. f_equal. lia.
Qed.

Lemma tie_term_wrapped (x : list Q) :
  tie_term x = int64 (Zsum ((λ c, c ^ 3 - c)%Z <$> unique_counts x)).
Proof. apply int64_wrapped_sum. Qed.

Lemma tie_term_no_ties (x : list Q) : no_ties x → tie_term x = 0%Z.
Proof.
  intros Hnt. rewrite tie_term_wrapped.
  replace (Zsum ((λ c, c ^ 3 - c)%Z <$> unique_counts x)) with 0%Z; [done|].
  symmetry. unfold unique_counts. apply Zsum_zero.
  intros c (c' & -> & (v & -> & Hv)%list_elem_of_fmap)%list_elem_of_fmap.
  apply np_unique_elem in Hv.
  pose proof (no_ties_count x v Hnt).
  pose proof (count_if_pos (λ y, Qeq_bool y v) x v Hv (Qeq_bool_refl v)).
  replace (count_if (λ y, Qeq_bool y v) x) with 1%nat by lia. done.
Qed.

Lemma Qeq_bool_inject_Z_nonzero (z : Z) :
  z ≠ 0%Z → Qeq_bool (inject_Z z) 0 = false.
Proof.
  intros Hz. apply not_true_iff_false. intros Heq%Qeq_bool_iff.
  apply Hz. unfold Qeq, inject_Z in Heq. simpl in Heq. lia.
Qed.

Lemma cube_minus_pos (N : Z) : (1 < N → 0 < N ^ 3 - N)%Z.
Proof. intros HN. nia. Qed.

Lemma tie_correction_many (x : list Q) :
  let N := Z.of_nat (length x) in
  (1 < N)%Z →
  (N ^ 3 - N ≠ 0)%Z ∧
  tie_correction x = Fin (1 - inject_Z (tie_term x) / inject_Z (N ^ 3 - N)).
Proof.
  intros N HN. pose proof (cube_minus_pos N HN).
  split; [lia|]. unfold tie_correction. fold N.
  rewrite (proj2 (Z.ltb_lt 1 N) HN). unfold fdiv.
  by rewrite Qeq_bool_inject_Z_nonzero by lia.
Qed.

Lemma tie_correction_few (x : list Q) :
  (Z.of_nat (length x) ≤ 1)%Z → tie_correction x = Fin 1.
Proof.
  intros HN. unfold tie_correction.
  by rewrite (proj2 (Z.ltb_ge 1 (Z.of_nat (length x))) HN).
Qed.

(** ** [dunn_posthoc] *)

Lemma count_if_app {A} (f : A → bool) (l1 l2 : list A) :
  count_if f (l1 ++ l2) = (count_if f l1 + count_if f l2)%nat.
Proof. unfold count_if. by rewrite List.filter_app, length_app. Qed.

Lemma count_if_replicate {A} (f : A → bool) (n : nat) (a : A) :
  count_if f (replicate n a) = if f a then n else 0%nat.
Proof.
  induction n as [|n IH]; simpl; [by destruct (f a)|].
  rewrite count_if_cons, IH. by destruct (f a).
Qed.

(** *** The pairs of the two nested loops *)

Lemma filter_pairs_with {A} (P : A → bool) (a : A) (l : list A) :
  List.filter (λ pr, P pr.1 && P pr.2) ((λ g2, (a, g2)) <$> l)
  = if P a then (λ g2, (a, g2)) <$> List.filter P l else [].
Proof.
  induction l as [|b l IH]; [by destruct (P a)|].
  change ((λ g2, (a, g2)) <$> b :: l) with ((a, b) :: ((λ g2, (a, g2)) <$> l)).
  cbn [List.filter fst snd]. rewrite IH.
  destruct (P a), (P b); done.
Qed.

Lemma index_pairs_filter {A} (P : A → bool) (l : list A) :
  List.filter (λ pr, P pr.1 && P pr.2) (index_pairs l)
  = index_pairs (List.filter P l).
Proof.
  induction l as [|a l IH]; [done|].
  cbn [index_pairs List.filter].
  rewrite List.filter_app, IH, filter_pairs_with.
  by destruct (P a).
Qed.

Lemma length_index_pairs {A} (l : list A) :
  (2 * length (index_pairs l) = length l * (length l - 1))%nat.
Proof.
  induction l as [|a l IH]; simpl; [done|].
  rewrite length_app, length_fmap. nia.
Qed.

Lemma elem_of_index_pairs {A} (l : list A) (a b : A) :
  (a, b) ∈ index_pairs l ↔
  ∃ i j, (i < j)%nat ∧ l !! i = Some a ∧ l !! j = Some b.
Proof.
  induction l as [|c l IH]; simpl.
  - split; [by intros ?%elem_of_nil|]. by intros (i & j & _ & ? & _).
  - rewrite elem_of_app, list_elem_of_fmap, IH. split.
    + intros [(b' & [= -> ->] & [j Hj]%list_elem_of_lookup)
             |(i & j & Hij & Hi & Hj)].
      * exists 0%nat, (S j). split; [lia|done].
      * exists (S i), (S j). split; [lia|done].
    + intros (i & j & Hij & Hi & Hj). destruct j as [|j]; [lia|].
      destruct i as [|i]; simpl in *.
      * left. exists b. split; [congruence|].
        by apply list_elem_of_lookup_2 with j.
      * right. exists i, j. split; [lia|done].
Qed.

Lemma index_pairs_NoDup {A} (l : list A) : NoDup l → NoDup (index_pairs l).
Proof.
  induction 1 as [|a l Ha Hnd IH]; simpl; [constructor|].
  apply NoDup_app. split; [|split; [|done]].
  - apply NoDup_fmap_2; [|done]. by intros x y [= ->].
  - intros [x y] (b & [= -> ->] & Hb)%list_elem_of_fmap
      (i & j & _ & Hi%list_elem_of_lookup_2 & _)%elem_of_index_pairs.
    done.
Qed.

(** In a list without repetition no pair comes with its mirror image. *)
Lemma index_pairs_mirror {A} (l : list A) (a b : A) :
  NoDup l → (a, b) ∈ index_pairs l → (b, a) ∈ index_pairs l → False.
Proof.
  intros Hnd (i & j & Hij & Hi & Hj)%elem_of_index_pairs
    (i' & j' & Hij' & Hi' & Hj')%elem_of_index_pairs.
  pose proof (NoDup_lookup l i j' a Hnd Hi Hj').
  pose proof (NoDup_lookup l j i' b Hnd Hj Hi'). lia.
Qed.

Lemma index_pairs_distinct {A} (l : list A) (a b : A) :
  NoDup l → (a, b) ∈ index_pairs l → a ≠ b.
Proof.
  intros Hnd (i & j & Hij & Hi & Hj)%elem_of_index_pairs ->.
  pose proof (NoDup_lookup l i j b Hnd Hi Hj). lia.
Qed.

Lemma index_pairs_cover {A} (l : list A) (a b : A) :
  a ∈ l → b ∈ l → a ≠ b → (a, b) ∈ index_pairs l ∨ (b, a) ∈ index_pairs l.
Proof.
  intros [i Hi]%list_elem_of_lookup [j Hj]%list_elem_of_lookup Hab.
  destruct (lt_eq_lt_dec i j) as [[?| ->]|?].
  - left. apply elem_of_index_pairs. by exists i, j.
  - congruence.
  - right. apply elem_of_index_pairs. by exists j, i.
Qed.

Section dunn_properties.
Context {GroupId : Type} `{Countable GroupId} `{PyFloat GroupId}.
Variables (np_sqrt norm_sf : Q → Q).
Implicit Types (groups : list (GroupId * list Q)) (g : GroupId).
Implicit Types (out : gmap (GroupId * GroupId) float).

(** *** Flattening *)

Lemma concatenate_cases (values : list (list Q)) :
  (values = [] ∧ concatenate values = Raise ValueError_concat) ∨
  (values ≠ [] ∧ concatenate values = Ok (concat values)).
Proof. destruct values; [by left|by right]. Qed.

Lemma labels_of_cons g vs groups :
  labels_of ((g, vs) :: groups) = replicate (length vs) g ++ labels_of groups.
Proof. done. Qed.

Lemma group_size_cons groups g g' vs :
  group_size (labels_of ((g', vs) :: groups)) g
  = ((if bool_decide (g' = g) then length vs else 0)
     + group_size (labels_of groups) g)%nat.
Proof.
  rewrite labels_of_cons. unfold group_size.
  by rewrite count_if_app, count_if_replicate.
Qed.

Lemma group_size_absent groups g :
  g ∉ dict_keys groups → group_size (labels_of groups) g = 0%nat.
Proof.
  induction groups as [|[g' vs] groups IH]; intros Hg; [done|].
  rewrite group_size_cons, IH.
  - rewrite bool_decide_eq_false_2; [done|]. intros ->. apply Hg. by left.
  - intros ?. apply Hg. by right.
Qed.

Lemma group_size_present groups g vs :
  NoDup (dict_keys groups) → (g, vs) ∈ groups →
  group_size (labels_of groups) g = length vs.
Proof.
  induction groups as [|[g' vs'] groups IH]; intros Hnd Hin.
  - by apply elem_of_nil in Hin.
  - unfold dict_keys in Hnd. simpl in Hnd. apply NoDup_cons in Hnd as [Hg' Hnd].
    rewrite group_size_cons.
    apply elem_of_cons in Hin as [[= -> ->]|Hin].
    + rewrite bool_decide_eq_true_2 by done.
      rewrite (group_size_absent groups g' Hg'). lia.
    + rewrite bool_decide_eq_false_2.
      * by rewrite IH.
      * intros ->. apply Hg'. apply list_elem_of_fmap. by exists (g, vs).
Qed.

(** The keys that pass the size check are the keys of the non-empty groups. *)
Lemma filter_sized_keys groups :
  NoDup (dict_keys groups) →
  List.filter (λ g, negb (Nat.eqb (group_size (labels_of groups) g) 0))
    (dict_keys groups)
  = nonempty_keys groups.
Proof.
  intros Hnd. unfold nonempty_keys, dict_keys.
  assert (∀ gv, gv ∈ groups →
            group_size (labels_of groups) gv.1 = length gv.2) as Hsize.
  { intros [g vs] ?. by apply group_size_present. }
  revert Hsize. generalize (labels_of groups). clear Hnd.
  induction groups as [|[g vs] groups IH]; intros labels Hsize; [done|].
  pose proof (Hsize (g, vs) ltac:(by left)) as Hg. cbn [fst snd] in Hg.
  cbn [fmap list_fmap List.filter fst snd]. rewrite Hg.
  pose proof (IH labels ltac:(intros gv ?; apply Hsize; by right)) as IH'.
  cbn [fmap] in IH'. rewrite IH'.
  by destruct (negb _).
Qed.

Lemma dunn_pairs groups :
  NoDup (dict_keys groups) →
  List.filter (λ pr, negb (Nat.eqb (group_size (labels_of groups) pr.1) 0
                           || Nat.eqb (group_size (labels_of groups) pr.2) 0))
    (index_pairs (dict_keys groups))
  = index_pairs (nonempty_keys groups).
Proof.
  intros Hnd. rewrite <- filter_sized_keys by done.
  rewrite <- index_pairs_filter. apply List.filter_ext.
  intros pr. apply negb_orb.
Qed.

Lemma nonempty_keys_NoDup groups :
  NoDup (dict_keys groups) → NoDup (nonempty_keys groups).
Proof.
  intros Hnd. rewrite <- filter_sized_keys by done.
  apply NoDup_ListNoDup, List.NoDup_filter. by apply NoDup_ListNoDup.
Qed.

(** *** The adjustment branch *)

Lemma adjust_supported p_adjust raw_p :
  supported p_adjust = true →
  ∃ adj_p, adjust p_adjust raw_p = Ok adj_p ∧ length adj_p = length raw_p.
Proof.
  unfold supported, adjust. intros Hs.
  destruct (String.eqb (py_lower p_adjust) "holm").
  - eexists. split; [done|]. apply length_holm_adjust.
  - simpl in Hs. rewrite Hs. eexists. split; [done|]. apply length_fmap.
Qed.

Lemma adjust_unsupported p_adjust raw_p :
  supported p_adjust = false → adjust p_adjust raw_p = Raise ValueError_p_adjust.
Proof.
  unfold supported, adjust. intros [-> ->]%orb_false_iff. done.
Qed.

(** *** Filling the result *)

Lemma store_pair_raise (kp : (GroupId * GroupId) * float) out e :
  store_pair kp out = Raise e → e = ValueError_float.
Proof.
  unfold store_pair, pair_key.
  destruct (py_float kp.1.1); simpl; [|congruence].
  destruct (py_float kp.1.2); simpl; [done|congruence].
Qed.

Lemma store_pairs_raise (kps : list ((GroupId * GroupId) * float)) out e :
  for_each store_pair kps out = Raise e → e = ValueError_float.
Proof.
  revert out. induction kps as [|kp kps IH]; intros out; [done|].
  cbn [for_each]. destruct (store_pair kp out) as [out'|e'] eqn:Hkp; simpl.
  - apply IH.
  - intros [= <-]. by apply store_pair_raise in Hkp.
Qed.

(** The result has one new entry for each pair, under the key [pair_key]
    gives it, when no two pairs get the same key and none is there yet. *)
Lemma store_pairs_spec (pairs : list (GroupId * GroupId)) (ps : list float) out :
  length ps = length pairs →
  (∀ pr, pr ∈ pairs → ∃ key, pair_key pr.1 pr.2 = Ok key) →
  (∀ pr pr' key, pr ∈ pairs → pr' ∈ pairs →
     pair_key pr.1 pr.2 = Ok key → pair_key pr'.1 pr'.2 = Ok key → pr = pr') →
  NoDup pairs →
  (∀ pr key, pr ∈ pairs → pair_key pr.1 pr.2 = Ok key → out !! key = None) →
  ∃ out', for_each store_pair (zip pairs ps) out = Ok out' ∧
    size out' = (size out + length pairs)%nat ∧
    (∀ key, is_Some (out' !! key) ↔
       is_Some (out !! key) ∨
       ∃ pr, pr ∈ pairs ∧ pair_key pr.1 pr.2 = Ok key).
Proof.
  revert ps out.
  induction pairs as [|pr pairs IH]; intros ps out Hlen Hkey Hinj Hnd Hfresh.
  - simpl. exists out. split; [done|]. split; [lia|].
    intros key. split; [by left|].
    by intros [?|(pr & ?%elem_of_nil & _)].
  - destruct ps as [|p ps]; [done|]. injection Hlen as Hlen.
    apply NoDup_cons in Hnd as [Hpr Hnd].
    destruct (Hkey pr) as [key Hk]; [by left|].
    cbn [zip zip_with for_each].
    assert (store_pair (pr, p) out = Ok (<[key:=p]> out)) as ->.
    { unfold store_pair. cbn [fst snd]. by rewrite Hk. }
    simpl.
    destruct (IH ps (<[key:=p]> out)) as (out' & Hrun & Hsize & Hdom);
      [done| | |done| |].
    { intros pr' ?. apply Hkey. by right. }
    { intros pr1 pr2 k ? ?. apply Hinj; by right. }
    { intros pr' k Hin Hk'. rewrite lookup_insert_ne.
      - apply (Hfresh pr'); [by right|done].
      - intros <-. assert (pr = pr') as -> by (apply (Hinj pr pr' key);
          [by left|by right|done|done]). done. }
    exists out'. split; [done|]. split.
    + rewrite Hsize, map_size_insert_None; [simpl; lia|].
      apply (Hfresh pr); [by left|done].
    + intros k. rewrite Hdom. split.
      * intros [Hk'|(pr' & Hin & Hk')].
        -- destruct (decide (key = k)) as [<-|Hne].
           ++ right. exists pr. split; [by left|done].
           ++ left. by rewrite lookup_insert_ne in Hk'.
        -- right. exists pr'. split; [by right|done].
      * intros [Hk'|(pr' & [->|Hin]%elem_of_cons & Hk')].
        -- left. destruct (decide (key = k)) as [<-|Hne].
           ++ rewrite lookup_insert_eq. eauto.
           ++ by rewrite lookup_insert_ne.
        -- left. assert (key = k) as <- by congruence.
           rewrite lookup_insert_eq. eauto.
        -- right. by exists pr'.
Qed.

(** *** The whole function *)

(** For a dict with at least one key, [dunn_posthoc] comes down to the
    adjustment of the raw p-values of the pairs of non-empty groups and the
    loop that stores them. *)
Lemma dunn_posthoc_unfold groups p_adjust :
  groups ≠ [] → NoDup (dict_keys groups) →
  ∃ raw_p, length raw_p = length (index_pairs (nonempty_keys groups)) ∧
    dunn_posthoc np_sqrt norm_sf groups p_adjust
    = adjust p_adjust raw_p ≫= λ adj_p,
        for_each store_pair (zip (index_pairs (nonempty_keys groups)) adj_p) ∅.
Proof.
  intros Hne Hnd. unfold dunn_posthoc.
  destruct (concatenate_cases groups.*2) as [[Hnil _]|[_ ->]].
  { by apply fmap_nil_inv in Hnil. }
  simpl. rewrite dunn_pairs by done.
  eexists. split; [|done]. by rewrite length_fmap.
Qed.

(** C5, as the code has it.  [dunn_posthoc] raises the error about
    [p_adjust] exactly when the dict has at least one key, so that the
    flattening went through, and the lower-cased method name is neither
    "holm" nor "bonferroni"; nothing is returned then. *)
Theorem dunn_posthoc_bad_method groups p_adjust :
  dunn_posthoc np_sqrt norm_sf groups p_adjust = Raise ValueError_p_adjust ↔
  groups ≠ [] ∧ supported p_adjust = false.
Proof.
  unfold dunn_posthoc.
  destruct (concatenate_cases groups.*2) as [[Hnil ->]|[Hne ->]]; simpl.
  - apply fmap_nil_inv in Hnil as ->. split; [done|]. by intros [? _].
  - assert (groups ≠ []) as Hgroups by (by intros ->).
    destruct (supported p_adjust) eqn:Hs.
    + split; [|by intros [_ ?]].
      match goal with |- context [adjust p_adjust ?raw] =>
        destruct (adjust_supported p_adjust raw Hs) as (adj_p & -> & _) end.
      simpl. by intros ?%store_pairs_raise.
    + rewrite adjust_unsupported by done. done.
Qed.

(** C6, as the code has it.  For a dict with at least one key, fewer than
    two of whose groups have observations, and a supported method,
    [dunn_posthoc] returns the empty mapping. *)
Theorem dunn_posthoc_too_few_groups groups p_adjust :
  groups ≠ [] → NoDup (dict_keys groups) →
  (length (nonempty_keys groups) < 2)%nat →
  supported p_adjust = true →
  dunn_posthoc np_sqrt norm_sf groups p_adjust = Ok ∅.
Proof.
  intros Hne Hnd Hfew Hs.
  destruct (dunn_posthoc_unfold groups p_adjust Hne Hnd) as (raw_p & Hlen & ->).
  destruct (adjust_supported p_adjust raw_p Hs) as (adj_p & -> & _). simpl.
  destruct (nonempty_keys groups) as [|g1 [|g2 ?]]; simpl in *; [done|done|lia].
Qed.

(** C3, as the code has it.  With [k ≥ 2] non-empty groups whose identifiers
    convert with [float] and a supported method, [dunn_posthoc] returns a
    mapping of [k * (k - 1) / 2] entries: every key is the pair of two
    distinct non-empty groups sorted by numeric value, and every such pair
    has its entry. *)
Theorem dunn_posthoc_pair_count groups p_adjust :
  NoDup (dict_keys groups) →
  (2 ≤ length (nonempty_keys groups))%nat →
  Forall (λ g, is_Some (py_float g)) (nonempty_keys groups) →
  supported p_adjust = true →
  ∃ out, dunn_posthoc np_sqrt norm_sf groups p_adjust = Ok out ∧
    size out = (length (nonempty_keys groups)
                * (length (nonempty_keys groups) - 1) / 2)%nat ∧
    (∀ key, is_Some (out !! key) →
       ∃ g1 g2, g1 ∈ nonempty_keys groups ∧ g2 ∈ nonempty_keys groups ∧
                g1 ≠ g2 ∧ pair_key g1 g2 = Ok key) ∧
    (∀ g1 g2, g1 ∈ nonempty_keys groups → g2 ∈ nonempty_keys groups →
       g1 ≠ g2 →
       ∃ key, (pair_key g1 g2 = Ok key ∨ pair_key g2 g1 = Ok key) ∧
              is_Some (out !! key)).
Proof.
  intros Hnd Hk Hnum Hs.
  assert (groups ≠ []) as Hne by (intros ->; simpl in Hk; lia).
  destruct (dunn_posthoc_unfold groups p_adjust Hne Hnd) as (raw_p & Hlen & ->).
  destruct (adjust_supported p_adjust raw_p Hs) as (adj_p & -> & Hlen').
  pose proof (nonempty_keys_NoDup groups Hnd) as Hnd'.
  set (nk := nonempty_keys groups) in *.
  rewrite Forall_forall in Hnum.
  assert (∀ pr, pr ∈ index_pairs nk → pr.1 ∈ nk ∧ pr.2 ∈ nk) as Hin.
  { intros [a b] (i & j & _ & Hi & Hj)%elem_of_index_pairs.
    split; by eapply list_elem_of_lookup_2. }
  assert (∀ pr key, pair_key pr.1 pr.2 = Ok key →
            key = pr ∨ key = (pr.2, pr.1)) as Hshape.
  { intros [a b] key. unfold pair_key. simpl.
    destruct (py_float a), (py_float b); simpl; try done.
    destruct (flt _ _); intros [= <-]; [by right|by left]. }
  destruct (store_pairs_spec (index_pairs nk) adj_p ∅)
    as (out & Hrun & Hsize & Hdom).
  { congruence. }
  { intros pr [? ?]%Hin. apply pair_key_total; by apply Hnum. }
  { intros [a b] [c d] key Hpr Hpr' Hk1%Hshape Hk2%Hshape. simpl in *.
    destruct Hk1 as [->| ->], Hk2 as [Heq|Heq]; try done;
      injection Heq as <- <-; try done;
      by destruct (index_pairs_mirror nk a b). }
  { by apply index_pairs_NoDup. }
  { intros. apply lookup_empty. }
  exists out. split; [exact Hrun|]. split; [|split].
  - rewrite Hsize, map_size_empty, Nat.add_0_l.
    pose proof (length_index_pairs nk) as H2.
    apply Nat.div_unique with 0%nat; lia.
  - intros key [Hk'|([a b] & Hpr & Hkey)]%Hdom.
    { rewrite lookup_empty in Hk'. by destruct Hk'. }
    exists a, b. destruct (Hin _ Hpr). repeat split; try done.
    by apply (index_pairs_distinct nk).
  - intros g1 g2 Hg1 Hg2 Hg12.
    destruct (index_pairs_cover nk g1 g2 Hg1 Hg2 Hg12) as [Hpr|Hpr].
    + destruct (pair_key_total g1 g2) as [key Hkey]; [by apply Hnum..|].
      exists key. split; [by left|]. apply Hdom. right. by exists (g1, g2).
    + destruct (pair_key_total g2 g1) as [key Hkey]; [by apply Hnum..|].
      exists key. split; [by right|]. apply Hdom. right. by exists (g2, g1).
Qed.

End dunn_properties.

(** ** The sample inputs *)


Lemma cld_letters_cleanup_noop_witness :
  NoDup (dict_keys abc_means) ∧
  cld_letters abc_means abc_pvals (Fin (5#100))
  = cld_letters_greedy abc_means abc_pvals (Fin (5#100)).
Proof.
  assert (NoDup (dict_keys abc_means)) as Hnd by compute_done.
  split; [done|]. by apply cld_letters_cleanup_noop.
Defined.

Lemma cld_letters_covers_keys_witness :
  NoDup (dict_keys abc_means) ∧
  Forall (λ g, is_Some (py_float g)) (dict_keys abc_means) ∧
  ∃ letters, cld_letters abc_means abc_pvals (Fin (5#100)) = Ok letters ∧
    ∀ g, g ∈ dict_keys abc_means → ∃ s, letters !! g = Some s ∧ s ≠ [].
Proof.
  assert (NoDup (dict_keys abc_means)) as Hnd by compute_done.
  assert (Forall (λ g, is_Some (py_float g)) (dict_keys abc_means)) as Hnum
    by compute_done.
  split; [done|]. split; [done|].
  by apply cld_letters_covers_keys.
Defined.

(** C9 as it is written covers every dict: with the two identifiers "A"
    and "B", [float] raises in the test of the second group and no mapping
    is returned. *)
Lemma cld_letters_named_groups_raise :
  ¬ ∃ letters,
      cld_letters named_means ∅ (Fin (5#100)) = Ok letters ∧
      ∀ g, g ∈ dict_keys named_means → ∃ s, letters !! g = Some s ∧ s ≠ [].
Proof.
  assert (cld_letters named_means ∅ (Fin (5#100)) = Raise ValueError_float)
    as Hraise by (by vm_compute).
  intros (letters & Hrun & _). by rewrite Hraise in Hrun.
Qed.

(** C3 as it is written covers every dict: with the identifiers "A" and
    "B", [float] raises when the result is filled. *)
Lemma dunn_posthoc_named_groups_raise :
  ¬ ∃ out,
      dunn_posthoc sample_sqrt sample_sf named_twin_groups "holm" = Ok out ∧
      size out = 1%nat.
Proof.
  assert (dunn_posthoc sample_sqrt sample_sf named_twin_groups "holm"
          = Raise ValueError_float) as Hraise by (by vm_compute).
  intros (out & Hrun & _). by rewrite Hraise in Hrun.
Qed.

Lemma dunn_posthoc_pair_count_witness :
  NoDup (dict_keys four_groups) ∧
  (2 ≤ length (nonempty_keys four_groups))%nat ∧
  Forall (λ g, is_Some (py_float g)) (nonempty_keys four_groups) ∧
  supported "holm" = true ∧
  ∃ out, dunn_posthoc sample_sqrt sample_sf four_groups "holm" = Ok out ∧
         size out = 3%nat.
Proof.
  assert (NoDup (dict_keys four_groups)) as Hnd by compute_done.
  assert (2 ≤ length (nonempty_keys four_groups))%nat as Hk by (vm_compute; lia).
  assert (Forall (λ g, is_Some (py_float g)) (nonempty_keys four_groups))
    as Hnum by compute_done.
  assert (supported "holm" = true) as Hs by reflexivity.
  repeat (split; [done|]).
  destruct (dunn_posthoc_pair_count sample_sqrt sample_sf four_groups "holm"
              Hnd Hk Hnum Hs) as (out & Hrun & Hsize & _).
  exists out. split; [done|]. by rewrite Hsize.
Defined.

(** C5 as it is written: "Holm" is not one of the two names and is
    accepted all the same, and with an empty dict the error raised for
    "median" is the one of [np.concatenate], before the method is looked
    at. *)
Lemma dunn_posthoc_method_check_late :
  "Holm" ≠ "holm" ∧ "Holm" ≠ "bonferroni" ∧
  (∃ out, dunn_posthoc sample_sqrt sample_sf twin_groups "Holm" = Ok out) ∧
  dunn_posthoc (GroupId := pykey) sample_sqrt sample_sf [] "median"
    = Raise ValueError_concat.
Proof.
  split; [done|]. split; [done|]. split; [|done].
  eexists. by vm_compute.
Qed.

(** C6 as it is written includes the dict without any group: there
    [np.concatenate] raises. *)
Lemma dunn_posthoc_no_groups_raise :
  dunn_posthoc (GroupId := pykey) sample_sqrt sample_sf [] "holm" ≠ Ok ∅.
Proof. done. Qed.

Lemma dunn_posthoc_too_few_groups_witness :
  one_full_group ≠ [] ∧ NoDup (dict_keys one_full_group) ∧
  (length (nonempty_keys one_full_group) < 2)%nat ∧
  supported "bonferroni" = true ∧
  dunn_posthoc sample_sqrt sample_sf one_full_group "bonferroni" = Ok ∅.
Proof.
  assert (one_full_group ≠ []) as Hne by done.
  assert (NoDup (dict_keys one_full_group)) as Hnd by compute_done.
  assert (length (nonempty_keys one_full_group) < 2)%nat as Hfew
    by (vm_compute; lia).
  assert (supported "bonferroni" = true) as Hs by reflexivity.
  repeat (split; [done|]).
  by apply dunn_posthoc_too_few_groups.
Defined.

(** ** Two groups with the same observations *)

(** *** The distinct values of the pooled data *)

Lemma insert_unique_cover (v : Q) (l : list Q) (y : Q) :
  y = v ∨ y ∈ l → ∃ w, w ∈ insert_unique v l ∧ y == w.
Proof.
  induction l as [|a l IH]; simpl.
  - intros [->|?%elem_of_nil]; [|done]. exists v. split; [by left|reflexivity].
  - destruct (Qltb v a) eqn:Hlt.
    { intros [->|Hy]; [exists v|exists y]; (split; [|reflexivity]).
      - by left.
      - by right. }
    destruct (Qeq_bool v a) eqn:Heq.
    { apply Qeq_bool_iff in Heq. intros [->|Hy].
      - exists a. split; [by left|done].
      - exists y. split; [done|reflexivity]. }
    intros [->|[->|Hy]%elem_of_cons].
    + destruct IH as (w & Hw & Hvw); [by left|]. exists w. split; [by right|done].
    + exists a. split; [by left|reflexivity].
    + destruct IH as (w & Hw & Hvw); [by right|]. exists w. split; [by right|done].
Qed.

Lemma np_unique_cover (x : list Q) (y : Q) :
  y ∈ x → ∃ w, w ∈ np_unique x ∧ y == w.
Proof.
  induction x as [|a x IH]; [by intros ?%elem_of_nil|].
  intros [->|Hy]%elem_of_cons; cbn [np_unique foldr].
  - apply insert_unique_cover. by left.
  - destruct (IH Hy) as (w & Hw & Hyw).
    destruct (insert_unique_cover a (np_unique x) w) as (w' & Hw' & Hww');
      [by right|].
    exists w'. split; [done|]. by rewrite Hyw.
Qed.

Lemma insert_unique_sorted (v : Q) (l : list Q) :
  StronglySorted Qlt l → StronglySorted Qlt (insert_unique v l).
Proof.
  induction 1 as [|a l Hl IH Ha]; simpl.
  - repeat constructor.
  - destruct (Qltb v a) eqn:Hlt.
    { apply Qltb_lt in Hlt. constructor; [by constructor|].
      constructor; [done|]. eapply Forall_impl; [exact Ha|].
      intros c Hc. by apply Qlt_trans with a. }
    destruct (Qeq_bool v a) eqn:Heq; [by constructor|].
    constructor; [done|]. apply Forall_forall.
    intros w [->|Hw]%insert_unique_elem.
    + apply Qltb_ge in Hlt. apply Qle_lt_or_eq in Hlt as [?|Heq']; [done|].
      apply Qeq_bool_neq in Heq. destruct Heq. by symmetry.
    + rewrite Forall_forall in Ha. by apply Ha.
Qed.

Lemma np_unique_sorted (x : list Q) : StronglySorted Qlt (np_unique x).
Proof.
  induction x as [|a x IH]; simpl; [constructor|].
  by apply insert_unique_sorted.
Qed.

(** Each entry of the pooled data is counted for exactly one distinct
    value. *)
Lemma sorted_hits (U : list Q) (a : Q) :
  StronglySorted Qlt U → (∃ w, w ∈ U ∧ a == w) →
  Zsum ((λ v, if Qeq_bool a v then 1 else 0)%Z <$> U) = 1%Z.
Proof.
  induction 1 as [|u U HU IH Hu]; intros (w & Hw & Haw).
  - by apply elem_of_nil in Hw.
  - cbn [fmap list_fmap Zsum foldr]. fold (Zsum ((λ v, if Qeq_bool a v then 1 else 0)%Z <$> U)).
    rewrite Forall_forall in Hu.
    destruct (Qeq_bool a u) eqn:Hau.
    + apply Qeq_bool_iff in Hau.
      rewrite Zsum_zero; [done|].
      intros c (v & -> & Hv)%list_elem_of_fmap.
      destruct (Qeq_bool a v) eqn:Hav; [|done].
      apply Qeq_bool_iff in Hav. apply Hu in Hv.
      rewrite <- Hau, <- Hav in Hv. by apply Qlt_irrefl in Hv.
    + rewrite IH; [done|]. exists w. split; [|done].
      apply elem_of_cons in Hw as [->|?]; [|done].
      apply Qeq_bool_neq in Hau. done.
Qed.

Lemma Zsum_plus {A} (f g : A → Z) (l : list A) :
  Zsum ((λ v, f v + g v)%Z <$> l) = (Zsum (f <$> l) + Zsum (g <$> l))%Z.
Proof.
  induction l as [|a l IH]; [done|].
  cbn [fmap list_fmap Zsum foldr] in *. unfold Zsum in *. rewrite IH. lia.
Qed.

Lemma sum_counts (U x : list Q) :
  StronglySorted Qlt U → (∀ a, a ∈ x → ∃ w, w ∈ U ∧ a == w) →
  Zsum ((λ v, Z.of_nat (count_if (λ y, Qeq_bool y v) x)) <$> U)
  = Z.of_nat (length x).
Proof.
  intros HU. induction x as [|a x IH]; intros Hcover.
  - apply Zsum_zero. by intros c (v & -> & _)%list_elem_of_fmap.
  - transitivity
      (Zsum ((λ v, (if Qeq_bool a v then 1 else 0)
                   + Z.of_nat (count_if (λ y, Qeq_bool y v) x))%Z <$> U)).
    { f_equal. apply list_fmap_ext. intros _ v _.
      rewrite count_if_cons. destruct (Qeq_bool a v); lia. }
    rewrite Zsum_plus, IH by (intros b ?; apply Hcover; by right).
    rewrite sorted_hits; [simpl length; lia|done|apply Hcover; by left].
Qed.

Lemma unique_counts_sum (x : list Q) :
  Zsum (unique_counts x) = Z.of_nat (length x).
Proof.
  apply sum_counts; [apply np_unique_sorted|apply np_unique_cover].
Qed.

Lemma unique_counts_pos (x : list Q) (c : Z) :
  c ∈ unique_counts x → (1 ≤ c)%Z.
Proof.
  intros (v & -> & Hv%np_unique_elem)%list_elem_of_fmap.
  pose proof (count_if_pos (λ y, Qeq_bool y v) x v Hv (Qeq_bool_refl v)). lia.
Qed.

Lemma unique_counts_two (x : list Q) (a b : Q) :
  a ∈ x → b ∈ x → ¬ a == b → (2 ≤ length (unique_counts x))%nat.
Proof.
  intros (va & Hva & Ha)%np_unique_cover (vb & Hvb & Hb)%np_unique_cover Hab.
  unfold unique_counts. rewrite length_fmap.
  destruct (np_unique x) as [|u [|u' U]]; simpl; [|exfalso|lia].
  - by apply elem_of_nil in Hva.
  - apply list_elem_of_singleton in Hva as ->, Hvb as ->.
    apply Hab. by rewrite Ha, Hb.
Qed.

(** *** The bound on the tie term *)

Lemma Zsum_cons (c : Z) (l : list Z) : Zsum (c :: l) = (c + Zsum l)%Z.
Proof. done. Qed.

Lemma cubes_le (l : list Z) :
  (∀ c, c ∈ l → (1 ≤ c)%Z) →
  (0 ≤ Zsum l ∧ Zsum ((λ c, c * c * c) <$> l) ≤ Zsum l * Zsum l * Zsum l)%Z.
Proof.
  induction l as [|c l IH]; intros Hpos; [simpl; lia|].
  rewrite fmap_cons, !Zsum_cons.
  destruct IH as [H0 Hle]; [intros d ?; apply Hpos; by right|].
  pose proof (Hpos c ltac:(by left)).
  generalize dependent (Zsum ((λ c, c * c * c)%Z <$> l)).
  generalize dependent (Zsum l). intros s Hs t Ht. split; [lia|].
  assert (0 ≤ c * c * s)%Z by nia. assert (0 ≤ c * s * s)%Z by nia.
  replace ((c + s) * (c + s) * (c + s))%Z
    with (c * c * c + s * s * s + 3 * (c * c * s) + 3 * (c * s * s))%Z by ring.
  lia.
Qed.

Lemma cubes_lt (l : list Z) :
  (∀ c, c ∈ l → (1 ≤ c)%Z) → (2 ≤ length l)%nat →
  (Zsum ((λ c, c * c * c) <$> l) < Zsum l * Zsum l * Zsum l)%Z.
Proof.
  destruct l as [|c [|c' l]]; simpl length; try lia. intros Hpos _.
  destruct (cubes_le (c' :: l)) as [H0 Hle]; [intros d ?; apply Hpos; by right|].
  pose proof (Hpos c ltac:(by left)).
  assert (1 ≤ Zsum (c' :: l))%Z as H1.
  { pose proof (Hpos c' ltac:(right; by left)).
    destruct (cubes_le l) as [? _]; [intros d ?; apply Hpos; right; by right|].
    rewrite Zsum_cons. lia. }
  rewrite (fmap_cons _ c), (Zsum_cons (c * c * c)), !(Zsum_cons c).
  generalize dependent (Zsum ((λ c, c * c * c)%Z <$> c' :: l)).
  generalize dependent (Zsum (c' :: l)). intros s Hs Hs1 t Ht.
  assert (1 ≤ c * c * s)%Z by nia. assert (0 ≤ c * s * s)%Z by nia.
  replace ((c + s) * (c + s) * (c + s))%Z
    with (c * c * c + s * s * s + 3 * (c * c * s) + 3 * (c * s * s))%Z by ring.
  lia.
Qed.

Lemma tie_term_cubes (l : list Z) :
  Zsum ((λ c, c ^ 3 - c)%Z <$> l)
  = (Zsum ((λ c, c * c * c) <$> l) - Zsum l)%Z.
Proof.
  induction l as [|c l IH]; [done|].
  cbn [fmap list_fmap Zsum foldr] in *. unfold Zsum in *. rewrite IH.
  replace (c ^ 3)%Z with (c * c * c)%Z by ring. lia.
Qed.

Lemma Zsum_nonneg (l : list Z) : (∀ c, c ∈ l → (0 ≤ c)%Z) → (0 ≤ Zsum l)%Z.
Proof.
  induction l as [|c l IH]; intros Hpos; [done|]. rewrite Zsum_cons.
  pose proof (Hpos c ltac:(by left)).
  assert (0 ≤ Zsum l)%Z by (apply IH; intros d ?; apply Hpos; by right). lia.
Qed.

(** The exact sum of [t³ - t] over the counts lies between 0 and
    [N³ - N]. *)
Lemma counts_sum_bounds (x : list Q) :
  (0 ≤ Zsum ((λ c, c ^ 3 - c)%Z <$> unique_counts x)
     ≤ Z.of_nat (length x) ^ 3 - Z.of_nat (length x))%Z.
Proof.
  split.
  - apply Zsum_nonneg.
    intros c (c' & -> & Hc'%unique_counts_pos)%list_elem_of_fmap.
    replace (c' ^ 3)%Z with (c' * c' * c')%Z by ring. nia.
  - rewrite tie_term_cubes.
    destruct (cubes_le (unique_counts x) (unique_counts_pos x)) as [_ Hle].
    rewrite unique_counts_sum in *.
    replace (Z.of_nat (length x) ^ 3)%Z
      with (Z.of_nat (length x) * Z.of_nat (length x) * Z.of_nat (length x))%Z
      by ring.
    lia.
Qed.

Lemma counts_sum_lt (x : list Q) (a b : Q) :
  a ∈ x → b ∈ x → ¬ a == b →
  (Zsum ((λ c, c ^ 3 - c)%Z <$> unique_counts x)
     < Z.of_nat (length x) ^ 3 - Z.of_nat (length x))%Z.
Proof.
  intros Ha Hb Hab. rewrite tie_term_cubes.
  pose proof (cubes_lt (unique_counts x) (unique_counts_pos x)
                (unique_counts_two x a b Ha Hb Hab)) as Hlt.
  rewrite unique_counts_sum in *.
  replace (Z.of_nat (length x) ^ 3)%Z
    with (Z.of_nat (length x) * Z.of_nat (length x) * Z.of_nat (length x))%Z
    by ring.
  lia.
Qed.

(** Wrapped or not, the tie term stays below [N³ - N] when two
    observations differ. *)
Lemma tie_term_lt (x : list Q) (a b : Q) :
  a ∈ x → b ∈ x → ¬ a == b →
  (tie_term x < Z.of_nat (length x) ^ 3 - Z.of_nat (length x))%Z.
Proof.
  intros Ha Hb Hab. rewrite tie_term_wrapped.
  pose proof (counts_sum_lt x a b Ha Hb Hab).
  destruct (counts_sum_bounds x) as [H0 _].
  pose proof (int64_le _ H0). lia.
Qed.

(** Up to 2097152 observations nothing wraps. *)
Lemma counts_sum_int64 (x : list Q) :
  (Z.of_nat (length x) ≤ 2097152)%Z →
  tie_term x = Zsum ((λ c, c ^ 3 - c)%Z <$> unique_counts x).
Proof.
  intros HN. rewrite tie_term_wrapped. apply int64_small.
  destruct (counts_sum_bounds x) as [H0 Hle].
  set (N := Z.of_nat (length x)) in *. split; [lia|].
  assert (0 ≤ N)%Z as HN0 by (unfold N; lia).
  assert (N * N ≤ 2097152 * 2097152)%Z by (apply Z.mul_le_mono_nonneg; lia).
  assert (N * N * N ≤ 2097152 * 2097152 * 2097152)%Z
    by (apply Z.mul_le_mono_nonneg; lia).
  replace (N ^ 3)%Z with (N * N * N)%Z in Hle by ring.
  destruct (decide (N = 0%Z)) as [HN1|HN1]; [rewrite HN1 in Hle|]; lia.
Qed.

(** *** The tie correction and the formula of the specification *)

Lemma multiplicity_proper (x : list Q) (v w : Q) :
  v == w → multiplicity x v = multiplicity x w.
Proof.
  intros Hvw. unfold multiplicity, count_if. do 2 f_equal.
  induction x as [|y x IH]; [done|]. cbn [List.filter]. rewrite IH.
  assert (Qeq_bool y v = Qeq_bool y w) as ->; [|done].
  destruct (Qeq_bool y w) eqn:Hw.
  - apply Qeq_bool_iff. apply Qeq_bool_iff in Hw. by rewrite Hvw.
  - apply not_true_iff_false. intros Hv%Qeq_bool_iff.
    apply Qeq_bool_neq in Hw. apply Hw. by rewrite <- Hvw.
Qed.

(** The sum over the distinct values does not depend on how they are
    listed. *)
Lemma spec_tie_sum_perm (x U V : list Q) :
  PermutationA Qeq U V → spec_tie_sum x U = spec_tie_sum x V.
Proof.
  unfold spec_tie_sum.
  induction 1 as [|u v U V Huv _ IH|u v U|U V W _ IH1 _ IH2].
  - done.
  - rewrite !fmap_cons, !Zsum_cons, IH. by rewrite (multiplicity_proper x u v).
  - rewrite !fmap_cons, !Zsum_cons. lia.
  - by rewrite IH1.
Qed.

Lemma sorted_NoDupA (U : list Q) : StronglySorted Qlt U → NoDupA Qeq U.
Proof.
  induction 1 as [|u U _ IH Hu]; constructor; [|done].
  intros (w & Huw & Hw)%InA_alt. rewrite Forall_forall in Hu.
  apply list_elem_of_In, Hu in Hw. rewrite Huw in Hw.
  by apply Qlt_irrefl in Hw.
Qed.

Lemma np_unique_distinct (x : list Q) : distinct_values x (np_unique x).
Proof.
  split; [apply sorted_NoDupA, np_unique_sorted|].
  intros v. rewrite !InA_alt. split.
  - intros (w & Hvw & Hw%list_elem_of_In%np_unique_elem).
    exists w. split; [done|]. by apply list_elem_of_In.
  - intros (y & Hvy & Hy%list_elem_of_In%np_unique_cover).
    destruct Hy as (w & Hw & Hyw). exists w.
    split; [by rewrite Hvy|]. by apply list_elem_of_In.
Qed.

(** Whatever list of the distinct values is taken, the spec's sum is the
    exact sum over the counts of [np.unique]. *)
Lemma spec_tie_sum_counts (x U : list Q) :
  distinct_values x U →
  spec_tie_sum x U = Zsum ((λ c, c ^ 3 - c)%Z <$> unique_counts x).
Proof.
  intros [Hnd Hin]. destruct (np_unique_distinct x) as [Hnd' Hin'].
  rewrite (spec_tie_sum_perm x U (np_unique x)).
  - unfold spec_tie_sum, unique_counts. by rewrite <- list_fmap_compose.
  - apply NoDupA_equivlistA_PermutationA; [apply _|done|done|].
    intros v. by rewrite Hin, Hin'.
Qed.

(** C8, as the code has it.  With [N] the pooled count: for [N > 1] the
    divisor [N³ - N] is not zero; for [N] up to 2097152 the tie correction
    is the value of the specification, [1 - Σ(t³ - t) / (N³ - N)] with [t]
    ranging over the multiplicities of the distinct values, or 1 when
    [N ≤ 1]; for [N ≤ 1] it is 1; and for pooled data without ties it
    is 1. *)
Theorem tie_correction_formula (x U : list Q) :
  let N := Z.of_nat (length x) in
  ((1 < N)%Z → (N ^ 3 - N ≠ 0)%Z) ∧
  ((N ≤ 2097152)%Z → distinct_values x U →
     tie_correction x = Fin (spec_tie_correction x U)) ∧
  ((N ≤ 1)%Z → tie_correction x = Fin 1) ∧
  (no_ties x → ∃ q, tie_correction x = Fin q ∧ q == 1).
Proof.
  intros N. split; [intros HN; by apply tie_correction_many|].
  split; [|split; [apply tie_correction_few|]].
  - intros Hsize HU. unfold spec_tie_correction. fold N.
    destruct (Z_lt_le_dec 1 N) as [HN|HN].
    + destruct (tie_correction_many x HN) as [_ ->].
      rewrite (proj2 (Z.leb_gt N 1) HN).
      by rewrite counts_sum_int64, <- (spec_tie_sum_counts x U).
    + rewrite (tie_correction_few x HN). by rewrite (proj2 (Z.leb_le N 1) HN).
  - intros Hnt. destruct (Z_lt_le_dec 1 N) as [HN|HN].
    + destruct (tie_correction_many x HN) as [_ ->]. eexists. split; [done|].
      rewrite tie_term_no_ties by done. unfold Qdiv. rewrite Qmult_0_l. ring.
    + rewrite (tie_correction_few x HN). by exists 1.
Qed.

Lemma tie_correction_formula_witness :
  tie_correction [1; 2; 3; 1; 2; 3]
    = Fin (spec_tie_correction [1; 2; 3; 1; 2; 3] [1; 2; 3]) ∧
  spec_tie_correction [1; 2; 3; 1; 2; 3] [1; 2; 3] == 32 # 35.
Proof.
  split; [|by vm_compute].
  apply (proj1 (proj2 (tie_correction_formula [1; 2; 3; 1; 2; 3] [1; 2; 3]))).
  - simpl. lia.
  - exact (np_unique_distinct [1; 2; 3; 1; 2; 3]).
Defined.

(** *** Many equal observations *)

Lemma np_unique_replicate (n : nat) (a : Q) :
  (0 < n)%nat → np_unique (replicate n a) = [a].
Proof.
  destruct n as [|n]; [lia|]. intros _.
  induction n as [|n IH]; [done|].
  change (np_unique (replicate (S (S n)) a))
    with (insert_unique a (np_unique (replicate (S n) a))).
  rewrite IH. cbn [insert_unique].
  rewrite (proj2 (Qltb_ge a a)) by apply Qle_refl.
  by rewrite Qeq_bool_refl.
Qed.

Lemma multiplicity_replicate (n : nat) (a : Q) :
  multiplicity (replicate n a) a = Z.of_nat n.
Proof.
  unfold multiplicity. f_equal. induction n as [|n IH]; [done|].
  cbn [replicate]. rewrite count_if_cons, Qeq_bool_refl, IH. lia.
Qed.

Lemma distinct_values_replicate (n : nat) (a : Q) :
  (0 < n)%nat → distinct_values (replicate n a) [a].
Proof.
  intros Hn. rewrite <- (np_unique_replicate n a Hn).
  apply np_unique_distinct.
Qed.

Lemma tie_term_replicate (n : nat) (a : Q) :
  (0 < n)%nat →
  tie_term (replicate n a) = int64 (Z.of_nat n ^ 3 - Z.of_nat n).
Proof.
  intros Hn. rewrite tie_term_wrapped. unfold unique_counts.
  rewrite np_unique_replicate by done. cbn [fmap list_fmap Zsum foldr].
  fold (multiplicity (replicate n a) a). rewrite multiplicity_replicate.
  f_equal. lia.
Qed.

(** C8 as it is written covers every pooled count: with 2097153 equal
    observations the cube of the count does not fit [int64], the tie term
    of the code is negative, and the tie correction is not the value of
    the formula, which is 0. *)
Lemma tie_correction_int64_wraps :
  let x := replicate (Z.to_nat 2097153) 1 in
  distinct_values x [1] ∧
  (1 < Z.of_nat (length x))%Z ∧
  spec_tie_sum x [1] = (2097153 ^ 3 - 2097153)%Z ∧
  tie_term x = (2097153 ^ 3 - 2097153 - 2 ^ 64)%Z ∧
  tie_correction x ≠ Fin (spec_tie_correction x [1]).
Proof.
  intros x.
  assert (0 < Z.to_nat 2097153)%nat as Hn by lia.
  assert (Z.of_nat (Z.to_nat 2097153) = 2097153%Z) as HN by lia.
  assert (Z.of_nat (length x) = 2097153%Z) as Hlen.
  { unfold x. by rewrite length_replicate. }
  assert (spec_tie_sum x [1] = (2097153 ^ 3 - 2097153)%Z) as Hsum.
  { unfold spec_tie_sum, x. cbn [fmap list_fmap Zsum foldr].
    rewrite multiplicity_replicate, HN. reflexivity. }
  assert (tie_term x = (2097153 ^ 3 - 2097153 - 2 ^ 64)%Z) as Hterm.
  { unfold x. rewrite tie_term_replicate, HN by done. reflexivity. }
  split; [by apply distinct_values_replicate|].
  split; [lia|]. split; [done|]. split; [done|].
  unfold tie_correction, spec_tie_correction.
  rewrite Hlen, Hterm, Hsum. intros Heq. vm_compute in Heq. discriminate Heq.
Qed.

(** *** Rank sums of the two halves *)

Lemma filter_zip_same {A} `{EqDecision A} (r : list Q) (g : A) :
  (List.filter (λ rl : Q * A, bool_decide (rl.2 = g))
     (zip r (replicate (length r) g))).*1 = r.
Proof.
  induction r as [|q r IH]; [done|].
  cbn [length replicate zip zip_with List.filter snd].
  rewrite bool_decide_eq_true_2 by done. rewrite fmap_cons. by f_equal.
Qed.

Lemma filter_zip_other {A} `{EqDecision A} (r : list Q) (n : nat) (g g' : A) :
  g' ≠ g →
  List.filter (λ rl : Q * A, bool_decide (rl.2 = g)) (zip r (replicate n g'))
  = [].
Proof.
  intros Hne. revert n. induction r as [|q r IH]; intros [|n]; try done.
  cbn [replicate zip zip_with List.filter snd].
  rewrite bool_decide_eq_false_2 by done. apply IH.
Qed.

Lemma Qinv_one_pos (a : Q) : 0 < a → 0 < 1 / a.
Proof.
  intros Ha. unfold Qdiv. rewrite Qmult_1_l. by apply Qinv_lt_0_compat.
Qed.

Lemma inject_nat_pos (n : nat) : (0 < n)%nat → 0 < inject_Z (Z.of_nat n).
Proof. intros Hn. change 0 with (inject_Z 0). rewrite <- Zlt_Qlt. lia. Qed.

Section twin_groups.
Context {GroupId : Type} `{Countable GroupId} `{PyFloat GroupId}.
Variables (np_sqrt norm_sf : Q → Q).

(** The square root of a positive number is not zero, and half of the
    standard normal distribution lies above zero. *)
Hypothesis np_sqrt_pos : ∀ x, 0 < x → ¬ np_sqrt x == 0.
Hypothesis norm_sf_0 : ∀ z, z == 0 → norm_sf z == 1#2.

(** Equal mean ranks over a positive variance give the p-value 1. *)
Lemma raw_p_of_equal_means (v : Q) (r : list Q) (labels : list GroupId)
    (pair : GroupId * GroupId) :
  let n1 := inject_Z (Z.of_nat (group_size labels pair.1)) in
  let n2 := inject_Z (Z.of_nat (group_size labels pair.2)) in
  rank_sum r labels pair.1 / n1 == rank_sum r labels pair.2 / n2 →
  0 < (1 / n1 + 1 / n2) * v →
  ∃ q, raw_p_of np_sqrt norm_sf (Fin v) r labels pair = Fin q ∧ q == 1.
Proof.
  intros n1 n2 Hmeans Hpos. unfold raw_p_of. fold n1 n2.
  cbn [fmul f_sqrt].
  rewrite (proj2 (Qltb_ge _ 0)) by (by apply Qlt_le_weak).
  cbn [fdiv_by]. unfold fdiv.
  destruct (Qeq_bool (np_sqrt ((1 / n1 + 1 / n2) * v)) 0) eqn:Hs.
  { apply Qeq_bool_iff in Hs. by destruct (np_sqrt_pos _ Hpos). }
  cbn [fabs f_sf fmul]. eexists. split; [done|].
  rewrite norm_sf_0; [reflexivity|].
  rewrite Hmeans. unfold Qminus. rewrite Qplus_opp_r.
  unfold Qdiv. by rewrite Qmult_0_l.
Qed.

(** Clipping leaves 1 alone. *)
Lemma np_clip01_one (q : Q) : q == 1 → np_clip01 (Fin q) = Fin q.
Proof.
  intros Hq. unfold np_clip01, np_maximum, np_minimum, flt.
  rewrite (proj2 (Qltb_ge q 0)) by (rewrite Hq; done).
  by rewrite (proj2 (Qltb_ge 1 q)) by (rewrite Hq; apply Qle_refl).
Qed.

Lemma adjust_single p_adjust (q : Q) :
  supported p_adjust = true → q == 1 →
  ∃ q', adjust p_adjust [Fin q] = Ok [Fin q'] ∧ q' == 1.
Proof.
  intros Hs Hq. unfold supported in Hs. unfold adjust.
  assert (1 * q == 1) as Hq' by (by rewrite Qmult_1_l).
  destruct (String.eqb (py_lower p_adjust) "holm").
  - exists (1 * q). split; [|done].
    change (holm_adjust [Fin q]) with [np_clip01 (Fin (1 * q))].
    by rewrite np_clip01_one.
  - simpl in Hs. rewrite Hs. exists (1 * q). split; [|done].
    change (mret ((λ p, np_clip01 (fmul (inject_Z (Z.of_nat (length [Fin q]))) p))
                    <$> [Fin q]))
      with (Ok [np_clip01 (Fin (1 * q))]).
    by rewrite np_clip01_one.
Qed.

(** C4, as the code has it.  Two groups whose identifiers convert with
    [float] and whose observations are the same sequence, not all equal,
    get the adjusted p-value 1 for their pair, with "holm" and with
    "bonferroni". *)
Theorem dunn_posthoc_identical_groups (g1 g2 : GroupId) (vs : list Q)
    (a b : Q) (p_adjust : string) :
  g1 ≠ g2 → is_Some (py_float g1) → is_Some (py_float g2) →
  a ∈ vs → b ∈ vs → ¬ a == b →
  supported p_adjust = true →
  ∃ key q,
    pair_key g1 g2 = Ok key ∧
    dunn_posthoc np_sqrt norm_sf [(g1, vs); (g2, vs)] p_adjust
      = Ok {[ key := Fin q ]} ∧
    q == 1.
Proof.
  intros Hg12 Hf1 Hf2 Ha Hb Hab Hs.
  destruct (pair_key_total g1 g2 Hf1 Hf2) as [key Hkey].
  assert (0 < length vs)%nat as Hn.
  { destruct vs; [by apply elem_of_nil in Ha|simpl; lia]. }
  set (groups := [(g1, vs); (g2, vs)]).
  assert (NoDup (dict_keys groups)) as Hnd.
  { unfold groups, dict_keys. simpl. apply NoDup_cons. split.
    - by intros ->%list_elem_of_singleton.
    - apply NoDup_singleton. }
  assert (nonempty_keys groups = [g1; g2]) as Hnk.
  { unfold nonempty_keys, groups. cbn [List.filter snd].
    destruct (length vs); [lia|done]. }
  unfold dunn_posthoc.
  change (concatenate groups.*2) with (Ok (A:=list Q) (vs ++ vs ++ [])).
  rewrite app_nil_r. cbn [mbind result_bind].
  rewrite dunn_pairs, Hnk by done. cbn [index_pairs fmap list_fmap app].
  set (x := vs ++ vs). set (labels := labels_of groups).
  assert (group_size labels g1 = length vs) as Hn1.
  { apply group_size_present; [done|]. by left. }
  assert (group_size labels g2 = length vs) as Hn2.
  { apply group_size_present; [done|]. right. by left. }
  assert (rank_sum (rankdata x) labels g1 = rank_sum (rankdata x) labels g2)
    as Hranks.
  { unfold rank_sum, rankdata, x, labels, groups.
    rewrite fmap_app.
    change (labels_of [(g1, vs); (g2, vs)])
      with (replicate (length vs) g1 ++ replicate (length vs) g2 ++ []).
    rewrite app_nil_r.
    set (f := λ v : Q, _).
    rewrite zip_with_app by (by rewrite length_fmap, length_replicate).
    rewrite !List.filter_app, !fmap_app.
    replace (length vs) with (length (f <$> vs)) by apply length_fmap.
    rewrite !filter_zip_same.
    rewrite (filter_zip_other _ _ g1 g2) by done.
    rewrite (filter_zip_other _ _ g2 g1) by done.
    by rewrite app_nil_r. }
  assert (length x = (length vs + length vs)%nat) as Hlenx
    by (unfold x; apply length_app).
  destruct (tie_correction_many x) as [HD Htc]; [lia|].
  pose proof (tie_term_lt x a b) as Hlt.
  assert (a ∈ x) as Hax by (apply elem_of_app; by left).
  assert (b ∈ x) as Hbx by (apply elem_of_app; by left).
  specialize (Hlt Hax Hbx Hab).
  rewrite Htc. cbn [fmul].
  match goal with |- context [raw_p_of _ _ (Fin ?v) ?r ?l ?pr] =>
    destruct (raw_p_of_equal_means v r l pr) as (q & Hraw & Hq) end.
  { cbn [fst snd]. by rewrite Hranks, Hn1, Hn2. }
  { cbn [fst snd]. rewrite Hn1, Hn2.
    pose proof (inject_nat_pos (length vs) Hn) as Hnq.
    pose proof (inject_nat_pos (length x) ltac:(lia)) as HNq.
    apply Qmult_lt_0_compat.
    - pose proof (Qinv_one_pos _ Hnq).
      apply Qlt_le_trans with (1 / inject_Z (Z.of_nat (length vs)) + 0);
        [by rewrite Qplus_0_r|].
      apply Qplus_le_r. by apply Qlt_le_weak.
    - apply Qmult_lt_0_compat.
      + unfold Qdiv. apply Qmult_lt_0_compat; [|done].
        apply Qmult_lt_0_compat; [done|].
        apply Qlt_trans with (inject_Z (Z.of_nat (length x)) + 0);
          [by rewrite Qplus_0_r|]. by apply Qplus_lt_r.
      + unfold Qminus. rewrite <- Qlt_minus_iff.
        apply Qlt_shift_div_r.
        * change 0 with (inject_Z 0). rewrite <- Zlt_Qlt.
          apply cube_minus_pos. lia.
        * rewrite Qmult_1_l. by rewrite <- Zlt_Qlt. }
  rewrite Hraw.
  destruct (adjust_single p_adjust q Hs Hq) as (q' & -> & Hq').
  exists key, q'. split; [done|]. split; [|done].
  cbn [mbind result_bind zip zip_with for_each]. unfold store_pair. cbn [fst snd].
  rewrite Hkey. done.
Qed.

End twin_groups.

Lemma sample_sqrt_pos (x : Q) : 0 < x → ¬ sample_sqrt x == 0.
Proof.
  unfold sample_sqrt, Qdiv. intros Hx [Heq|Heq]%Qmult_integral.
  - lra.
  - assert (0 < / (1 + x)) as Hinv by (apply Qinv_lt_0_compat; lra).
    rewrite Heq in Hinv. by apply Qlt_irrefl in Hinv.
Qed.

Lemma sample_sf_0 (z : Q) : z == 0 → sample_sf z == 1#2.
Proof. unfold sample_sf. intros ->. reflexivity. Qed.

Lemma dunn_posthoc_identical_groups_witness :
  KNum 1 ≠ KNum 2 ∧ 1 ∈ [1; 2; 3] ∧ 2 ∈ [1; 2; 3] ∧ ¬ 1 == 2 ∧
  supported "holm" = true ∧ supported "bonferroni" = true ∧
  (∃ key q,
     pair_key (KNum 1) (KNum 2) = Ok key ∧
     dunn_posthoc sample_sqrt sample_sf twin_groups "holm"
       = Ok {[ key := Fin q ]} ∧ q == 1) ∧
  (∃ key q,
     pair_key (KNum 1) (KNum 2) = Ok key ∧
     dunn_posthoc sample_sqrt sample_sf twin_groups "bonferroni"
       = Ok {[ key := Fin q ]} ∧ q == 1).
Proof.
  assert (KNum 1 ≠ KNum 2) as Hne by done.
  assert (1 ∈ [1; 2; 3]) as H1 by (by left).
  assert (2 ∈ [1; 2; 3]) as H2 by (right; by left).
  assert (¬ 1 == 2) as H12 by done.
  assert (is_Some (py_float (KNum 1))) as Hf1 by (by eexists).
  assert (is_Some (py_float (KNum 2))) as Hf2 by (by eexists).
  repeat (split; [done|]).
  split;
    apply (dunn_posthoc_identical_groups sample_sqrt sample_sf
             sample_sqrt_pos sample_sf_0 (KNum 1) (KNum 2) [1; 2; 3] 1 2);
    done.
Defined.

(** C4 as it is written: with the identifiers "A" and "B", [float] raises
    when the result is filled, whatever the method; and two groups whose
    observations are all the same number get NaN, out of [0 / 0]. *)
Lemma dunn_posthoc_named_twins_raise :
  dunn_posthoc sample_sqrt sample_sf named_twin_groups "holm"
    = Raise ValueError_float ∧
  dunn_posthoc sample_sqrt sample_sf named_twin_groups "bonferroni"
    = Raise ValueError_float ∧
  dunn_posthoc sample_sqrt sample_sf constant_twin_groups "holm"
    = Ok {[ (KNum 1, KNum 2) := NaN ]}.
Proof. split; [|split]; by vm_compute. Qed.

(** * Further properties *)

(** ** Order on floats *)

Lemma fle_refl (a : float) : a ≠ NaN → fle a a = true.
Proof.
  destruct a; unfold fle; simpl; try done.
  intros _. apply Qle_bool_iff, Qle_refl.
Qed.

Lemma fle_trans (a b c : float) :
  fle a b = true → fle b c = true → fle a c = true.
Proof.
  destruct a, b, c; unfold fle; simpl; try done.
  rewrite !Qle_bool_iff. apply Qle_trans.
Qed.

Lemma flt_fle (a b : float) : flt a b = true → fle a b = true.
Proof.
  destruct a, b; unfold fle; simpl; try done.
  rewrite Qltb_lt, Qle_bool_iff. apply Qlt_le_weak.
Qed.

Lemma not_flt_fle (a b : float) :
  a ≠ NaN → b ≠ NaN → flt a b = false → fle b a = true.
Proof.
  destruct a, b; unfold fle; simpl; try done.
  intros _ _. by rewrite Qltb_ge, Qle_bool_iff.
Qed.

Lemma np_lt_fle (a b : float) : b ≠ NaN → np_lt a b = true → fle a b = true.
Proof. destruct a, b; try done; intros _; apply flt_fle. Qed.

Lemma np_maximum_not_NaN (a b : float) :
  a ≠ NaN → b ≠ NaN → np_maximum a b ≠ NaN.
Proof. destruct a, b; simpl; try done; by destruct (Qltb _ _). Qed.

Lemma np_maximum_ge_l (a b : float) :
  a ≠ NaN → b ≠ NaN → fle a (np_maximum a b) = true.
Proof.
  intros Ha Hb. unfold np_maximum.
  destruct (flt a b) eqn:Hlt.
  - destruct a, b; try done; by apply flt_fle.
  - destruct a, b; try done; by apply fle_refl.
Qed.

Lemma np_maximum_ge_r (a b : float) :
  a ≠ NaN → b ≠ NaN → fle b (np_maximum a b) = true.
Proof.
  intros Ha Hb. unfold np_maximum.
  destruct (flt a b) eqn:Hlt.
  - destruct a, b; try done; by apply fle_refl.
  - destruct a, b; try done; by apply not_flt_fle.
Qed.

Lemma np_maximum_le (a b c : float) :
  fle a c = true → fle b c = true → fle (np_maximum a b) c = true.
Proof.
  intros Ha Hb. unfold np_maximum.
  destruct a, b; try done; by destruct (flt _ _).
Qed.

Lemma np_clip01_NaN : np_clip01 NaN = NaN.
Proof. done. Qed.

Lemma np_clip01_range (x : float) : x ≠ NaN → in01 (np_clip01 x).
Proof.
  destruct x as [| |q|]; try done; intros _; unfold np_clip01; simpl.
  - destruct (Qltb q 0) eqn:H0; simpl.
    + split; [apply Qle_refl|done].
    + apply Qltb_ge in H0. destruct (Qltb 1 q) eqn:H1; simpl.
      * split; [done|apply Qle_refl].
      * apply Qltb_ge in H1. done.
Qed.

Lemma np_clip01_mono (x y : float) :
  fle x y = true → fle (np_clip01 x) (np_clip01 y) = true.
Proof.
  destruct x as [| |p|], y as [| |q|]; unfold fle; try done;
    unfold np_clip01; simpl; intros Hle;
    repeat match goal with
    | |- context [Qltb ?a ?b] =>
        let H := fresh "H" in destruct (Qltb a b) eqn:H; simpl;
        [apply Qltb_lt in H|apply Qltb_ge in H]
    end;
    try apply Qle_bool_iff in Hle; try apply Qle_bool_iff; try done; lra.
Qed.

(** ** Further properties of [holm_adjust] *)

Section holm_further.
Implicit Types (pvals : list float).

Lemma length_argsort pvals : length (argsort pvals) = length pvals.
Proof. by rewrite argsort_perm, length_seq. Qed.

Lemma argsort_bound pvals i a :
  argsort pvals !! i = Some a → (i < length pvals ∧ a < length pvals)%nat.
Proof.
  intros Hi. split.
  - rewrite <- length_argsort. by apply lookup_lt_Some with a.
  - apply list_elem_of_lookup_2 in Hi. rewrite argsort_perm in Hi.
    apply elem_of_seq in Hi. lia.
Qed.

Lemma argsort_position pvals a :
  (a < length pvals)%nat → ∃ i, argsort pvals !! i = Some a.
Proof.
  intros Ha. apply list_elem_of_lookup. rewrite argsort_perm.
  apply elem_of_seq. lia.
Qed.

(** The entry written at the position of the i-th smallest p-value. *)
Lemma holm_adjust_lookup pvals i a :
  argsort pvals !! i = Some a →
  holm_adjust pvals !! a
  = Some (np_clip01 (running_max (holm_candidate pvals) i)).
Proof.
  intros Hi. destruct (argsort_bound pvals i a Hi) as [Hlt _].
  assert (length (take_at pvals (argsort pvals)) = length pvals) as Hlen
    by (unfold take_at; by rewrite length_fmap, length_argsort).
  unfold holm_adjust.
  erewrite put_at_lookup; [| | | |exact Hi].
  - rewrite list_lookup_fmap, maximum_accumulate_lookup
      by (by rewrite length_imap, Hlen).
    simpl. do 2 f_equal. apply running_max_ext. intros k Hk.
    destruct (lookup_lt_is_Some_2 (argsort pvals) k) as [b Hb];
      [rewrite length_argsort; lia|].
    unfold holm_candidate.
    rewrite (list_lookup_total_correct (argsort pvals) k b Hb).
    apply list_lookup_total_correct.
    rewrite list_lookup_imap. unfold take_at. by rewrite list_lookup_fmap, Hb.
  - rewrite argsort_perm. apply NoDup_seq.
  - by rewrite length_fmap, length_maximum_accumulate, length_imap, Hlen,
      length_argsort.
  - intros b Hb. rewrite argsort_perm in Hb. apply elem_of_seq in Hb.
    unfold np_empty. rewrite length_replicate. lia.
Qed.

Lemma holm_adjust_lookup_inv pvals a y :
  holm_adjust pvals !! a = Some y →
  ∃ i, argsort pvals !! i = Some a ∧
       y = np_clip01 (running_max (holm_candidate pvals) i).
Proof.
  intros Hy. assert (a < length pvals)%nat as Ha.
  { rewrite <- length_holm_adjust. by apply lookup_lt_Some with y. }
  destruct (argsort_position pvals a Ha) as [i Hi]. exists i. split; [done|].
  rewrite (holm_adjust_lookup pvals i a Hi) in Hy. congruence.
Qed.

(** The p-value behind the k-th candidate. *)
Lemma holm_candidate_source pvals k :
  (k < length pvals)%nat →
  ∃ a p, argsort pvals !! k = Some a ∧ pvals !! a = Some p ∧
    holm_candidate pvals k
    = fmul (inject_Z (Z.of_nat (length pvals) - Z.of_nat k)) p.
Proof.
  intros Hk.
  destruct (lookup_lt_is_Some_2 (argsort pvals) k) as [a Ha];
    [rewrite length_argsort; lia|].
  destruct (argsort_bound pvals k a Ha) as [_ Hlt].
  destruct (lookup_lt_is_Some_2 pvals a Hlt) as [p Hp].
  exists a, p. split; [done|]. split; [done|]. unfold holm_candidate.
  by rewrite (list_lookup_total_correct _ _ _ Ha),
    (list_lookup_total_correct _ _ _ Hp).
Qed.

Lemma multiplier_pos (m k : nat) :
  (k < m)%nat → 0 < inject_Z (Z.of_nat m - Z.of_nat k).
Proof. intros Hk. change 0 with (inject_Z 0). rewrite <- Zlt_Qlt. lia. Qed.

Lemma fmul_pos_not_NaN (c : Q) (p : float) : 0 < c → p ≠ NaN → fmul c p ≠ NaN.
Proof.
  intros Hc Hp. destruct p; simpl; try done;
    by rewrite (proj2 (Qltb_lt 0 c) Hc).
Qed.

Lemma holm_candidate_not_NaN pvals k :
  NaN ∉ pvals → (k < length pvals)%nat → holm_candidate pvals k ≠ NaN.
Proof.
  intros Hnan Hk.
  destruct (holm_candidate_source pvals k Hk) as (a & p & _ & Hp & ->).
  apply fmul_pos_not_NaN; [by apply multiplier_pos|].
  intros ->. apply Hnan. by apply list_elem_of_lookup_2 with a.
Qed.

Lemma running_max_not_NaN pvals i :
  NaN ∉ pvals → (i < length pvals)%nat →
  running_max (holm_candidate pvals) i ≠ NaN.
Proof.
  intros Hnan. induction i as [|i IH]; intros Hi; simpl.
  - by apply holm_candidate_not_NaN.
  - apply np_maximum_not_NaN; [apply IH; lia|by apply holm_candidate_not_NaN].
Qed.

Lemma running_max_mono pvals i j :
  NaN ∉ pvals → (i ≤ j)%nat → (j < length pvals)%nat →
  fle (running_max (holm_candidate pvals) i)
      (running_max (holm_candidate pvals) j) = true.
Proof.
  intros Hnan Hij. induction Hij as [|j Hij IH]; intros Hj.
  - apply fle_refl. by apply running_max_not_NaN.
  - apply fle_trans with (running_max (holm_candidate pvals) j); [apply IH; lia|].
    simpl. apply np_maximum_ge_l.
    + apply running_max_not_NaN; [done|lia].
    + by apply holm_candidate_not_NaN.
Qed.

Lemma holm_adjust_value pvals a y :
  holm_adjust pvals !! a = Some y →
  (y = NaN ∨ in01 y) ∧ (NaN ∉ pvals → in01 y).
Proof.
  intros (i & Hi & ->)%holm_adjust_lookup_inv.
  destruct (argsort_bound pvals i a Hi) as [Hlt _]. split.
  - destruct (running_max (holm_candidate pvals) i) eqn:Hrm; [by left|..];
      right; by apply np_clip01_range.
  - intros Hnan. apply np_clip01_range. by apply running_max_not_NaN.
Qed.

(** Every adjusted value is NaN or lies in [0, 1], and it lies in [0, 1]
    when no input is NaN. *)
Theorem holm_adjust_range pvals a y :
  holm_adjust pvals !! a = Some y →
  (y = NaN ∨ in01 y) ∧ (NaN ∉ pvals → in01 y).
Proof. apply holm_adjust_value. Qed.

Lemma holm_adjust_range_witness :
  (Fin (6#100) = NaN ∨ in01 (Fin (6#100))) ∧
  (NaN ∉ [Fin (4#100); Fin (1#100); Fin (3#100)] → in01 (Fin (6#100))).
Proof.
  apply (holm_adjust_range [Fin (4#100); Fin (1#100); Fin (3#100)] 0%nat).
  reflexivity.
Defined.

(** A strictly smaller raw p-value never gets the larger adjusted value. *)
Theorem holm_adjust_monotone pvals a b ya yb :
  NaN ∉ pvals →
  holm_adjust pvals !! a = Some ya → holm_adjust pvals !! b = Some yb →
  np_lt (pvals !!! a) (pvals !!! b) = true →
  fle ya yb = true.
Proof.
  intros Hnan (i & Hi & ->)%holm_adjust_lookup_inv
    (j & Hj & ->)%holm_adjust_lookup_inv Hlt.
  destruct (argsort_bound pvals j b Hj) as [Hjm _].
  apply np_clip01_mono, running_max_mono; [done| |done].
  destruct (le_lt_dec i j) as [?|Hji]; [done|].
  pose proof (StronglySorted_lookup (not_after pvals) (argsort pvals) j i b a
                (argsort_sorted pvals) Hji Hj Hi) as Hsorted.
  unfold not_after in Hsorted. congruence.
Qed.

Lemma holm_adjust_monotone_witness :
  fle (Fin (4#100)) (Fin (9#100)) = true.
Proof.
  apply (holm_adjust_monotone
           [Fin (4#100); Fin (1#100); Fin (3#100); Fin (5#10)]
           1%nat 2%nat (Fin (4#100)) (Fin (9#100))).
  - intros Hin. by repeat (apply elem_of_cons in Hin as [?|Hin]; [done|]);
      apply elem_of_nil in Hin.
  - reflexivity.
  - reflexivity.
  - reflexivity.
Defined.

Lemma running_max_ge_last pvals i :
  NaN ∉ pvals → (i < length pvals)%nat →
  fle (holm_candidate pvals i) (running_max (holm_candidate pvals) i) = true.
Proof.
  intros Hnan Hi. destruct i as [|i]; simpl.
  - apply fle_refl. by apply holm_candidate_not_NaN.
  - apply np_maximum_ge_r; [|by apply holm_candidate_not_NaN].
    apply running_max_not_NaN; [done|lia].
Qed.

Lemma running_max_le (cand : nat → float) (c : float) i :
  (∀ k, (k ≤ i)%nat → fle (cand k) c = true) →
  fle (running_max cand i) c = true.
Proof.
  induction i as [|i IH]; intros Hle; simpl.
  - by apply Hle.
  - apply np_maximum_le; [apply IH; intros k ?; apply Hle; lia|by apply Hle].
Qed.

Lemma holm_adjust_lower pvals a q y :
  Forall (λ p, ∃ r, p = Fin r ∧ 0 <= r) pvals →
  pvals !! a = Some (Fin q) →
  holm_adjust pvals !! a = Some y →
  fle (np_clip01 (Fin q)) y = true.
Proof.
  intros Hfin Ha (i & Hi & ->)%holm_adjust_lookup_inv.
  rewrite Forall_forall in Hfin.
  assert (NaN ∉ pvals) as Hnan by (by intros (r & ? & _)%Hfin).
  destruct (argsort_bound pvals i a Hi) as [Hlt _].
  assert (0 <= q) as Hq.
  { destruct (Hfin (Fin q)) as (r & [= ->] & ?); [|done].
    by apply list_elem_of_lookup_2 with a. }
  apply np_clip01_mono.
  apply fle_trans with (holm_candidate pvals i);
    [|by apply running_max_ge_last].
  destruct (holm_candidate_source pvals i Hlt) as (b & p & Hb & Hp & ->).
  assert (b = a) as -> by congruence.
  assert (p = Fin q) as -> by congruence.
  unfold fle. simpl. apply Qle_bool_iff.
  assert (1 <= inject_Z (Z.of_nat (length pvals) - Z.of_nat i)) as Hc.
  { change 1 with (inject_Z 1). rewrite <- Zle_Qle. lia. }
  nra.
Qed.

Lemma holm_adjust_upper pvals a q y :
  Forall (λ p, ∃ r, p = Fin r ∧ 0 <= r) pvals →
  pvals !! a = Some (Fin q) →
  holm_adjust pvals !! a = Some y →
  fle y (np_clip01 (fmul (inject_Z (Z.of_nat (length pvals))) (Fin q))) = true.
Proof.
  intros Hfin Ha (i & Hi & ->)%holm_adjust_lookup_inv.
  rewrite Forall_forall in Hfin.
  destruct (argsort_bound pvals i a Hi) as [Hlt _].
  assert (∀ k b, (k ≤ i)%nat → argsort pvals !! k = Some b →
            ∃ r, pvals !! b = Some (Fin r) ∧ 0 <= r ∧ r <= q) as Hsorted.
  { intros k b Hk Hb. destruct (argsort_bound pvals k b Hb) as [_ Hbm].
    destruct (lookup_lt_is_Some_2 pvals b Hbm) as [p Hp].
    destruct (Hfin p) as (r & -> & Hr); [by apply list_elem_of_lookup_2 with b|].
    exists r. split; [done|]. split; [done|].
    destruct (decide (k = i)) as [->|Hne].
    - assert (b = a) as -> by congruence.
      assert (r = q) as -> by congruence. apply Qle_refl.
    - pose proof (StronglySorted_lookup (not_after pvals) (argsort pvals)
                    k i b a (argsort_sorted pvals) ltac:(lia) Hb Hi) as Hba.
      unfold not_after in Hba.
      rewrite (list_lookup_total_correct _ _ _ Ha),
        (list_lookup_total_correct _ _ _ Hp) in Hba.
      simpl in Hba. by apply Qltb_ge in Hba. }
  apply np_clip01_mono, running_max_le. intros k Hk.
  destruct (holm_candidate_source pvals k ltac:(lia))
    as (b & p & Hb & Hp & ->).
  destruct (Hsorted k b Hk Hb) as (r & Hr & Hr0 & Hrq).
  assert (p = Fin r) as -> by congruence.
  unfold fle. simpl. apply Qle_bool_iff.
  assert (0 <= inject_Z (Z.of_nat (length pvals) - Z.of_nat k)) as Hc0.
  { change 0 with (inject_Z 0). rewrite <- Zle_Qle. lia. }
  assert (inject_Z (Z.of_nat (length pvals) - Z.of_nat k)
          <= inject_Z (Z.of_nat (length pvals))) as Hcm.
  { rewrite <- Zle_Qle. lia. }
  nra.
Qed.

(** For p-values that are finite and not negative, the adjusted value lies
    between the clipped raw value and the clipped Bonferroni value
    [m * p]. *)
Theorem holm_adjust_between pvals a q y :
  Forall (λ p, ∃ r, p = Fin r ∧ 0 <= r) pvals →
  pvals !! a = Some (Fin q) →
  holm_adjust pvals !! a = Some y →
  fle (np_clip01 (Fin q)) y = true ∧
  fle y (np_clip01 (fmul (inject_Z (Z.of_nat (length pvals))) (Fin q))) = true.
Proof.
  intros Hfin Ha Hy. split.
  - by apply (holm_adjust_lower pvals a).
  - by apply (holm_adjust_upper pvals a).
Qed.

Lemma holm_adjust_between_witness :
  fle (np_clip01 (Fin (3#100))) (Fin (9#100)) = true ∧
  fle (Fin (9#100)) (np_clip01 (fmul (inject_Z 4) (Fin (3#100)))) = true.
Proof.
  apply (holm_adjust_between
           [Fin (4#100); Fin (1#100); Fin (3#100); Fin (5#10)] 2%nat).
  - repeat apply Forall_cons_2; [..|apply Forall_nil_2];
      (eexists; split; [reflexivity|done]).
  - reflexivity.
  - reflexivity.
Defined.

(** A smallest p-value, whether alone or tied, is adjusted to the clipped
    [m * p]; so [m] equal p-values all come out as that value. *)
Theorem holm_adjust_smallest pvals a q y :
  Forall (λ p, ∃ r, p = Fin r ∧ 0 <= r ∧ q <= r) pvals →
  pvals !! a = Some (Fin q) →
  holm_adjust pvals !! a = Some y →
  fle y (np_clip01 (fmul (inject_Z (Z.of_nat (length pvals))) (Fin q))) = true ∧
  fle (np_clip01 (fmul (inject_Z (Z.of_nat (length pvals))) (Fin q))) y = true.
Proof.
  intros Hmin Ha Hy. split.
  - apply (holm_adjust_upper pvals a q y); [|done..].
    eapply Forall_impl; [exact Hmin|]. intros p (r & ? & ? & ?). eauto.
  - apply holm_adjust_lookup_inv in Hy as (i & Hi & ->).
    rewrite Forall_forall in Hmin.
    assert (NaN ∉ pvals) as Hnan by (by intros (r & ? & _)%Hmin).
    destruct (argsort_bound pvals i a Hi) as [Hlt _].
    apply np_clip01_mono.
    apply fle_trans with (running_max (holm_candidate pvals) 0);
      [|apply running_max_mono; [done|lia|done]].
    destruct (holm_candidate_source pvals 0 ltac:(lia))
      as (b & p & Hb & Hp & Hcand).
    simpl. rewrite Hcand.
    destruct (Hmin p) as (r & -> & Hr0 & Hqr);
      [by apply list_elem_of_lookup_2 with b|].
    unfold fle. simpl. apply Qle_bool_iff.
    rewrite Z.sub_0_r.
    assert (0 <= inject_Z (Z.of_nat (length pvals))) as Hm.
    { change 0 with (inject_Z 0). rewrite <- Zle_Qle. lia. }
    nra.
Qed.

Lemma holm_adjust_smallest_witness :
  fle (Fin (4#100)) (np_clip01 (fmul (inject_Z 4) (Fin (1#100)))) = true ∧
  fle (np_clip01 (fmul (inject_Z 4) (Fin (1#100)))) (Fin (4#100)) = true.
Proof.
  apply (holm_adjust_smallest
           [Fin (4#100); Fin (1#100); Fin (3#100); Fin (1#100)] 3%nat).
  - repeat apply Forall_cons_2; [..|apply Forall_nil_2];
      (eexists; split; [reflexivity|done]).
  - reflexivity.
  - reflexivity.
Defined.

End holm_further.

(** ** Further properties of [dunn_posthoc] *)

Lemma tie_term_bounds (x : list Q) :
  (Z.of_nat (length x) ≤ 2097152)%Z →
  (0 ≤ tie_term x ≤ Z.of_nat (length x) ^ 3 - Z.of_nat (length x))%Z.
Proof. intros HN. rewrite counts_sum_int64 by done. apply counts_sum_bounds. Qed.

(** For up to 2097152 pooled observations, where the [int64] arithmetic
    cannot wrap, the tie correction is a number between 0 and 1, so the
    variance term is never negative and never NaN. *)
Theorem tie_correction_range (x : list Q) :
  (Z.of_nat (length x) ≤ 2097152)%Z → in01 (tie_correction x).
Proof.
  intros Hsize.
  destruct (Z_lt_le_dec 1 (Z.of_nat (length x))) as [HN|HN].
  - destruct (tie_correction_many x HN) as [HD ->].
    destruct (tie_term_bounds x Hsize) as [H0 Hle].
    pose proof (cube_minus_pos _ HN) as Hpos.
    set (D := (Z.of_nat (length x) ^ 3 - Z.of_nat (length x))%Z) in *.
    assert (0 < inject_Z D) as HDq
      by (change 0 with (inject_Z 0); by rewrite <- Zlt_Qlt).
    assert (0 <= inject_Z (tie_term x) / inject_Z D) as Hlo.
    { apply Qle_shift_div_l; [done|]. rewrite Qmult_0_l.
      change 0 with (inject_Z 0). by rewrite <- Zle_Qle. }
    assert (inject_Z (tie_term x) / inject_Z D <= 1) as Hhi.
    { apply Qle_shift_div_r; [done|]. rewrite Qmult_1_l. by rewrite <- Zle_Qle. }
    simpl. split; lra.
  - rewrite (tie_correction_few x HN). simpl. split; [done|apply Qle_refl].
Qed.

Lemma tie_correction_range_witness : in01 (tie_correction [1; 1; 2]).
Proof. apply (tie_correction_range [1; 1; 2]). simpl. lia. Defined.

Section dunn_further.
Context {GroupId : Type} `{Countable GroupId} `{PyFloat GroupId}.
Variables (np_sqrt norm_sf : Q → Q).
Implicit Types (groups : list (GroupId * list Q)) (g : GroupId).
Implicit Types (out : gmap (GroupId * GroupId) float).

(** *** The loop that fills the result *)

Lemma pair_key_raise g1 g2 :
  py_float g1 = None ∨ py_float g2 = None →
  pair_key g1 g2 = Raise ValueError_float.
Proof.
  unfold pair_key. intros [Hg|Hg]; rewrite Hg; simpl; [done|].
  by destruct (py_float g1).
Qed.

Lemma store_pairs_fail (pairs : list (GroupId * GroupId)) (ps : list float)
    out pr :
  length ps = length pairs → pr ∈ pairs →
  pair_key pr.1 pr.2 = Raise ValueError_float →
  for_each store_pair (zip pairs ps) out = Raise ValueError_float.
Proof.
  revert ps out. induction pairs as [|pr' pairs IH]; intros ps out Hlen Hin Hpr.
  - by apply elem_of_nil in Hin.
  - destruct ps as [|p ps]; [done|]. injection Hlen as Hlen.
    cbn [zip zip_with for_each].
    destruct (store_pair (pr', p) out) as [out'|e] eqn:Hstore; simpl.
    + apply elem_of_cons in Hin as [->|Hin]; [|by apply IH].
      unfold store_pair in Hstore. cbn [fst snd] in Hstore.
      by rewrite Hpr in Hstore.
    + by rewrite (store_pair_raise _ _ _ Hstore).
Qed.

Lemma store_pairs_values (kps : list ((GroupId * GroupId) * float)) out out'
    key p :
  for_each store_pair kps out = Ok out' → out' !! key = Some p →
  out !! key = Some p ∨ p ∈ kps.*2.
Proof.
  revert out. induction kps as [|kp kps IH]; intros out; simpl.
  - intros [= <-] ?. by left.
  - destruct (store_pair kp out) as [out1|e] eqn:Hstore; simpl; [|done].
    intros Hrun Hp. destruct (IH out1 Hrun Hp) as [Hout1|Hin].
    + unfold store_pair in Hstore.
      destruct (pair_key kp.1.1 kp.1.2) as [k|e]; simpl in Hstore; [|done].
      injection Hstore as <-. destruct (decide (k = key)) as [->|Hne].
      * rewrite lookup_insert_eq in Hout1. injection Hout1 as <-.
        right. by left.
      * rewrite lookup_insert_ne in Hout1 by done. by left.
    + right. by right.
Qed.

(** The pairs of a list of convertible identifiers are all stored. *)
Lemma store_index_pairs (nk : list GroupId) (ps : list float) :
  NoDup nk → Forall (λ g, is_Some (py_float g)) nk →
  length ps = length (index_pairs nk) →
  ∃ out, for_each store_pair (zip (index_pairs nk) ps) ∅ = Ok out.
Proof.
  intros Hnd Hnum Hlen. rewrite Forall_forall in Hnum.
  assert (∀ pr, pr ∈ index_pairs nk → pr.1 ∈ nk ∧ pr.2 ∈ nk) as Hin.
  { intros [a b] (i & j & _ & Hi & Hj)%elem_of_index_pairs.
    split; by eapply list_elem_of_lookup_2. }
  assert (∀ pr key, pair_key pr.1 pr.2 = Ok key →
            key = pr ∨ key = (pr.2, pr.1)) as Hshape.
  { intros [a b] key. unfold pair_key. simpl.
    destruct (py_float a), (py_float b); simpl; try done.
    destruct (flt _ _); intros [= <-]; [by right|by left]. }
  destruct (store_pairs_spec (index_pairs nk) ps ∅) as (out & Hrun & _).
  { done. }
  { intros pr [? ?]%Hin. apply pair_key_total; by apply Hnum. }
  { intros [a b] [c d] key Hpr Hpr' Hk1%Hshape Hk2%Hshape. simpl in *.
    destruct Hk1 as [->| ->], Hk2 as [Heq|Heq]; try done;
      injection Heq as <- <-; try done;
      by destruct (index_pairs_mirror nk a b). }
  { by apply index_pairs_NoDup. }
  { intros. apply lookup_empty. }
  by exists out.
Qed.

(** An identifier of a list of two or more sits in one of its pairs. *)
Lemma index_pairs_member (nk : list GroupId) g :
  NoDup nk → (2 ≤ length nk)%nat → g ∈ nk →
  ∃ pr, pr ∈ index_pairs nk ∧ (pr.1 = g ∨ pr.2 = g).
Proof.
  intros Hnd Hlen Hg.
  assert (∃ g', g' ∈ nk ∧ g' ≠ g) as (g' & Hg' & Hne).
  { destruct nk as [|a [|b nk]]; simpl in Hlen; try lia.
    apply NoDup_cons in Hnd as [Hab _].
    destruct (decide (a = g)) as [->|?].
    - exists b. split; [right; by left|]. intros ->. apply Hab. by left.
    - exists a. split; [by left|done]. }
  destruct (index_pairs_cover nk g g' Hg Hg' ltac:(done)) as [Hpr|Hpr].
  - exists (g, g'). split; [done|by left].
  - exists (g', g). split; [done|by right].
Qed.

(** What [dunn_posthoc] does, case by case: an empty dict fails in
    [np.concatenate]; otherwise an unsupported method fails at the branch
    on [p_adjust]; otherwise, with two or more non-empty groups one of
    which has an identifier [float] rejects, the loop that fills the
    result fails; in every other case a mapping is returned. *)
Theorem dunn_posthoc_outcome groups p_adjust :
  NoDup (dict_keys groups) →
  match dunn_posthoc np_sqrt norm_sf groups p_adjust with
  | Raise ValueError_concat => groups = []
  | Raise ValueError_p_adjust => groups ≠ [] ∧ supported p_adjust = false
  | Raise ValueError_float =>
      groups ≠ [] ∧ supported p_adjust = true ∧
      (2 ≤ length (nonempty_keys groups))%nat ∧
      ∃ g, g ∈ nonempty_keys groups ∧ py_float g = None
  | Ok _ =>
      groups ≠ [] ∧ supported p_adjust = true ∧
      ((length (nonempty_keys groups) < 2)%nat ∨
       Forall (λ g, is_Some (py_float g)) (nonempty_keys groups))
  end.
Proof.
  intros Hnd. destruct groups as [|gv groups]; [done|].
  set (gs := gv :: groups) in *. assert (gs ≠ []) as Hne by done.
  destruct (dunn_posthoc_unfold np_sqrt norm_sf gs p_adjust Hne Hnd)
    as (raw_p & Hlen & ->).
  destruct (supported p_adjust) eqn:Hs.
  2:{ by rewrite adjust_unsupported. }
  destruct (adjust_supported p_adjust raw_p Hs) as (adj_p & -> & Hlen').
  cbn [mbind result_bind].
  pose proof (nonempty_keys_NoDup gs Hnd) as Hnd'.
  destruct (le_lt_dec 2 (length (nonempty_keys gs))) as [Hk|Hk].
  - destruct (decide (Forall (λ g, is_Some (py_float g)) (nonempty_keys gs)))
      as [Hnum|Hbad].
    + destruct (store_index_pairs (nonempty_keys gs) adj_p Hnd' Hnum)
        as [out ->]; [congruence|]. eauto.
    + apply not_Forall_Exists in Hbad; [|apply _].
      apply Exists_exists in Hbad as (g & Hg & Hnone).
      assert (py_float g = None) as Hfloat.
      { destruct (py_float g) eqn:E; [|done]. destruct Hnone. eauto. }
      destruct (index_pairs_member (nonempty_keys gs) g Hnd' Hk Hg)
        as (pr & Hpr & Hside).
      rewrite (store_pairs_fail _ adj_p ∅ pr); [eauto 10|congruence|done|].
      apply pair_key_raise. destruct Hside as [-> | ->]; eauto.
  - destruct (nonempty_keys gs) as [|a [|b nk]]; simpl in Hk; try lia;
      simpl; eauto.
Qed.

End dunn_further.

Lemma dunn_posthoc_outcome_witness :
  NoDup (dict_keys named_twin_groups) ∧
  named_twin_groups ≠ [] ∧ supported "holm" = true ∧
  (2 ≤ length (nonempty_keys named_twin_groups))%nat ∧
  ∃ g, g ∈ nonempty_keys named_twin_groups ∧ py_float g = None.
Proof.
  assert (NoDup (dict_keys named_twin_groups)) as Hnd by compute_done.
  split; [done|].
  exact (dunn_posthoc_outcome sample_sqrt sample_sf named_twin_groups "holm" Hnd).
Defined.


Section dunn_values.
Context {GroupId : Type} `{Countable GroupId} `{PyFloat GroupId}.
Variables (np_sqrt norm_sf : Q → Q).
Implicit Types (groups : list (GroupId * list Q)).
Implicit Types (out : gmap (GroupId * GroupId) float).

Lemma adjust_value p_adjust (raw_p adj_p : list float) (y : float) :
  adjust p_adjust raw_p = Ok adj_p → y ∈ adj_p →
  (y = NaN ∨ in01 y) ∧ (NaN ∉ raw_p → in01 y).
Proof.
  unfold adjust.
  destruct (String.eqb (py_lower p_adjust) "holm").
  - intros [= <-] [a Ha]%list_elem_of_lookup. by apply (holm_adjust_value _ a).
  - destruct (String.eqb (py_lower p_adjust) "bonferroni"); [|done].
    intros [= <-] (p & -> & Hp)%list_elem_of_fmap. split.
    + destruct (fmul (inject_Z (Z.of_nat (length raw_p))) p) eqn:E;
        [by left|..]; right; by apply np_clip01_range.
    + intros Hnan. apply np_clip01_range.
      assert (0 < length raw_p)%nat as Hlen.
      { destruct raw_p; [by apply elem_of_nil in Hp|simpl; lia]. }
      apply fmul_pos_not_NaN; [by apply inject_nat_pos|]. by intros ->.
Qed.

Lemma zip_snd_elem {A B} (l : list A) (k : list B) (y : B) :
  y ∈ (zip l k).*2 → y ∈ k.
Proof.
  revert k. induction l as [|a l IH]; intros [|b k]; simpl;
    try by intros ?%elem_of_nil.
  intros [->|Hy]%elem_of_cons; [by left|right; by apply IH].
Qed.

(** Every p-value [dunn_posthoc] returns is NaN or lies in [0, 1]. *)
Theorem dunn_posthoc_range groups p_adjust out key p :
  dunn_posthoc np_sqrt norm_sf groups p_adjust = Ok out →
  out !! key = Some p →
  p = NaN ∨ in01 p.
Proof.
  unfold dunn_posthoc.
  destruct (concatenate groups.*2) as [x|e]; simpl; [|done].
  match goal with |- context [adjust p_adjust ?raw] =>
    destruct (adjust p_adjust raw) as [adj_p|e] eqn:Hadj end; simpl; [|done].
  intros Hrun Hp.
  destruct (store_pairs_values _ _ _ _ _ Hrun Hp) as [Hempty|Hin].
  { by rewrite lookup_empty in Hempty. }
  apply zip_snd_elem in Hin.
  by destruct (adjust_value _ _ _ _ Hadj Hin).
Qed.

(** *** When the p-values are numbers *)

Hypothesis np_sqrt_pos : ∀ x, 0 < x → ¬ np_sqrt x == 0.

Lemma raw_p_of_finite (v : Q) (r : list Q) (labels : list GroupId)
    (pair : GroupId * GroupId) :
  0 < v →
  (0 < group_size labels pair.1)%nat → (0 < group_size labels pair.2)%nat →
  ∃ q, raw_p_of np_sqrt norm_sf (Fin v) r labels pair = Fin q.
Proof.
  intros Hv Hn1 Hn2. unfold raw_p_of. cbn [fmul f_sqrt].
  set (n1 := inject_Z (Z.of_nat (group_size labels pair.1))).
  set (n2 := inject_Z (Z.of_nat (group_size labels pair.2))).
  assert (0 < (1 / n1 + 1 / n2) * v) as Hpos.
  { pose proof (Qinv_one_pos n1 (inject_nat_pos _ Hn1)).
    pose proof (Qinv_one_pos n2 (inject_nat_pos _ Hn2)).
    apply Qmult_lt_0_compat; [lra|done]. }
  rewrite (proj2 (Qltb_ge _ 0)) by (by apply Qlt_le_weak).
  cbn [fdiv_by]. unfold fdiv.
  destruct (Qeq_bool (np_sqrt ((1 / n1 + 1 / n2) * v)) 0) eqn:Hs.
  { apply Qeq_bool_iff in Hs. by destruct (np_sqrt_pos _ Hpos). }
  cbn [fabs f_sf fmul]. eauto.
Qed.

Lemma variance_pos (x : list Q) (a b : Q) :
  a ∈ x → b ∈ x → ¬ a == b →
  ∃ v, fmul (inject_Z (Z.of_nat (length x))
             * (inject_Z (Z.of_nat (length x)) + 1) / 12) (tie_correction x)
       = Fin v ∧ 0 < v.
Proof.
  intros Ha Hb Hab.
  assert (2 ≤ length x)%nat as Hlen.
  { destruct x as [|c [|d x]]; simpl; try lia.
    - by apply elem_of_nil in Ha.
    - apply list_elem_of_singleton in Ha as ->, Hb as ->. by destruct Hab. }
  destruct (tie_correction_many x) as [HD ->]; [lia|].
  pose proof (tie_term_lt x a b Ha Hb Hab) as Hlt.
  cbn [fmul]. eexists. split; [done|].
  pose proof (inject_nat_pos (length x) ltac:(lia)) as HN.
  apply Qmult_lt_0_compat.
  - unfold Qdiv. apply Qmult_lt_0_compat; [|done].
    apply Qmult_lt_0_compat; [done|lra].
  - unfold Qminus. rewrite <- Qlt_minus_iff. apply Qlt_shift_div_r.
    + change 0 with (inject_Z 0). rewrite <- Zlt_Qlt.
      apply cube_minus_pos. lia.
    + rewrite Qmult_1_l. by rewrite <- Zlt_Qlt.
Qed.

(** When the pooled observations are not all the same number, every
    p-value [dunn_posthoc] returns is a number in [0, 1], never NaN. *)
Theorem dunn_posthoc_finite groups p_adjust out key p (a b : Q) :
  a ∈ concat groups.*2 → b ∈ concat groups.*2 → ¬ a == b →
  dunn_posthoc np_sqrt norm_sf groups p_adjust = Ok out →
  out !! key = Some p →
  in01 p.
Proof.
  intros Ha Hb Hab. unfold dunn_posthoc.
  destruct (concatenate_cases groups.*2) as [[Hnil _]|[_ ->]].
  { rewrite Hnil in Ha. by apply elem_of_nil in Ha. }
  simpl.
  destruct (variance_pos (concat groups.*2) a b Ha Hb Hab) as (v & -> & Hv).
  match goal with |- context [adjust p_adjust ?raw] =>
    set (raw_p := raw);
    destruct (adjust p_adjust raw_p) as [adj_p|e] eqn:Hadj end; simpl; [|done].
  intros Hrun Hp.
  destruct (store_pairs_values _ _ _ _ _ Hrun Hp) as [Hempty|Hin].
  { by rewrite lookup_empty in Hempty. }
  apply zip_snd_elem in Hin.
  destruct (adjust_value _ _ _ _ Hadj Hin) as [_ Hfin]. apply Hfin.
  unfold raw_p. intros (pr & Hnan & Hpr)%list_elem_of_fmap.
  apply list_elem_of_In, List.filter_In in Hpr as [_ Hsize].
  apply negb_true_iff, orb_false_iff in Hsize as [H1 H2].
  apply Nat.eqb_neq in H1, H2.
  destruct (raw_p_of_finite v (rankdata (concat groups.*2)) (labels_of groups)
              pr Hv) as [q Hq]; [lia..|].
  congruence.
Qed.

End dunn_values.

Lemma twin_groups_result :
  ∃ out p, dunn_posthoc sample_sqrt sample_sf twin_groups "holm" = Ok out ∧
           out !! (KNum 1, KNum 2) = Some p.
Proof. vm_compute. eexists _, _. split; reflexivity. Qed.

Lemma dunn_posthoc_range_witness :
  ∃ out p, dunn_posthoc sample_sqrt sample_sf twin_groups "holm" = Ok out ∧
           out !! (KNum 1, KNum 2) = Some p ∧ (p = NaN ∨ in01 p).
Proof.
  destruct twin_groups_result as (out & p & Hrun & Hp).
  exists out, p. split; [done|]. split; [done|].
  exact (dunn_posthoc_range sample_sqrt sample_sf twin_groups "holm"
           out (KNum 1, KNum 2) p Hrun Hp).
Defined.

Lemma dunn_posthoc_finite_witness :
  1 ∈ concat twin_groups.*2 ∧ 2 ∈ concat twin_groups.*2 ∧ ¬ 1 == 2 ∧
  ∃ out p, dunn_posthoc sample_sqrt sample_sf twin_groups "holm" = Ok out ∧
           out !! (KNum 1, KNum 2) = Some p ∧ in01 p.
Proof.
  assert (1 ∈ concat twin_groups.*2) as H1 by (by left).
  assert (2 ∈ concat twin_groups.*2) as H2 by (right; by left).
  assert (¬ 1 == 2) as H12 by done.
  repeat (split; [done|]).
  destruct twin_groups_result as (out & p & Hrun & Hp).
  exists out, p. split; [done|]. split; [done|].
  exact (dunn_posthoc_finite sample_sqrt sample_sf sample_sqrt_pos
           twin_groups "holm" out (KNum 1, KNum 2) p 1 2 H1 H2 H12 Hrun Hp).
Defined.

(** *** Groups without observations *)

Section dunn_empty_groups.
Context {GroupId : Type} `{Countable GroupId} `{PyFloat GroupId}.
Variables (np_sqrt norm_sf : Q → Q).
Implicit Types (groups : list (GroupId * list Q)).

Lemma concat_drop_empty groups :
  concat (List.filter (λ gv, negb (Nat.eqb (length gv.2) 0)) groups).*2
  = concat groups.*2.
Proof.
  induction groups as [|[g vs] groups IH]; [done|].
  destruct vs as [|v vs]; cbn [List.filter snd length Nat.eqb negb].
  - by rewrite IH.
  - by rewrite !fmap_cons, !concat_cons, IH.
Qed.

Lemma labels_drop_empty groups :
  labels_of (List.filter (λ gv, negb (Nat.eqb (length gv.2) 0)) groups)
  = labels_of groups.
Proof.
  induction groups as [|[g vs] groups IH]; [done|].
  destruct vs as [|v vs]; cbn [List.filter snd length Nat.eqb negb].
  - by rewrite IH, labels_of_cons.
  - by rewrite !labels_of_cons, IH.
Qed.

Lemma nonempty_keys_drop_empty groups :
  nonempty_keys (List.filter (λ gv, negb (Nat.eqb (length gv.2) 0)) groups)
  = nonempty_keys groups.
Proof.
  unfold nonempty_keys. f_equal.
  induction groups as [|[g vs] groups IH]; [done|].
  cbn [List.filter snd]. destruct (negb (length vs =? 0)) eqn:E; [|done].
  cbn [List.filter snd]. rewrite E. by f_equal.
Qed.

Lemma drop_empty_keys groups :
  dict_keys (List.filter (λ gv, negb (Nat.eqb (length gv.2) 0)) groups)
  = nonempty_keys groups.
Proof. done. Qed.

(** [dunn_posthoc] gives the same outcome with the groups that have no
    observations left in the dict or taken out of it, as long as one group
    has observations. *)
Theorem dunn_posthoc_drop_empty groups p_adjust :
  NoDup (dict_keys groups) → nonempty_keys groups ≠ [] →
  dunn_posthoc np_sqrt norm_sf
    (List.filter (λ gv, negb (Nat.eqb (length gv.2) 0)) groups) p_adjust
  = dunn_posthoc np_sqrt norm_sf groups p_adjust.
Proof.
  intros Hnd Hne.
  set (kept := List.filter (λ gv, negb (Nat.eqb (length gv.2) 0)) groups).
  assert (NoDup (dict_keys kept)) as Hnd'.
  { unfold kept. rewrite drop_empty_keys. by apply nonempty_keys_NoDup. }
  assert (kept ≠ []) as Hkept.
  { intros Hnil. apply Hne. unfold nonempty_keys. fold kept. by rewrite Hnil. }
  assert (groups ≠ []) as Hgroups by (by intros ->).
  unfold dunn_posthoc.
  destruct (concatenate_cases kept.*2) as [[Hnil _]|[_ ->]];
    [by apply fmap_nil_inv in Hnil|].
  destruct (concatenate_cases groups.*2) as [[Hnil _]|[_ ->]];
    [by apply fmap_nil_inv in Hnil|].
  cbn [mbind result_bind].
  rewrite (dunn_pairs kept Hnd'), (dunn_pairs groups Hnd).
  unfold kept.
  by rewrite concat_drop_empty, labels_drop_empty, nonempty_keys_drop_empty.
Qed.

End dunn_empty_groups.

Lemma dunn_posthoc_drop_empty_witness :
  NoDup (dict_keys four_groups) ∧ nonempty_keys four_groups ≠ [] ∧
  dunn_posthoc sample_sqrt sample_sf
    [(KNum 10, [1; 4]); (KNum 5, [2; 3]); (KNum 3, [9])] "holm"
  = dunn_posthoc sample_sqrt sample_sf four_groups "holm".
Proof.
  assert (NoDup (dict_keys four_groups)) as Hnd by compute_done.
  assert (nonempty_keys four_groups ≠ []) as Hne by done.
  split; [done|]. split; [done|].
  exact (dunn_posthoc_drop_empty sample_sqrt sample_sf four_groups "holm"
           Hnd Hne).
Defined.

(** ** Further properties of [cld_letters] *)

Section cld_further.
Context {GroupId : Type} `{Countable GroupId} `{PyFloat GroupId}.
Implicit Types (pvals : gmap (GroupId * GroupId) float) (alpha : float).
Implicit Types (letters : gmap GroupId pystr) (groups : list GroupId).
Implicit Types (g h : GroupId) (L : letter).

(** *** Which exception, and when *)

Lemma nonsig_raise pvals alpha g h e :
  nonsig pvals alpha g h = Raise e → e = ValueError_float.
Proof.
  unfold nonsig, pair_key.
  destruct (py_float g); simpl; [|congruence].
  destruct (py_float h); simpl; [done|congruence].
Qed.

Lemma nonsig_not_float pvals alpha g h :
  py_float g = None ∨ py_float h = None →
  nonsig pvals alpha g h = Raise ValueError_float.
Proof.
  unfold nonsig, pair_key. intros [Hg|Hh].
  - by rewrite Hg.
  - rewrite Hh. by destruct (py_float g).
Qed.

Lemma all_nonsig_raise pvals alpha g members e :
  all_nonsig pvals alpha g members = Raise e → e = ValueError_float.
Proof.
  induction members as [|h ms IH]; simpl; [done|].
  destruct (nonsig pvals alpha g h) as [[]|e'] eqn:Hns; simpl; try done.
  intros [= <-]. by apply nonsig_raise in Hns.
Qed.

Lemma join_letters_raise pvals alpha groups g letter_list letters placed e :
  join_letters pvals alpha groups g letter_list letters placed = Raise e →
  e = ValueError_float.
Proof.
  revert letters placed.
  induction letter_list as [|L rest IH]; intros letters placed; simpl; [done|].
  destruct (all_nonsig pvals alpha g _) as [[]|e'] eqn:Hall; simpl;
    try apply IH.
  intros [= <-]. by apply all_nonsig_raise in Hall.
Qed.

Lemma place_group_raise pvals alpha groups g st e :
  place_group pvals alpha groups g st = Raise e → e = ValueError_float.
Proof.
  unfold place_group.
  destruct (join_letters pvals alpha groups g st.2 st.1 false)
    as [[letters placed]|e'] eqn:Hjoin; simpl.
  - by destruct placed.
  - intros [= <-]. by apply join_letters_raise in Hjoin.
Qed.

Lemma for_each_raise {A S} (body : A → S → result S) (todo : list A) (st : S)
    (e0 e : exn) :
  (∀ x s e', body x s = Raise e' → e' = e0) →
  for_each body todo st = Raise e → e = e0.
Proof.
  intros Hbody. revert st. induction todo as [|x todo IH]; intros st; [done|].
  cbn [for_each]. destruct (body x st) as [st'|e'] eqn:Hx; simpl; [apply IH|].
  intros [= <-]. by apply Hbody in Hx.
Qed.

(** What the assignment leaves alone. *)
Lemma place_group_frame pvals alpha groups g st st' :
  place_group pvals alpha groups g st = Ok st' →
  (∀ h, h ≠ g → st'.1 !! h = st.1 !! h) ∧ ∃ more, st'.2 = st.2 ++ more.
Proof.
  unfold place_group.
  intros ([letters placed] & Hjoin & Hplace)%bind_Ok.
  apply join_letters_spec in Hjoin as (joined & _ & Hoth & _).
  destruct placed; injection Hplace as <-; simpl.
  - split; [done|]. exists []. by rewrite app_nil_r.
  - split; [|by eexists]. intros h Hh. unfold add_letter.
    rewrite lookup_insert_ne by done. by apply Hoth.
Qed.

(** Every group after the first is tested against the first one, which
    holds the first letter. *)
Lemma place_group_fails pvals alpha g1 rest g st L0 ll :
  st.2 = L0 :: ll → has_letter st.1 L0 g1 = true →
  py_float g = None ∨ py_float g1 = None →
  place_group pvals alpha (g1 :: rest) g st = Raise ValueError_float.
Proof.
  intros Hll Hhas Hbad. unfold place_group. rewrite Hll.
  cbn [join_letters]. rewrite filter_cons_True by done.
  cbn [all_nonsig]. by rewrite nonsig_not_float.
Qed.

Lemma later_groups_fail pvals alpha g1 rest todo st L0 ll :
  st.2 = L0 :: ll → has_letter st.1 L0 g1 = true → g1 ∉ todo →
  (py_float g1 = None ∧ todo ≠ []) ∨ (∃ g, g ∈ todo ∧ py_float g = None) →
  for_each (place_group pvals alpha (g1 :: rest)) todo st
  = Raise ValueError_float.
Proof.
  revert st ll. induction todo as [|g todo IH]; intros st ll Hll Hhas Hg1 Hbad.
  { destruct Hbad as [[_ ?]|(g & ?%elem_of_nil & _)]; done. }
  cbn [for_each].
  destruct (place_group pvals alpha (g1 :: rest) g st) as [st'|e] eqn:Hplace;
    simpl; [|by rewrite (place_group_raise _ _ _ _ _ _ Hplace)].
  destruct (py_float g) as [fg|] eqn:Hfg;
    [|by rewrite (place_group_fails _ _ _ _ _ _ L0 ll) in Hplace by eauto].
  destruct (py_float g1) as [fg1|] eqn:Hfg1;
    [|by rewrite (place_group_fails _ _ _ _ _ _ L0 ll) in Hplace by eauto].
  apply place_group_frame in Hplace as [Hoth [more Hmore]].
  apply (IH st' (ll ++ more)).
  - by rewrite Hmore, Hll.
  - unfold has_letter, letters_of in *. rewrite Hoth; [done|].
    intros ->. apply Hg1. by left.
  - intros ?. apply Hg1. by right.
  - right. destruct Hbad as [[? _]|(g' & [->|Hg']%elem_of_cons & Hnone)];
      [done|congruence|eauto].
Qed.

Lemma first_group_placed pvals alpha groups g1 :
  place_group pvals alpha groups g1 (init_letters groups, [])
  = Ok (add_letter (init_letters groups) g1 (chr ord_a), [chr ord_a]).
Proof. done. Qed.

(** [cld_letters] raises only the conversion error of [float], and it does
    so exactly when the dict has two or more keys and one of them is not
    convertible. *)
Theorem cld_letters_outcome (group_means : list (GroupId * Q)) pvals alpha :
  NoDup (dict_keys group_means) →
  match cld_letters group_means pvals alpha with
  | Ok _ =>
      (length group_means < 2)%nat ∨
      Forall (λ g, is_Some (py_float g)) (dict_keys group_means)
  | Raise e =>
      e = ValueError_float ∧ (2 ≤ length group_means)%nat ∧
      ∃ g, g ∈ dict_keys group_means ∧ py_float g = None
  end.
Proof.
  intros Hnd. destruct (cld_letters_run group_means pvals alpha Hnd) as [-> _].
  pose proof (cld_groups_NoDup group_means Hnd) as Hnds.
  pose proof (sorted_desc_perm (λ g, default 0 (dict_get group_means g))
                (dict_keys group_means)) as Hperm.
  assert (length (dict_keys group_means) = length group_means) as Hlen
    by apply length_fmap.
  destruct (decide (Forall (λ g, is_Some (py_float g)) (dict_keys group_means)))
    as [Hnum|Hbad].
  { destruct (cld_letters_total group_means pvals alpha Hnum) as [letters ->].
    by right. }
  apply not_Forall_Exists in Hbad; [|apply _].
  apply Exists_exists in Hbad as (g & Hg & Hnone).
  assert (py_float g = None) as Hfloat.
  { destruct (py_float g) eqn:E; [|done]. destruct Hnone. eauto. }
  unfold cld_letters_greedy.
  set (groups := sorted_desc _ _) in *.
  assert (g ∈ groups) as Hgs by (by rewrite Hperm).
  destruct groups as [|g1 rest] eqn:Hgroups; [by apply elem_of_nil in Hgs|].
  cbn [for_each]. rewrite first_group_placed. cbn [mbind result_bind].
  apply NoDup_cons in Hnds as [Hg1 Hrest].
  destruct rest as [|g2 rest'].
  { cbn [for_each mbind result_bind mret result_ret]. left.
    apply Permutation_length in Hperm. simpl in Hperm. lia. }
  rewrite (later_groups_fail pvals alpha g1 (g2 :: rest') (g2 :: rest')
             _ (chr ord_a) []); [| done | | done |].
  - cbn [mbind result_bind]. split; [done|]. split; [|eauto].
    apply Permutation_length in Hperm. simpl in Hperm. lia.
  - unfold has_letter. cbn [fst]. rewrite letters_of_add_letter.
    apply bool_decide_eq_true. apply elem_of_app. right. by left.
  - apply elem_of_cons in Hgs as [->|Hgs]; [left|right; eauto]. by split.
Qed.

End cld_further.

Lemma cld_letters_outcome_witness :
  NoDup (dict_keys named_means) ∧
  ValueError_float = ValueError_float ∧ (2 ≤ length named_means)%nat ∧
  ∃ g, g ∈ dict_keys named_means ∧ py_float g = None.
Proof.
  assert (NoDup (dict_keys named_means)) as Hnd by compute_done.
  split; [done|].
  exact (cld_letters_outcome named_means ∅ (Fin (5#100)) Hnd).
Defined.

Section cld_shapes.
Context {GroupId : Type} `{Countable GroupId} `{PyFloat GroupId}.
Implicit Types (pvals : gmap (GroupId * GroupId) float) (alpha : float).
Implicit Types (letters : gmap GroupId pystr) (groups : list GroupId).
Implicit Types (g h : GroupId) (L : letter).

Lemma init_letters_of groups h : letters_of (init_letters groups) h = [].
Proof.
  unfold letters_of. rewrite init_letters_lookup. by destruct (decide _).
Qed.

Lemma place_groups_frame pvals alpha groups todo st st' h :
  for_each (place_group pvals alpha groups) todo st = Ok st' →
  h ∉ todo → st'.1 !! h = st.1 !! h.
Proof.
  revert st. induction todo as [|g todo IH]; intros st; simpl.
  - by intros [= <-].
  - intros (st1 & Hplace & Hrun)%bind_Ok Hh.
    apply place_group_frame in Hplace as [Hoth _].
    rewrite (IH st1 Hrun) by (intros ?; apply Hh; by right).
    apply Hoth. intros ->. apply Hh. by left.
Qed.

(** *** The group with the largest mean *)

(** The first group in descending order of mean ends with the letter "a"
    and nothing else. *)
Theorem cld_letters_top_group (group_means : list (GroupId * Q)) pvals alpha
    letters g :
  NoDup (dict_keys group_means) →
  cld_letters group_means pvals alpha = Ok letters →
  sorted_desc (λ g, default 0 (dict_get group_means g))
    (dict_keys group_means) !! 0%nat = Some g →
  letters !! g = Some [chr ord_a].
Proof.
  intros Hnd Hrun Hg.
  destruct (cld_letters_run group_means pvals alpha Hnd) as [Heq _].
  rewrite Heq in Hrun. clear Heq.
  pose proof (cld_groups_NoDup group_means Hnd) as Hnds.
  unfold cld_letters_greedy in Hrun.
  set (groups := sorted_desc _ _) in *.
  destruct groups as [|g1 rest] eqn:Hgroups; [done|].
  injection Hg as ->. apply NoDup_cons in Hnds as [Hg1 _].
  cbn [for_each] in Hrun. rewrite first_group_placed in Hrun.
  cbn [mbind result_bind] in Hrun.
  apply bind_Ok in Hrun as (st & Hrest & [= <-]).
  rewrite (place_groups_frame _ _ _ _ _ _ g Hrest Hg1). cbn [fst].
  unfold add_letter. by rewrite lookup_insert_eq, init_letters_of.
Qed.

(** *** No pair significant *)

Lemma join_first_letter pvals alpha groups g letters L :
  letters_of letters g = [] →
  (∀ h, h ∈ groups → h ≠ g → nonsig pvals alpha g h = Ok true) →
  join_letters pvals alpha groups g [L] letters false
  = Ok (add_letter letters g L, true).
Proof.
  intros Hg Hall. cbn [join_letters].
  assert (all_nonsig pvals alpha g
            (filter (λ h, has_letter letters L h = true) groups) = Ok true)
    as ->; [|done].
  apply all_nonsig_true, Forall_forall.
  intros h [Hhas Hh]%list_elem_of_filter. apply Hall; [done|].
  intros ->. apply has_letter_true in Hhas. rewrite Hg in Hhas.
  by apply elem_of_nil in Hhas.
Qed.

Lemma all_share_loop pvals alpha groups todo st :
  (∀ g h, g ∈ todo → h ∈ groups → h ≠ g → nonsig pvals alpha g h = Ok true) →
  NoDup todo → st.2 = [chr ord_a] →
  (∀ g, g ∈ todo → letters_of st.1 g = []) →
  ∃ st', for_each (place_group pvals alpha groups) todo st = Ok st' ∧
    (∀ g, g ∈ todo → st'.1 !! g = Some [chr ord_a]) ∧
    (∀ h, h ∉ todo → st'.1 !! h = st.1 !! h).
Proof.
  revert st. induction todo as [|g todo IH]; intros st Hall Hnd Hll Hnew.
  { exists st. split; [done|]. split; [by intros g ?%elem_of_nil|done]. }
  apply NoDup_cons in Hnd as [Hg Hnd]. cbn [for_each].
  assert (place_group pvals alpha groups g st
          = Ok (add_letter st.1 g (chr ord_a), [chr ord_a])) as Hplace.
  { unfold place_group. rewrite Hll, join_first_letter; [done| |].
    - apply Hnew. by left.
    - intros h ? ?. apply Hall; [by left|done..]. }
  rewrite Hplace. cbn [mbind result_bind].
  destruct (IH (add_letter st.1 g (chr ord_a), [chr ord_a]))
    as (st' & Hrun & Hdone & Hframe); [|done|done| |].
  { intros g' h ? ? ?. apply Hall; [by right|done..]. }
  { intros g' Hg'. cbn [fst]. rewrite letters_of_add_letter_ne.
    - apply Hnew. by right.
    - intros ->. done. }
  exists st'. split; [done|]. split.
  - intros g' [->|Hg']%elem_of_cons; [|by apply Hdone].
    rewrite Hframe by done. cbn [fst]. unfold add_letter.
    rewrite lookup_insert_eq, Hnew; [done|by left].
  - intros h Hh. rewrite Hframe by (intros ?; apply Hh; by right).
    cbn [fst]. unfold add_letter. rewrite lookup_insert_ne; [done|].
    intros ->. apply Hh. by left.
Qed.

(** When every pair of groups passes the test, in particular with an empty
    p-value mapping and [alpha <= 1], all groups get the one letter "a". *)
Theorem cld_letters_all_share (group_means : list (GroupId * Q)) pvals alpha :
  NoDup (dict_keys group_means) →
  (∀ g h, g ∈ dict_keys group_means → h ∈ dict_keys group_means → g ≠ h →
     nonsig pvals alpha g h = Ok true) →
  ∃ letters, cld_letters group_means pvals alpha = Ok letters ∧
    ∀ g, g ∈ dict_keys group_means → letters !! g = Some [chr ord_a].
Proof.
  intros Hnd Hall.
  destruct (cld_letters_run group_means pvals alpha Hnd) as [-> _].
  pose proof (cld_groups_NoDup group_means Hnd) as Hnds.
  pose proof (sorted_desc_perm (λ g, default 0 (dict_get group_means g))
                (dict_keys group_means)) as Hperm.
  unfold cld_letters_greedy. set (groups := sorted_desc _ _) in *.
  assert (∀ g, g ∈ groups ↔ g ∈ dict_keys group_means) as Hmem
    by (intros g; by rewrite Hperm).
  destruct groups as [|g1 rest] eqn:Hgroups.
  { exists (init_letters []). split; [done|].
    intros g Hg%Hmem. by apply elem_of_nil in Hg. }
  apply NoDup_cons in Hnds as [Hg1 Hrest].
  cbn [for_each]. rewrite first_group_placed. cbn [mbind result_bind].
  destruct (all_share_loop pvals alpha (g1 :: rest) rest
              (add_letter (init_letters (g1 :: rest)) g1 (chr ord_a),
               [chr ord_a]))
    as (st' & -> & Hdone & Hframe); [|done|done| |].
  { intros g h Hg Hh Hne. apply Hall; [apply Hmem; by right|by apply Hmem|done]. }
  { intros g Hg. cbn [fst]. rewrite letters_of_add_letter_ne.
    - apply init_letters_of.
    - intros ->. done. }
  exists st'.1. split; [done|].
  intros g [->|Hg]%Hmem%elem_of_cons; [|by apply Hdone].
  rewrite Hframe by done. cbn [fst]. unfold add_letter.
  by rewrite lookup_insert_eq, init_letters_of.
Qed.

End cld_shapes.

Lemma cld_letters_top_group_witness :
  NoDup (dict_keys abc_means) ∧
  ({[ gA := str "a"; gB := str "a"; gC := str "b" ]} : gmap pykey (list nat))
    !! gA = Some [chr ord_a].
Proof.
  assert (NoDup (dict_keys abc_means)) as Hnd by compute_done.
  split; [done|].
  apply (cld_letters_top_group abc_means abc_pvals (Fin (5#100)) _ gA Hnd).
  - by vm_compute.
  - by vm_compute.
Defined.

Lemma cld_letters_all_share_witness :
  NoDup (dict_keys abc_means) ∧
  ∃ letters, cld_letters abc_means ∅ (Fin 1) = Ok letters ∧
    ∀ g, g ∈ dict_keys abc_means → letters !! g = Some [chr ord_a].
Proof.
  assert (NoDup (dict_keys abc_means)) as Hnd by compute_done.
  split; [done|].
  apply (cld_letters_all_share abc_means ∅ (Fin 1) Hnd).
  intros g h Hg Hh _.
  repeat (apply elem_of_cons in Hg as [->|Hg]);
    [..|by apply elem_of_nil in Hg];
    repeat (apply elem_of_cons in Hh as [->|Hh]);
    try (by apply elem_of_nil in Hh); by vm_compute.
Defined.

(** *** Every pair significant *)

Section cld_apart.
Context {GroupId : Type} `{Countable GroupId} `{PyFloat GroupId}.
Implicit Types (pvals : gmap (GroupId * GroupId) float) (alpha : float).
Implicit Types (letters : gmap GroupId pystr) (groups : list GroupId).
Implicit Types (g h : GroupId) (L : letter).

Lemma join_none pvals alpha groups g letter_list letters placed :
  (∀ L, L ∈ letter_list →
     all_nonsig pvals alpha g
       (filter (λ h, has_letter letters L h = true) groups) = Ok false) →
  join_letters pvals alpha groups g letter_list letters placed
  = Ok (letters, placed).
Proof.
  induction letter_list as [|L rest IH]; intros Hnone; [done|].
  cbn [join_letters]. rewrite Hnone by (by left). cbn [mbind result_bind].
  apply IH. intros L' ?. apply Hnone. by right.
Qed.

Lemma all_apart_loop pvals alpha groups done todo st :
  groups = done ++ todo → NoDup groups →
  (∀ g h, g ∈ groups → h ∈ groups → g ≠ h →
     nonsig pvals alpha g h = Ok false) →
  st.2 = (λ i, chr (ord_a + i)) <$> seq 0 (length done) →
  (∀ i g, done !! i = Some g → st.1 !! g = Some [chr (ord_a + i)]) →
  (∀ g, g ∈ todo → st.1 !! g = Some []) →
  ∃ st', for_each (place_group pvals alpha groups) todo st = Ok st' ∧
    ∀ i g, groups !! i = Some g → st'.1 !! g = Some [chr (ord_a + i)].
Proof.
  revert done st.
  induction todo as [|g todo IH]; intros done st Hgroups Hnd Hsig Hll Hdone Hnew.
  { exists st. split; [done|]. rewrite app_nil_r in Hgroups. by subst. }
  assert (g ∈ groups) as Hg by (subst; apply elem_of_app; right; by left).
  assert (g ∉ done) as Hfresh.
  { subst. apply NoDup_app in Hnd as (_ & Hdis & _). intros ?.
    apply (Hdis g); [done|by left]. }
  assert (letters_of st.1 g = []) as Hg0.
  { unfold letters_of. rewrite Hnew; [done|by left]. }
  assert (join_letters pvals alpha groups g st.2 st.1 false = Ok (st.1, false))
    as Hjoin.
  { apply join_none. intros L HL. rewrite Hll in HL.
    apply list_elem_of_fmap in HL as (i & -> & Hi%elem_of_seq).
    destruct (lookup_lt_is_Some_2 done i) as [gi Hgi]; [lia|].
    assert (gi ∈ groups) as Hgi'.
    { subst. apply elem_of_app. left. by apply list_elem_of_lookup_2 with i. }
    assert (gi ∈ filter (λ h, has_letter st.1 (chr (ord_a + i)) h = true) groups)
      as Hmem.
    { apply list_elem_of_filter. split; [|done]. apply has_letter_true.
      unfold letters_of. rewrite (Hdone i gi Hgi). by left. }
    destruct (filter _ groups) as [|h ms] eqn:Hfilter;
      [by apply elem_of_nil in Hmem|].
    assert (h ∈ filter (λ h, has_letter st.1 (chr (ord_a + i)) h = true) groups)
      as [Hhas Hh]%list_elem_of_filter by (rewrite Hfilter; by left).
    cbn [all_nonsig]. rewrite (Hsig g h); [done|done|done|].
    intros ->. apply has_letter_true in Hhas. rewrite Hg0 in Hhas.
    by apply elem_of_nil in Hhas. }
  assert (length st.2 = length done) as Hlen
    by (by rewrite Hll, length_fmap, length_seq).
  assert (place_group pvals alpha groups g st
          = Ok (add_letter st.1 g (chr (ord_a + length done)),
                st.2 ++ [chr (ord_a + length done)])) as Hplace.
  { unfold place_group. rewrite Hjoin. cbn [mbind result_bind].
    by rewrite Hlen. }
  cbn [for_each]. rewrite Hplace. cbn [mbind result_bind].
  destruct (IH (done ++ [g])
              (add_letter st.1 g (chr (ord_a + length done)),
               st.2 ++ [chr (ord_a + length done)]))
    as (st' & Hrun & Hfinal); [| done | done | | | |].
  - by rewrite <- app_assoc.
  - cbn [snd]. rewrite length_app, Nat.add_1_r, seq_S, fmap_app, Hll. done.
  - intros i g' Hi. cbn [fst]. unfold add_letter.
    apply lookup_app_Some in Hi as [Hi|[Hlen' Hi]].
    + rewrite lookup_insert_ne; [by apply Hdone|].
      intros <-. apply Hfresh. by apply list_elem_of_lookup_2 with i.
    + apply list_lookup_singleton_Some in Hi as [Hi <-].
      rewrite lookup_insert_eq, Hg0. simpl. do 3 f_equal. lia.
  - intros g' Hg'. cbn [fst]. unfold add_letter. rewrite lookup_insert_ne.
    + apply Hnew. by right.
    + intros <-. subst. apply NoDup_app in Hnd as (_ & _ & Hnd).
      by apply NoDup_cons in Hnd as [? _].
  - exists st'. done.
Qed.

(** When every pair of groups fails the test, the groups get the letters
    "a", "b", "c", ... one each, in descending order of mean. *)
Theorem cld_letters_all_apart (group_means : list (GroupId * Q)) pvals alpha :
  NoDup (dict_keys group_means) →
  (∀ g h, g ∈ dict_keys group_means → h ∈ dict_keys group_means → g ≠ h →
     nonsig pvals alpha g h = Ok false) →
  ∃ letters, cld_letters group_means pvals alpha = Ok letters ∧
    ∀ i g,
      sorted_desc (λ g, default 0 (dict_get group_means g))
        (dict_keys group_means) !! i = Some g →
      letters !! g = Some [chr (ord_a + i)].
Proof.
  intros Hnd Hsig.
  destruct (cld_letters_run group_means pvals alpha Hnd) as [-> _].
  pose proof (cld_groups_NoDup group_means Hnd) as Hnds.
  pose proof (sorted_desc_perm (λ g, default 0 (dict_get group_means g))
                (dict_keys group_means)) as Hperm.
  unfold cld_letters_greedy. set (groups := sorted_desc _ _) in *.
  destruct (all_apart_loop pvals alpha groups [] groups (init_letters groups, []))
    as (st' & -> & Hfinal); [done|done| |done| |..].
  - intros g h Hg Hh. apply Hsig; by rewrite <- Hperm.
  - intros i g Hi. by rewrite lookup_nil in Hi.
  - intros g Hg. cbn [fst]. rewrite init_letters_lookup.
    by destruct (decide (g ∈ groups)).
  - exists st'.1. done.
Qed.

End cld_apart.

Lemma cld_letters_all_apart_witness :
  NoDup (dict_keys abc_means) ∧
  ∃ letters, cld_letters abc_means ∅ (Fin 2) = Ok letters ∧
    letters !! gA = Some (str "a") ∧ letters !! gB = Some (str "b") ∧
    letters !! gC = Some (str "c").
Proof.
  assert (NoDup (dict_keys abc_means)) as Hnd by compute_done.
  split; [done|].
  destruct (cld_letters_all_apart abc_means ∅ (Fin 2) Hnd)
    as (letters & Hrun & Hrank).
  { intros g h Hg Hh _.
    repeat (apply elem_of_cons in Hg as [->|Hg]);
      [..|by apply elem_of_nil in Hg];
      repeat (apply elem_of_cons in Hh as [->|Hh]);
      try (by apply elem_of_nil in Hh); by vm_compute. }
  exists letters. split; [done|].
  split; [|split].
  - apply (Hrank 0%nat gA). by vm_compute.
  - apply (Hrank 1%nat gB). by vm_compute.
  - apply (Hrank 2%nat gC). by vm_compute.
Defined.

(** ** [compute_letters_per_enzyme]: the test and the letters together *)


Section dunn_run.
Context {GroupId : Type} `{Countable GroupId} `{PyFloat GroupId}.
Variables (np_sqrt norm_sf : Q → Q).

(** With a supported method and identifiers [float] accepts, the call
    returns a mapping whose keys are the keys of the pairs of groups with
    observations. *)
Lemma dunn_posthoc_run (groups : list (GroupId * list Q)) p_adjust :
  groups ≠ [] → NoDup (dict_keys groups) → supported p_adjust = true →
  Forall (λ g, is_Some (py_float g)) (nonempty_keys groups) →
  ∃ out, dunn_posthoc np_sqrt norm_sf groups p_adjust = Ok out ∧
    ∀ key, is_Some (out !! key) ↔
      ∃ pr, pr ∈ index_pairs (nonempty_keys groups) ∧
            pair_key pr.1 pr.2 = Ok key.
Proof.
  intros Hne Hnd Hs Hnum.
  destruct (dunn_posthoc_unfold np_sqrt norm_sf groups p_adjust Hne Hnd)
    as (raw_p & Hlen & ->).
  destruct (adjust_supported p_adjust raw_p Hs) as (adj_p & -> & Hlen').
  cbn [mbind result_bind].
  pose proof (nonempty_keys_NoDup groups Hnd) as Hnd'.
  set (nk := nonempty_keys groups) in *.
  rewrite Forall_forall in Hnum.
  assert (∀ pr, pr ∈ index_pairs nk → pr.1 ∈ nk ∧ pr.2 ∈ nk) as Hin.
  { intros [a b] (i & j & _ & Hi & Hj)%elem_of_index_pairs.
    split; by eapply list_elem_of_lookup_2. }
  assert (∀ pr key, pair_key pr.1 pr.2 = Ok key →
            key = pr ∨ key = (pr.2, pr.1)) as Hshape.
  { intros [a b] key. unfold pair_key. simpl.
    destruct (py_float a), (py_float b); simpl; try done.
    destruct (flt _ _); intros [= <-]; [by right|by left]. }
  destruct (store_pairs_spec (index_pairs nk) adj_p ∅)
    as (out & Hrun & _ & Hdom).
  { congruence. }
  { intros pr [? ?]%Hin. apply pair_key_total; by apply Hnum. }
  { intros [a b] [c d] key Hpr Hpr' Hk1%Hshape Hk2%Hshape. simpl in *.
    destruct Hk1 as [->| ->], Hk2 as [Heq|Heq]; try done;
      injection Heq as <- <-; try done;
      by destruct (index_pairs_mirror nk a b). }
  { by apply index_pairs_NoDup. }
  { intros. apply lookup_empty. }
  exists out. split; [done|]. intros key. rewrite Hdom, lookup_empty.
  split; [intros [[? [=]]|?]; done|by right].
Qed.

End dunn_run.

Section compute_letters_properties.
Context {Enzyme : Type}.
Variables (np_sqrt norm_sf : Q → Q).
Implicit Types (enz : Enzyme) (groups : list (Qc * list Q)).
Implicit Types (parts : list (Enzyme * list (Qc * list Q))).
Implicit Types (rows : list (Enzyme * Qc * pystr)) (t : Qc).

(** Two different treatments get the same key whichever comes first. *)
Lemma treatment_pair_key (t1 t2 : Qc) :
  t1 ≠ t2 →
  pair_key t1 t2 = pair_key t2 t1 ∧
  (pair_key t1 t2 = Ok (t1, t2) ∨ pair_key t1 t2 = Ok (t2, t1)).
Proof.
  intros Hne. unfold pair_key, py_float, treatment_float. simpl.
  destruct (Qltb t2 t1) eqn:E21.
  - rewrite (Qltb_asym _ _ E21). auto.
  - assert (Qltb t1 t2 = true) as ->; [|auto].
    apply Qltb_lt. apply Qltb_ge in E21.
    apply Qle_lt_or_eq in E21 as [?|Heq]; [done|].
    by apply Qc_is_canon in Heq.
Qed.

Lemma count_nonempty groups :
  count_if (λ gv : Qc * list Q, negb (Nat.eqb (length gv.2) 0)) groups
  = length (nonempty_keys groups).
Proof. unfold count_if, nonempty_keys. by rewrite length_fmap. Qed.

(** What one round of the loop does. *)
Lemma enzyme_letters_run alpha adjust enz groups rows :
  NoDup (dict_keys groups) →
  if (length (nonempty_keys groups) <? 2)%nat
  then enzyme_letters np_sqrt norm_sf alpha adjust (enz, groups) rows = Ok rows
  else if supported adjust
  then ∃ pvals letters ll order,
    dunn_posthoc np_sqrt norm_sf (drop_empty groups) adjust = Ok pvals ∧
    (∀ key, is_Some (pvals !! key) ↔
       ∃ pr, pr ∈ index_pairs (nonempty_keys groups) ∧
             pair_key pr.1 pr.2 = Ok key) ∧
    cld_letters (means_of (drop_empty groups)) pvals alpha = Ok letters ∧
    cld_inv pvals alpha order order (letters, ll) ∧
    order ≡ₚ nonempty_keys groups ∧
    enzyme_letters np_sqrt norm_sf alpha adjust (enz, groups) rows
      = Ok (rows ++ ((λ t, (enz, t, letters_of letters t)) <$> order))
  else enzyme_letters np_sqrt norm_sf alpha adjust (enz, groups) rows
       = Raise ValueError_p_adjust.
Proof.
  intros Hnd. unfold enzyme_letters. cbn [fst snd].
  rewrite count_nonempty.
  destruct (length (nonempty_keys groups) <? 2)%nat eqn:Hk; [done|].
  apply Nat.ltb_ge in Hk.
  set (kept := drop_empty groups).
  assert (dict_keys kept = nonempty_keys groups) as Hkeys by done.
  assert (NoDup (dict_keys kept)) as Hnd'.
  { rewrite Hkeys. by apply nonempty_keys_NoDup. }
  assert (kept ≠ []) as Hkept.
  { intros Hnil. rewrite <- Hkeys, Hnil in Hk. simpl in Hk. lia. }
  assert (nonempty_keys kept = nonempty_keys groups) as Hnk
    by apply nonempty_keys_drop_empty.
  destruct (supported adjust) eqn:Hs.
  - destruct (dunn_posthoc_run np_sqrt norm_sf kept adjust Hkept Hnd' Hs)
      as (pvals & -> & Hdom).
    { apply Forall_forall. intros t _. by eexists. }
    cbn [mbind result_bind].
    set (means := means_of kept).
    assert (dict_keys means = nonempty_keys groups) as Hmk.
    { unfold means, means_of, dict_keys. rewrite <- list_fmap_compose. done. }
    assert (NoDup (dict_keys means)) as Hndm.
    { rewrite Hmk. by apply nonempty_keys_NoDup. }
    destruct (cld_letters_run means pvals alpha Hndm) as [Hsame Hinv].
    destruct (cld_letters_total means pvals alpha) as [letters Hrun].
    { apply Forall_forall. intros t _. by eexists. }
    destruct (Hinv letters Hrun) as [ll Hll].
    rewrite <- Hsame in Hrun. rewrite Hrun. cbn [mbind result_bind].
    exists pvals, letters, ll,
      (sorted_desc (λ g, default 0 (dict_get means g)) (dict_keys means)).
    split; [done|]. split.
    { by rewrite <- Hnk. }
    split; [done|]. split; [exact Hll|]. split; [|done].
    by rewrite sorted_desc_perm, Hmk.
  - destruct (dunn_posthoc_unfold np_sqrt norm_sf kept adjust Hkept Hnd')
      as (raw_p & _ & ->).
    by rewrite adjust_unsupported.
Qed.

(** One round of the loop, from the finished dict [groups] on: it raises
    only the error about the method, and it does so exactly when the
    method is not supported and two or more treatments have observations.
    With fewer than two, [rows] is left as it is and the method is not
    looked at. *)
Theorem enzyme_letters_outcome alpha adjust enz groups rows :
  NoDup (dict_keys groups) →
  match enzyme_letters np_sqrt norm_sf alpha adjust (enz, groups) rows with
  | Ok rows' =>
      ((length (nonempty_keys groups) < 2)%nat ∧ rows' = rows) ∨
      ((2 ≤ length (nonempty_keys groups))%nat ∧ supported adjust = true)
  | Raise e =>
      e = ValueError_p_adjust ∧ supported adjust = false ∧
      (2 ≤ length (nonempty_keys groups))%nat
  end.
Proof.
  intros Hnd.
  pose proof (enzyme_letters_run alpha adjust enz groups rows Hnd) as Hstep.
  destruct (length (nonempty_keys groups) <? 2)%nat eqn:Hk.
  - apply Nat.ltb_lt in Hk. rewrite Hstep. by left.
  - apply Nat.ltb_ge in Hk. destruct (supported adjust) eqn:Hs.
    + destruct Hstep as (pvals & letters & ll & order & _ & _ & _ & _ & _ & ->).
      by right.
    + by rewrite Hstep.
Qed.

(** Where the rows of the whole loop come from: each one was made in the
    round of its enzyme, from the letters of that round. *)
Lemma compute_letters_loop alpha adjust parts rows0 rows :
  Forall (λ part, NoDup (dict_keys part.2)) parts →
  for_each (enzyme_letters np_sqrt norm_sf alpha adjust) parts rows0 = Ok rows →
  ∃ news, rows = rows0 ++ mjoin news ∧
    Forall2 (λ part new,
      if (length (nonempty_keys part.2) <? 2)%nat then new = []
      else ∃ pvals letters ll order,
        dunn_posthoc np_sqrt norm_sf (drop_empty part.2) adjust = Ok pvals ∧
        (∀ key, is_Some (pvals !! key) ↔
           ∃ pr, pr ∈ index_pairs (nonempty_keys part.2) ∧
                 pair_key pr.1 pr.2 = Ok key) ∧
        cld_letters (means_of (drop_empty part.2)) pvals alpha = Ok letters ∧
        cld_inv pvals alpha order order (letters, ll) ∧
        order ≡ₚ nonempty_keys part.2 ∧
        new = (λ t, (part.1, t, letters_of letters t)) <$> order) parts news.
Proof.
  intros Hnd. revert rows0.
  induction Hnd as [|[enz groups] parts Hg _ IH]; intros rows0.
  - intros [= <-]. exists []. split; [by rewrite app_nil_r|constructor].
  - cbn [for_each].
    pose proof (enzyme_letters_run alpha adjust enz groups rows0 Hg) as Hstep.
    cbn [fst snd] in *.
    destruct (length (nonempty_keys groups) <? 2)%nat eqn:Hk.
    + rewrite Hstep. cbn [mbind result_bind].
      intros (news & -> & Hall)%IH. exists ([] :: news).
      split; [done|]. constructor; [|done]. cbn [fst snd]. by rewrite Hk.
    + destruct (supported adjust).
      * destruct Hstep
          as (pvals & letters & ll & order & Hd & Hdom & Hc & Hinv & Hperm & ->).
        cbn [mbind result_bind]. intros (news & -> & Hall)%IH.
        exists (((λ t, (enz, t, letters_of letters t)) <$> order) :: news).
        split; [by rewrite <- app_assoc|]. constructor; [|done].
        cbn [fst snd]. rewrite Hk. eauto 12.
      * by rewrite Hstep.
Qed.

(** A row of the result belongs to a round that went through the test. *)
Lemma compute_letters_row alpha adjust parts rows row :
  Forall (λ part, NoDup (dict_keys part.2)) parts →
  compute_letters_per_enzyme np_sqrt norm_sf alpha adjust parts = Ok rows →
  row ∈ rows →
  ∃ groups pvals letters ll order,
    (row.1.1, groups) ∈ parts ∧
    (2 ≤ length (nonempty_keys groups))%nat ∧
    dunn_posthoc np_sqrt norm_sf (drop_empty groups) adjust = Ok pvals ∧
    (∀ key, is_Some (pvals !! key) ↔
       ∃ pr, pr ∈ index_pairs (nonempty_keys groups) ∧
             pair_key pr.1 pr.2 = Ok key) ∧
    cld_letters (means_of (drop_empty groups)) pvals alpha = Ok letters ∧
    cld_inv pvals alpha order order (letters, ll) ∧
    order ≡ₚ nonempty_keys groups ∧
    row.1.2 ∈ order ∧ row.2 = letters_of letters row.1.2.
Proof.
  intros Hnd Hrun Hrow.
  destruct (compute_letters_loop alpha adjust parts [] rows Hnd Hrun)
    as (news & -> & Hall).
  rewrite app_nil_l in Hrow.
  apply list_elem_of_join in Hrow as (new & Hrow & Hnew).
  apply list_elem_of_lookup in Hnew as [i Hi].
  destruct (Forall2_lookup_r _ _ _ _ _ Hall Hi) as ([enz groups] & Hpart & Hp).
  cbn [fst snd] in Hp.
  destruct (length (nonempty_keys groups) <? 2)%nat eqn:Hk.
  { subst new. by apply elem_of_nil in Hrow. }
  apply Nat.ltb_ge in Hk.
  destruct Hp as (pvals & letters & ll & order & Hd & Hdom & Hc & Hinv & Hperm
                  & ->).
  apply list_elem_of_fmap in Hrow as (t & -> & Ht). cbn [fst snd].
  exists groups, pvals, letters, ll, order.
  split; [by eapply list_elem_of_lookup_2|]. eauto 10.
Qed.

(** A treatment with observations of an enzyme that has two or more of
    them has its row. *)
Lemma compute_letters_has_row alpha adjust parts rows enz groups t :
  Forall (λ part, NoDup (dict_keys part.2)) parts →
  compute_letters_per_enzyme np_sqrt norm_sf alpha adjust parts = Ok rows →
  (enz, groups) ∈ parts → (2 ≤ length (nonempty_keys groups))%nat →
  t ∈ nonempty_keys groups →
  ∃ L, (enz, t, L) ∈ rows.
Proof.
  intros Hnd Hrun Hpart Hk Ht.
  destruct (compute_letters_loop alpha adjust parts [] rows Hnd Hrun)
    as (news & -> & Hall).
  rewrite app_nil_l.
  apply list_elem_of_lookup in Hpart as [i Hi].
  destruct (Forall2_lookup_l _ _ _ _ _ Hall Hi) as (new & Hnew & Hp).
  cbn [fst snd] in Hp. apply Nat.ltb_ge in Hk. rewrite Hk in Hp.
  destruct Hp as (pvals & letters & ll & order & _ & _ & _ & _ & Hperm & ->).
  exists (letters_of letters t). apply list_elem_of_join.
  eexists. split; [|by eapply list_elem_of_lookup_2].
  apply list_elem_of_fmap. exists t. split; [done|]. by rewrite Hperm.
Qed.

(** The rows are those of the treatments with observations of the enzymes
    that have two or more such treatments, and every row has a letter. *)
Theorem compute_letters_rows alpha adjust parts rows :
  Forall (λ part, NoDup (dict_keys part.2)) parts →
  compute_letters_per_enzyme np_sqrt norm_sf alpha adjust parts = Ok rows →
  (∀ enz t, (∃ L, (enz, t, L) ∈ rows) ↔
     ∃ groups, (enz, groups) ∈ parts ∧
       (2 ≤ length (nonempty_keys groups))%nat ∧ t ∈ nonempty_keys groups) ∧
  (∀ row, row ∈ rows → row.2 ≠ []).
Proof.
  intros Hnd Hrun. split.
  - intros enz t. split.
    + intros [L Hrow].
      destruct (compute_letters_row alpha adjust parts rows _ Hnd Hrun Hrow)
        as (groups & pvals & letters & ll & order & Hpart & Hk & _ & _ & _ & _
            & Hperm & Ht & _).
      cbn [fst snd] in *. exists groups. rewrite Hperm in Ht. done.
    + intros (groups & Hpart & Hk & Ht).
      by apply (compute_letters_has_row alpha adjust parts rows enz groups).
  - intros row Hrow.
    destruct (compute_letters_row alpha adjust parts rows _ Hnd Hrun Hrow)
      as (groups & pvals & letters & ll & order & _ & _ & _ & _ & _ & Hinv
          & _ & Ht & ->).
    destruct Hinv as (_ & _ & Hdone & _). by apply Hdone.
Qed.

(** Two treatments of an enzyme whose rows share a letter were compared by
    the Dunn test of that enzyme, and their adjusted p-value is at least
    [alpha]; the default of [pvals.get] never comes into play. *)
Theorem compute_letters_shared_letter alpha adjust parts rows enz groups
    t1 t2 L1 L2 c :
  NoDup parts.*1 →
  Forall (λ part, NoDup (dict_keys part.2)) parts →
  compute_letters_per_enzyme np_sqrt norm_sf alpha adjust parts = Ok rows →
  (enz, groups) ∈ parts →
  (enz, t1, L1) ∈ rows → (enz, t2, L2) ∈ rows → t1 ≠ t2 →
  c ∈ L1 → c ∈ L2 →
  ∃ pvals p,
    dunn_posthoc np_sqrt norm_sf (drop_empty groups) adjust = Ok pvals ∧
    (pvals !! (t1, t2) = Some p ∨ pvals !! (t2, t1) = Some p) ∧
    fge p alpha = true.
Proof.
  intros Henz Hnd Hrun Hpart Hr1 Hr2 Hne Hc1 Hc2.
  assert (∀ groups', (enz, groups') ∈ parts → groups' = groups) as Hsame.
  { intros groups' Hpart'.
    apply list_elem_of_lookup in Hpart as [i Hi].
    apply list_elem_of_lookup in Hpart' as [j Hj].
    assert (i = j) as ->; [|congruence].
    apply (NoDup_lookup parts.*1 i j enz); [done|..];
      rewrite list_lookup_fmap; [by rewrite Hi|by rewrite Hj]. }
  destruct (compute_letters_row alpha adjust parts rows _ Hnd Hrun Hr1)
    as (g1 & pvals & letters & ll & order & Hp1 & _ & Hd & Hdom & Hc & Hinv
        & Hperm & Ht1 & HL1).
  destruct (compute_letters_row alpha adjust parts rows _ Hnd Hrun Hr2)
    as (g2 & pvals' & letters' & ll' & order' & Hp2 & _ & Hd' & _ & Hc' & _
        & Hperm' & Ht2 & HL2).
  cbn [fst snd] in *.
  apply Hsame in Hp1 as ->. apply Hsame in Hp2 as ->.
  assert (pvals' = pvals) as -> by congruence.
  assert (letters' = letters) as -> by congruence.
  subst L1 L2. rewrite Hperm in Ht1. rewrite Hperm' in Ht2.
  destruct Hinv as (_ & _ & _ & _ & Hshare).
  destruct (treatment_pair_key t1 t2 Hne) as [Hsym Hkey].
  assert (∃ key, pair_key t1 t2 = Ok key ∧
            (key = (t1, t2) ∨ key = (t2, t1))) as (key & Hk & Hshape).
  { destruct Hkey as [?|?]; eauto. }
  assert (nonsig pvals alpha t1 t2 = Ok true) as Hns.
  { destruct (Hshare t1 t2 c Hne Hc1 Hc2) as [?|Hns]; [done|].
    unfold nonsig in *. by rewrite Hsym. }
  unfold nonsig in Hns. rewrite Hk in Hns. cbn [mbind result_bind] in Hns.
  injection Hns as Hns.
  assert (is_Some (pvals !! key)) as [p Hp].
  { apply Hdom.
    destruct (index_pairs_cover (nonempty_keys groups) t1 t2 Ht1 Ht2 Hne).
    - exists (t1, t2). split; [done|]. exact Hk.
    - exists (t2, t1). split; [done|]. cbn [fst snd]. by rewrite <- Hsym. }
  exists pvals, p. split; [done|].
  unfold pvals_get in Hns. rewrite Hp in Hns. cbn [default] in Hns. split; [|done].
  destruct Hshape as [-> | ->]; [by left|by right].
Qed.

End compute_letters_properties.

Lemma sample_parts_NoDup :
  Forall (λ part : string * list (Qc * list Q), NoDup (dict_keys part.2))
    sample_parts.
Proof. compute_done. Qed.

Lemma sample_parts_rows :
  compute_letters_per_enzyme sample_sqrt sample_sf (Fin (5#100)) "holm"
    sample_parts = Ok sample_rows.
Proof. vm_compute. reflexivity. Qed.

Lemma enzyme_letters_outcome_witness :
  supported "fdr" = false ∧ (2 ≤ length (nonempty_keys sample_groups))%nat.
Proof.
  assert (NoDup (dict_keys sample_groups)) as Hnd by compute_done.
  pose proof (enzyme_letters_outcome sample_sqrt sample_sf (Fin (5#100))
                "fdr" "E1"%string sample_groups [] Hnd) as Hw.
  assert (enzyme_letters sample_sqrt sample_sf (Fin (5#100)) "fdr"
            ("E1"%string, sample_groups) []
          = Raise ValueError_p_adjust) as Hrun by (vm_compute; reflexivity).
  rewrite Hrun in Hw. by destruct Hw as (_ & ? & ?).
Defined.

Lemma compute_letters_rows_witness :
  (∀ enz t, (∃ L, (enz, t, L) ∈ sample_rows) ↔
     ∃ groups, (enz, groups) ∈ sample_parts ∧
       (2 ≤ length (nonempty_keys groups))%nat ∧ t ∈ nonempty_keys groups) ∧
  (∀ row, row ∈ sample_rows → row.2 ≠ []).
Proof.
  exact (compute_letters_rows sample_sqrt sample_sf (Fin (5#100)) "holm"
           sample_parts sample_rows sample_parts_NoDup sample_parts_rows).
Defined.

Lemma compute_letters_shared_letter_witness :
  ∃ pvals p,
    dunn_posthoc sample_sqrt sample_sf
      [(Q2Qc 0, [1; 2; 3]); (Q2Qc 10, [7; 8; 9])] "holm" = Ok pvals ∧
    (pvals !! (Q2Qc 10, Q2Qc 0) = Some p ∨
     pvals !! (Q2Qc 0, Q2Qc 10) = Some p) ∧
    fge p (Fin (5#100)) = true.
Proof.
  apply (compute_letters_shared_letter sample_sqrt sample_sf (Fin (5#100))
           "holm" sample_parts sample_rows "E1"
           [(Q2Qc 0, [1; 2; 3]); (Q2Qc (1#2), []); (Q2Qc 10, [7; 8; 9])]
           (Q2Qc 10) (Q2Qc 0) [97%nat] [97%nat] 97%nat).
  - compute_done.
  - exact sample_parts_NoDup.
  - exact sample_parts_rows.
  - by left.
  - by left.
  - right. by left.
  - intros Heq. apply (f_equal this) in Heq. discriminate Heq.
  - by left.
  - by left.
Defined.

(** ** The keys of the mapping of [dunn_posthoc] *)

Lemma flt_asym (a b : float) : flt a b = true → flt b a = false.
Proof. destruct a, b; simpl; try done. apply Qltb_asym. Qed.

Section dunn_keys.
Context {GroupId : Type} `{Countable GroupId} `{PyFloat GroupId}.
Variables (np_sqrt norm_sf : Q → Q).

(** A key of the result was there before or is the key of a stored pair. *)
Lemma store_pairs_keys (kps : list ((GroupId * GroupId) * float)) out out' key :
  for_each store_pair kps out = Ok out' → is_Some (out' !! key) →
  is_Some (out !! key) ∨ ∃ kp, kp ∈ kps ∧ pair_key kp.1.1 kp.1.2 = Ok key.
Proof.
  revert out. induction kps as [|kp kps IH]; intros out; simpl.
  - intros [= <-] ?. by left.
  - destruct (store_pair kp out) as [out1|e] eqn:Hstore; simpl; [|done].
    intros Hrun Hp. destruct (IH out1 Hrun Hp) as [Hout1|(kp' & ? & ?)].
    + unfold store_pair in Hstore.
      destruct (pair_key kp.1.1 kp.1.2) as [k|e] eqn:Hk; simpl in Hstore;
        [|done].
      injection Hstore as <-. destruct (decide (k = key)) as [->|Hne].
      * right. exists kp. split; [by left|done].
      * rewrite lookup_insert_ne in Hout1 by done. by left.
    + right. exists kp'. split; [by right|done].
Qed.

(** The keys of the result are pairs of two different groups that have
    observations, the one with the smaller [float] value first. *)
Theorem dunn_posthoc_keys (groups : list (GroupId * list Q)) p_adjust out a b :
  NoDup (dict_keys groups) →
  dunn_posthoc np_sqrt norm_sf groups p_adjust = Ok out →
  is_Some (out !! (a, b)) →
  a ∈ nonempty_keys groups ∧ b ∈ nonempty_keys groups ∧ a ≠ b ∧
  ∃ fa fb, py_float a = Some fa ∧ py_float b = Some fb ∧ flt fb fa = false.
Proof.
  intros Hnd Hrun Hab.
  destruct groups as [|gv groups]; [done|].
  set (gs := gv :: groups) in *. assert (gs ≠ []) as Hne by done.
  destruct (dunn_posthoc_unfold np_sqrt norm_sf gs p_adjust Hne Hnd)
    as (raw_p & Hlen & Heq).
  rewrite Heq in Hrun. apply bind_Ok in Hrun as (adj_p & _ & Hrun).
  destruct (store_pairs_keys _ _ _ _ Hrun Hab)
    as [Hempty|([[x y] p] & Hin & Hkey)].
  { rewrite lookup_empty in Hempty. by destruct Hempty. }
  apply elem_of_zip_l in Hin. cbn [fst snd] in *.
  pose proof (nonempty_keys_NoDup gs Hnd) as Hnd'.
  pose proof (index_pairs_distinct _ _ _ Hnd' Hin) as Hxy.
  apply elem_of_index_pairs in Hin as (i & j & _ & Hi & Hj).
  apply list_elem_of_lookup_2 in Hi, Hj.
  unfold pair_key in Hkey.
  destruct (py_float x) as [fx|] eqn:Hx; [|done].
  destruct (py_float y) as [fy|] eqn:Hy; [|done].
  cbn [of_option mbind result_bind mret result_ret] in Hkey.
  destruct (flt fy fx) eqn:Hlt; injection Hkey as <- <-.
  - repeat split; [done|done|by intros ->|].
    exists fy, fx. repeat split; [done|done|]. by apply flt_asym.
  - repeat split; [done|done|done|]. by exists fx, fy.
Qed.

End dunn_keys.

Lemma dunn_posthoc_keys_witness :
  KNum 1 ∈ nonempty_keys twin_groups ∧ KNum 2 ∈ nonempty_keys twin_groups ∧
  KNum 1 ≠ KNum 2 ∧
  ∃ fa fb, py_float (KNum 1) = Some fa ∧ py_float (KNum 2) = Some fb ∧
           flt fb fa = false.
Proof.
  destruct twin_groups_result as (out & p & Hrun & Hp).
  apply (dunn_posthoc_keys sample_sqrt sample_sf twin_groups "holm" out).
  - compute_done.
  - exact Hrun.
  - by exists p.
Defined.

(** ** The letters [cld_letters] hands out *)

Section cld_alphabet.
Context {GroupId : Type} `{Countable GroupId} `{PyFloat GroupId}.
Implicit Types (pvals : gmap (GroupId * GroupId) float) (alpha : float).
Implicit Types (letters : gmap GroupId pystr) (groups : list GroupId).
Implicit Types (g h : GroupId) (L : letter).

Lemma first_letters_S n :
  first_letters (S n) = first_letters n ++ [chr (ord_a + n)].
Proof. unfold first_letters. by rewrite seq_S, fmap_app. Qed.

Lemma length_first_letters n : length (first_letters n) = n.
Proof. unfold first_letters. by rewrite length_fmap, length_seq. Qed.

Lemma first_letters_le k n :
  (k ≤ n)%nat → first_letters k `sublist_of` first_letters n.
Proof.
  induction 1 as [|n _ IH]; [done|].
  rewrite first_letters_S. by apply sublist_inserts_r.
Qed.

(** One group's pass over [letter_list] appends letters to [letters[g]]
    in the order of [letter_list], and leaves the other strings alone. *)
Lemma join_letters_sublist pvals alpha groups g letter_list letters placed
    letters' placed' :
  join_letters pvals alpha groups g letter_list letters placed
    = Ok (letters', placed') →
  ∃ joined,
    letters_of letters' g = letters_of letters g ++ joined ∧
    joined `sublist_of` letter_list ∧
    (placed' = false → placed = false ∧ joined = []) ∧
    (∀ h, h ≠ g → letters_of letters' h = letters_of letters h).
Proof.
  revert letters placed.
  induction letter_list as [|L rest IH]; intros letters placed; simpl.
  - intros [= <- <-]. exists []. by rewrite app_nil_r.
  - intros (ok & _ & Hrest)%bind_Ok. destruct ok.
    + apply IH in Hrest as (joined & Hg & Hsub & Hpl & Hoth).
      exists (L :: joined).
      rewrite letters_of_add_letter, <- app_assoc in Hg.
      split; [done|]. split; [by apply sublist_skip|]. split.
      { intros Hp. by destruct (Hpl Hp). }
      intros h Hh. rewrite Hoth by done. by apply letters_of_add_letter_ne.
    + apply IH in Hrest as (joined & Hg & Hsub & Hpl & Hoth).
      exists joined. split; [done|]. split; [by apply sublist_cons|done].
Qed.

(** The loop keeps [letter_list] an initial stretch of the alphabet, no
    longer than the number of groups done, and every string in its order. *)
Lemma alphabet_loop pvals alpha groups todo done st st' :
  NoDup (done ++ todo) →
  (∃ k, (k ≤ length done)%nat ∧ st.2 = first_letters k) →
  (∀ h, letters_of st.1 h `sublist_of` st.2) →
  (∀ h, h ∉ done → letters_of st.1 h = []) →
  for_each (place_group pvals alpha groups) todo st = Ok st' →
  (∃ k, (k ≤ length (done ++ todo))%nat ∧ st'.2 = first_letters k) ∧
  (∀ h, letters_of st'.1 h `sublist_of` st'.2).
Proof.
  revert done st.
  induction todo as [|g todo IH]; intros done st Hnd Hll Hsub Hfresh.
  - intros [= <-]. by rewrite app_nil_r.
  - cbn [for_each]. intros (st1 & Hplace & Hrun)%bind_Ok.
    assert (g ∉ done) as Hg.
    { apply NoDup_app in Hnd as (_ & Hdis & _). intros ?.
      apply (Hdis g); [done|by left]. }
    replace (done ++ g :: todo) with ((done ++ [g]) ++ todo) in *
      by (by rewrite <- app_assoc).
    revert Hrun. apply IH; [done|..].
    all: unfold place_group in Hplace;
      apply bind_Ok in Hplace as ([letters1 placed] & Hjoin & Hplace);
      apply join_letters_sublist in Hjoin as (joined & Hjg & Hjs & Hpl & Hoth);
      rewrite (Hfresh g Hg) in Hjg; simpl in Hjg;
      destruct Hll as (k & Hk & Hll);
      destruct placed; injection Hplace as <-; cbn [fst snd].
    + exists k. rewrite length_app. simpl. split; [lia|done].
    + exists (S k). rewrite length_app. simpl. split; [lia|].
      by rewrite first_letters_S, Hll, length_first_letters.
    + intros h. destruct (decide (h = g)) as [->|Hne]; [by rewrite Hjg|].
      rewrite Hoth by done. apply Hsub.
    + intros h. destruct (decide (h = g)) as [->|Hne].
      * rewrite letters_of_add_letter, Hjg. by apply sublist_app.
      * rewrite letters_of_add_letter_ne, Hoth by done.
        by apply sublist_inserts_r.
    + intros h [Hh Hhg]%not_elem_of_app. rewrite Hoth; [by apply Hfresh|].
      intros ->. apply Hhg. by left.
    + intros h [Hh Hhg]%not_elem_of_app.
      rewrite letters_of_add_letter_ne, Hoth; [by apply Hfresh| |];
        intros ->; apply Hhg; by left.
Qed.

(** The string of every group is made of letters among the first [n],
    [n] the number of groups, in alphabetical order and none twice. *)
Theorem cld_letters_alphabet (group_means : list (GroupId * Q)) pvals alpha
    letters g :
  NoDup (dict_keys group_means) →
  cld_letters group_means pvals alpha = Ok letters →
  letters_of letters g `sublist_of` first_letters (length group_means).
Proof.
  intros Hnd Hrun.
  destruct (cld_letters_run group_means pvals alpha Hnd) as [Heq _].
  rewrite Heq in Hrun. unfold cld_letters_greedy in Hrun.
  apply bind_Ok in Hrun as (st & Hrun & [= <-]).
  apply (alphabet_loop pvals alpha _ _ []) in Hrun as [(k & Hk & Hll) Hsub].
  - transitivity st.2; [apply Hsub|]. rewrite Hll. apply first_letters_le.
    rewrite app_nil_l, sorted_desc_perm in Hk.
    unfold dict_keys in Hk. by rewrite length_fmap in Hk.
  - rewrite app_nil_l. by apply cld_groups_NoDup.
  - exists 0%nat. done.
  - intros h. cbn [fst snd]. by rewrite init_letters_of.
  - intros h _. cbn [fst]. apply init_letters_of.
Qed.

End cld_alphabet.

Lemma cld_letters_alphabet_witness :
  [98]%nat `sublist_of` first_letters (length abc_means).
Proof.
  assert (NoDup (dict_keys abc_means)) as Hnd by compute_done.
  assert (cld_letters abc_means abc_pvals (Fin (5#100))
          = Ok {[ gA := [97]; gB := [97]; gC := [98] ]}%nat) as Hrun
    by (vm_compute; reflexivity).
  pose proof (cld_letters_alphabet abc_means abc_pvals (Fin (5#100)) _ gC
                Hnd Hrun) as Hw.
  vm_compute in Hw. vm_compute. exact Hw.
Defined.

(** ** Letters shared by identifiers of different float values *)


Section cld_pairs.
Context {GroupId : Type} `{Countable GroupId} `{PyFloat GroupId}.
Implicit Types (pvals : gmap (GroupId * GroupId) float) (alpha : float).
Implicit Types (letters : gmap GroupId pystr) (groups : list GroupId).
Implicit Types (g h : GroupId) (L : letter).


(** Two identifiers of different float values have one sorted pair,
    whichever comes first. *)
Lemma pair_key_apart g h :
  float_apart g h → ∃ key, pair_key g h = Ok key ∧ pair_key h g = Ok key.
Proof.
  intros (fg & fh & Hg & Hh & Hlt). unfold pair_key. rewrite Hg, Hh.
  cbn [of_option mbind result_bind mret result_ret].
  destruct Hlt as [Hlt|Hlt]; rewrite Hlt, (flt_asym _ _ Hlt); eauto.
Qed.


(** C1, as the code has it.  Whatever mapping [cld_letters] returns, two
    groups whose letter strings have a letter in common and whose
    identifiers [float] takes to different numbers are stored as
    non-significant: they have one pair sorted by numeric value, and the
    p-value found under it, 1.0 when it is absent, is at least [alpha].
    A mapping is returned whenever every identifier converts with
    [float]. *)
Theorem cld_letters_shared_letter_nonsig (group_means : list (GroupId * Q))
    pvals alpha :
  NoDup (dict_keys group_means) →
  (Forall (λ g, is_Some (py_float g)) (dict_keys group_means) →
   ∃ letters, cld_letters group_means pvals alpha = Ok letters) ∧
  (∀ letters g h L,
     cld_letters group_means pvals alpha = Ok letters →
     g ≠ h → L ∈ letters_of letters g → L ∈ letters_of letters h →
     float_apart g h →
     ∃ key, pair_key g h = Ok key ∧ pair_key h g = Ok key ∧
            fge (pvals_get pvals key) alpha = true).
Proof.
  intros Hnd. destruct (cld_letters_run group_means pvals alpha Hnd)
    as [Heq Hinv].
  rewrite Heq. split; [apply cld_letters_total|].
  intros letters g h L Hrun Hgh Hg Hh (key & Hk1 & Hk2)%pair_key_apart.
  exists key. split; [done|]. split; [done|].
  destruct (Hinv letters Hrun) as (ll & _ & _ & _ & _ & Hpair).
  destruct (Hpair g h L Hgh Hg Hh) as [Hns|Hns];
    apply bind_Ok in Hns as (key' & Hkey & [= Hge]); congruence.
Qed.

End cld_pairs.

Lemma cld_letters_shared_letter_nonsig_witness :
  ∃ key, pair_key gA gB = Ok key ∧ pair_key gB gA = Ok key ∧
         fge (pvals_get abc_pvals key) (Fin (5#100)) = true.
Proof.
  assert (NoDup (dict_keys abc_means)) as Hnd by compute_done.
  destruct (cld_letters_shared_letter_nonsig abc_means abc_pvals
              (Fin (5#100)) Hnd) as [_ Hshared].
  apply (Hshared {[ gA := str "a"; gB := str "a"; gC := str "b" ]}
           gA gB 97%nat).
  - by vm_compute.
  - done.
  - vm_compute. by left.
  - vm_compute. by left.
  - exists (Fin 1), (Fin 2). split; [done|]. split; [done|]. by left.
Defined.

(** C1 as it is written covers every pair: the identifiers 1 and "1" have
    the same float value, so their sorted pair depends on which comes
    first.  The test of "1" against 1 looks under ("1", 1), finds nothing
    and takes 1.0, and the two groups share "a" although the p-value
    stored for them, under (1, "1"), is below [alpha]. *)
Lemma cld_letters_tied_identifiers :
  cld_letters tied_means tied_pvals (Fin (5#100))
    = Ok {[ KNum 1 := str "a"; KStr "1" := str "a" ]} ∧
  pair_key (KNum 1) (KStr "1") = Ok (KNum 1, KStr "1") ∧
  tied_pvals !! (KNum 1, KStr "1") = Some (Fin (1#100)) ∧
  fge (Fin (1#100)) (Fin (5#100)) = false.
Proof. repeat split; by vm_compute. Qed.

(** *** Sorting a list whose keys are all different *)




Section cld_three_groups.
Context {GroupId : Type} `{Countable GroupId} `{PyFloat GroupId}.
Implicit Types (pvals : gmap (GroupId * GroupId) float) (alpha : float).


End cld_three_groups.

